(** * QingBoard / MutterBoard: the input state machine of the on-screen keyboard

    A shallow embedding of [src/qingboard.py] (class [QingBoard] and its
    [KeyboardEngine]) together with the properties of its modifier registry,
    contact tracker, double-Shift detector, key repeat and space cursor mode,
    and of the key handling of [src/mutterboard.py] (class [MutterBoard], in
    the module of that name below).

    Conventions of the embedding:
    - [self] is an explicit record threaded through every method;
    - a Python [dict] is a [gmap], a Python [set] a [gset];
    - [self.modifiers[key_code]] raises [KeyError] on a missing key: methods
      that index the dictionary return [option], [None] being the exception;
    - a Python float (clock readings, pointer coordinates, accumulators) is
      a rational [Q]; every arithmetic operation on floats rounds its exact
      result to the nearest IEEE 754 binary64 number ([fl]), comparisons are
      exact; infinities and NaN are not modelled;
    - the uinput device is the list of the [(key_code, value)] pairs it was
      asked to emit, oldest first;
    - GLib's main loop is the finite map of its pending timeout sources. *)

From stdpp Require Import gmap list fin_maps strings.
From Stdlib Require Import QArith Qabs Qround Qminmax Lqa Qpower.

#[local] Set Warnings "-clear-no-such-hyp".

Local Open Scope Z_scope.

(** ** Key codes (python-uinput [KEY_*], numbered as in linux/input-event-codes.h) *)

Module uinput.
Definition KEY_ESC : Z := 1.
Definition KEY_A : Z := 30.
Definition KEY_S : Z := 31.
Definition KEY_LEFTCTRL : Z := 29.
Definition KEY_LEFTSHIFT : Z := 42.
Definition KEY_RIGHTSHIFT : Z := 54.
Definition KEY_LEFTALT : Z := 56.
Definition KEY_SPACE : Z := 57.
Definition KEY_CAPSLOCK : Z := 58.
Definition KEY_RIGHTCTRL : Z := 97.
Definition KEY_RIGHTALT : Z := 100.
Definition KEY_UP : Z := 103.
Definition KEY_LEFT : Z := 105.
Definition KEY_RIGHT : Z := 106.
Definition KEY_DOWN : Z := 108.
Definition KEY_LEFTMETA : Z := 125.
Definition KEY_RIGHTMETA : Z := 126.
End uinput.
Import uinput.

Definition MODIFIER_KEYS : gset Z :=
  {[ KEY_LEFTSHIFT; KEY_RIGHTSHIFT; KEY_LEFTCTRL; KEY_RIGHTCTRL;
     KEY_LEFTALT; KEY_RIGHTALT; KEY_LEFTMETA; KEY_RIGHTMETA ]}.

Definition SHIFT_KEYS : gset Z := {[ KEY_LEFTSHIFT; KEY_RIGHTSHIFT ]}.

Definition MOUSE_TOUCH_ID : Z := -1.

(** ** Dataclasses *)

Record RepeatState := {
  delay_source : option Z;
  repeat_source : option Z
}.

Record ModifierState := {
  pressed : bool;
  latched : bool;
  used_in_combo : bool
}.

(** [ModifierState()]: the dataclass defaults. *)
Definition ModifierState_default : ModifierState :=
  {| pressed := false; latched := false; used_in_combo := false |}.

Record TouchState := {
  key_code : Z;
  press_time : Q
}.

Record SpaceTrackingState := {
  cursor_mode : bool;
  accum_x : Q;
  accum_y : Q;
  last_x : Q;
  last_y : Q;
  last_motion_at : Q;
  long_press_source : option Z
}.

(** ** [KeyboardEngine] *)

Record KeyboardEngine := {
  device : list (Z * Z);
  down_keys : gset Z
}.

Definition set_key_state (key_code : Z) (pressed : bool) (e : KeyboardEngine)
  : KeyboardEngine :=
  let is_down := bool_decide (key_code ∈ down_keys e) in
  if pressed && negb is_down then
    {| device := device e ++ [(key_code, 1)];
       down_keys := down_keys e ∪ {[ key_code ]} |}
  else if negb pressed && is_down then
    {| device := device e ++ [(key_code, 0)];
       down_keys := down_keys e ∖ {[ key_code ]} |}
  else e.

Definition tap_key (key_code : Z) (e : KeyboardEngine) : KeyboardEngine :=
  {| device := device e ++ [(key_code, 1); (key_code, 0)];
     down_keys := down_keys e |}.

(** ** The GLib main loop, as far as the keyboard uses it

    [GLib.timeout_add] registers a source and returns its positive id;
    [GLib.source_remove] drops it.  A source is dispatched by [dispatch]
    below; the callbacks are the bound methods the program registers. *)

Inductive SourceFunc :=
  | cb_repeat_delay_done (touch_id key_code : Z)
  | cb_repeat_tick (touch_id key_code : Z)
  | cb_enter_space_cursor_mode (touch_id : Z)
  | cb_flash_clear (key_code : Z).

Record Source := {
  interval_ms : Z;
  callback : SourceFunc
}.

Record GLibLoop := {
  sources : gmap Z Source;
  next_source_id : Z
}.

Definition timeout_add (interval : Z) (f : SourceFunc) (g : GLibLoop)
  : Z * GLibLoop :=
  (next_source_id g,
   {| sources := <[next_source_id g := {| interval_ms := interval; callback := f |}]>
                   (sources g);
      next_source_id := next_source_id g + 1 |}).

Definition source_remove (id : Z) (g : GLibLoop) : GLibLoop :=
  {| sources := delete id (sources g); next_source_id := next_source_id g |}.

(** ** Python floats

    The finite binary64 numbers are rationals.  [fl q] is the binary64 number
    nearest to [q], ties going to the even significand: 53 significant bits,
    gradual underflow below [2 ^ -1022].  An operation on floats returns the
    exact result rounded by [fl].  Overflow is not modelled: beyond the
    largest binary64 number (about 1.8e308) [fl] keeps rounding to 53 bits
    where Python gives [inf]. *)

(** The nearest integer, ties to even. *)
Definition round_half_even (q : Q) : Z :=
  let f := Qfloor q in
  match Qcompare (q - inject_Z f) (1 # 2) with
  | Lt => f
  | Gt => f + 1
  | Eq => if Z.even f then f else f + 1
  end.

(** [floor(log2(q))] for a positive rational. *)
Definition Qlog2 (q : Q) : Z :=
  let k := Z.log2 (Qnum q) - Z.log2 (Z.pos (Qden q)) in
  if Qle_bool (2 ^ k) q then k else k - 1.

(** The exponent of the unit in the last place of the binary64 numbers of the
    magnitude of [q]. *)
Definition ulp_exponent (q : Q) : Z := Z.max (Qlog2 (Qabs q) - 52) (-1074).

Definition fl (q : Q) : Q :=
  if Qeq_bool q 0 then 0%Q
  else let e := ulp_exponent q in
       Qred (inject_Z (round_half_even (q / 2 ^ e)) * 2 ^ e).

Definition fadd (a b : Q) : Q := fl (a + b).
Definition fsub (a b : Q) : Q := fl (a - b).
Definition fmul (a b : Q) : Q := fl (a * b).
Definition fdiv (a b : Q) : Q := fl (a / b).

(** [float(n)]: the conversion Python applies to an [int] operand of a float
    operation. *)
Definition float_of_int (n : Z) : Q := fl (inject_Z n).

(** ** [Gdk.Rectangle] and comparisons on floats *)

Record Rectangle := {
  rect_x : Z;
  rect_y : Z;
  rect_width : Z;
  rect_height : Z
}.

Definition Qltb (a b : Q) : bool := negb (Qle_bool b a).

(** ** The window object *)

Record QingBoard := {
  touch_states : gmap Z TouchState;
  key_rects : list (Z * Rectangle);
  key_widgets : gmap Z (gset string);
  space_tracking : gmap Z SpaceTrackingState;
  repeat_states : gmap Z RepeatState;
  key_press_count : gmap Z Z;
  engine : KeyboardEngine;
  modifiers : gmap Z ModifierState;
  last_shift_tap_at : Q;
  double_shift_timeout_ms : Z;
  double_shift_shortcut_enabled : bool;
  double_shift_shortcut : list Z;
  capslock_on : bool;
  space_long_press_ms : Z;
  shift_labels : bool;
  caps_indicator : bool;
  glib : GLibLoop
}.

(** Attribute assignment [self.f = v], one setter per attribute the methods
    assign to. *)

Definition set_touch_states (v : gmap Z TouchState) (self : QingBoard) : QingBoard :=
  {| touch_states := v; key_rects := key_rects self;
     key_widgets := key_widgets self; space_tracking := space_tracking self;
     repeat_states := repeat_states self;
     key_press_count := key_press_count self; engine := engine self;
     modifiers := modifiers self; last_shift_tap_at := last_shift_tap_at self;
     double_shift_timeout_ms := double_shift_timeout_ms self;
     double_shift_shortcut_enabled := double_shift_shortcut_enabled self;
     double_shift_shortcut := double_shift_shortcut self;
     capslock_on := capslock_on self;
     space_long_press_ms := space_long_press_ms self;
     shift_labels := shift_labels self; caps_indicator := caps_indicator self;
     glib := glib self |}.

Definition set_key_rects (v : list (Z * Rectangle)) (self : QingBoard) : QingBoard :=
  {| touch_states := touch_states self; key_rects := v;
     key_widgets := key_widgets self; space_tracking := space_tracking self;
     repeat_states := repeat_states self;
     key_press_count := key_press_count self; engine := engine self;
     modifiers := modifiers self; last_shift_tap_at := last_shift_tap_at self;
     double_shift_timeout_ms := double_shift_timeout_ms self;
     double_shift_shortcut_enabled := double_shift_shortcut_enabled self;
     double_shift_shortcut := double_shift_shortcut self;
     capslock_on := capslock_on self;
     space_long_press_ms := space_long_press_ms self;
     shift_labels := shift_labels self; caps_indicator := caps_indicator self;
     glib := glib self |}.

Definition set_key_widgets (v : gmap Z (gset string)) (self : QingBoard) : QingBoard :=
  {| touch_states := touch_states self; key_rects := key_rects self;
     key_widgets := v; space_tracking := space_tracking self;
     repeat_states := repeat_states self;
     key_press_count := key_press_count self; engine := engine self;
     modifiers := modifiers self; last_shift_tap_at := last_shift_tap_at self;
     double_shift_timeout_ms := double_shift_timeout_ms self;
     double_shift_shortcut_enabled := double_shift_shortcut_enabled self;
     double_shift_shortcut := double_shift_shortcut self;
     capslock_on := capslock_on self;
     space_long_press_ms := space_long_press_ms self;
     shift_labels := shift_labels self; caps_indicator := caps_indicator self;
     glib := glib self |}.

Definition set_space_tracking (v : gmap Z SpaceTrackingState) (self : QingBoard) : QingBoard :=
  {| touch_states := touch_states self; key_rects := key_rects self;
     key_widgets := key_widgets self; space_tracking := v;
     repeat_states := repeat_states self;
     key_press_count := key_press_count self; engine := engine self;
     modifiers := modifiers self; last_shift_tap_at := last_shift_tap_at self;
     double_shift_timeout_ms := double_shift_timeout_ms self;
     double_shift_shortcut_enabled := double_shift_shortcut_enabled self;
     double_shift_shortcut := double_shift_shortcut self;
     capslock_on := capslock_on self;
     space_long_press_ms := space_long_press_ms self;
     shift_labels := shift_labels self; caps_indicator := caps_indicator self;
     glib := glib self |}.

Definition set_repeat_states (v : gmap Z RepeatState) (self : QingBoard) : QingBoard :=
  {| touch_states := touch_states self; key_rects := key_rects self;
     key_widgets := key_widgets self; space_tracking := space_tracking self;
     repeat_states := v; key_press_count := key_press_count self;
     engine := engine self; modifiers := modifiers self;
     last_shift_tap_at := last_shift_tap_at self;
     double_shift_timeout_ms := double_shift_timeout_ms self;
     double_shift_shortcut_enabled := double_shift_shortcut_enabled self;
     double_shift_shortcut := double_shift_shortcut self;
     capslock_on := capslock_on self;
     space_long_press_ms := space_long_press_ms self;
     shift_labels := shift_labels self; caps_indicator := caps_indicator self;
     glib := glib self |}.

Definition set_key_press_count (v : gmap Z Z) (self : QingBoard) : QingBoard :=
  {| touch_states := touch_states self; key_rects := key_rects self;
     key_widgets := key_widgets self; space_tracking := space_tracking self;
     repeat_states := repeat_states self; key_press_count := v;
     engine := engine self; modifiers := modifiers self;
     last_shift_tap_at := last_shift_tap_at self;
     double_shift_timeout_ms := double_shift_timeout_ms self;
     double_shift_shortcut_enabled := double_shift_shortcut_enabled self;
     double_shift_shortcut := double_shift_shortcut self;
     capslock_on := capslock_on self;
     space_long_press_ms := space_long_press_ms self;
     shift_labels := shift_labels self; caps_indicator := caps_indicator self;
     glib := glib self |}.

Definition set_engine (v : KeyboardEngine) (self : QingBoard) : QingBoard :=
  {| touch_states := touch_states self; key_rects := key_rects self;
     key_widgets := key_widgets self; space_tracking := space_tracking self;
     repeat_states := repeat_states self;
     key_press_count := key_press_count self; engine := v;
     modifiers := modifiers self; last_shift_tap_at := last_shift_tap_at self;
     double_shift_timeout_ms := double_shift_timeout_ms self;
     double_shift_shortcut_enabled := double_shift_shortcut_enabled self;
     double_shift_shortcut := double_shift_shortcut self;
     capslock_on := capslock_on self;
     space_long_press_ms := space_long_press_ms self;
     shift_labels := shift_labels self; caps_indicator := caps_indicator self;
     glib := glib self |}.

Definition set_modifiers (v : gmap Z ModifierState) (self : QingBoard) : QingBoard :=
  {| touch_states := touch_states self; key_rects := key_rects self;
     key_widgets := key_widgets self; space_tracking := space_tracking self;
     repeat_states := repeat_states self;
     key_press_count := key_press_count self; engine := engine self;
     modifiers := v; last_shift_tap_at := last_shift_tap_at self;
     double_shift_timeout_ms := double_shift_timeout_ms self;
     double_shift_shortcut_enabled := double_shift_shortcut_enabled self;
     double_shift_shortcut := double_shift_shortcut self;
     capslock_on := capslock_on self;
     space_long_press_ms := space_long_press_ms self;
     shift_labels := shift_labels self; caps_indicator := caps_indicator self;
     glib := glib self |}.

Definition set_last_shift_tap_at (v : Q) (self : QingBoard) : QingBoard :=
  {| touch_states := touch_states self; key_rects := key_rects self;
     key_widgets := key_widgets self; space_tracking := space_tracking self;
     repeat_states := repeat_states self;
     key_press_count := key_press_count self; engine := engine self;
     modifiers := modifiers self; last_shift_tap_at := v;
     double_shift_timeout_ms := double_shift_timeout_ms self;
     double_shift_shortcut_enabled := double_shift_shortcut_enabled self;
     double_shift_shortcut := double_shift_shortcut self;
     capslock_on := capslock_on self;
     space_long_press_ms := space_long_press_ms self;
     shift_labels := shift_labels self; caps_indicator := caps_indicator self;
     glib := glib self |}.

Definition set_capslock_on (v : bool) (self : QingBoard) : QingBoard :=
  {| touch_states := touch_states self; key_rects := key_rects self;
     key_widgets := key_widgets self; space_tracking := space_tracking self;
     repeat_states := repeat_states self;
     key_press_count := key_press_count self; engine := engine self;
     modifiers := modifiers self; last_shift_tap_at := last_shift_tap_at self;
     double_shift_timeout_ms := double_shift_timeout_ms self;
     double_shift_shortcut_enabled := double_shift_shortcut_enabled self;
     double_shift_shortcut := double_shift_shortcut self; capslock_on := v;
     space_long_press_ms := space_long_press_ms self;
     shift_labels := shift_labels self; caps_indicator := caps_indicator self;
     glib := glib self |}.

Definition set_shift_labels (v : bool) (self : QingBoard) : QingBoard :=
  {| touch_states := touch_states self; key_rects := key_rects self;
     key_widgets := key_widgets self; space_tracking := space_tracking self;
     repeat_states := repeat_states self;
     key_press_count := key_press_count self; engine := engine self;
     modifiers := modifiers self; last_shift_tap_at := last_shift_tap_at self;
     double_shift_timeout_ms := double_shift_timeout_ms self;
     double_shift_shortcut_enabled := double_shift_shortcut_enabled self;
     double_shift_shortcut := double_shift_shortcut self;
     capslock_on := capslock_on self;
     space_long_press_ms := space_long_press_ms self; shift_labels := v;
     caps_indicator := caps_indicator self; glib := glib self |}.

Definition set_caps_indicator (v : bool) (self : QingBoard) : QingBoard :=
  {| touch_states := touch_states self; key_rects := key_rects self;
     key_widgets := key_widgets self; space_tracking := space_tracking self;
     repeat_states := repeat_states self;
     key_press_count := key_press_count self; engine := engine self;
     modifiers := modifiers self; last_shift_tap_at := last_shift_tap_at self;
     double_shift_timeout_ms := double_shift_timeout_ms self;
     double_shift_shortcut_enabled := double_shift_shortcut_enabled self;
     double_shift_shortcut := double_shift_shortcut self;
     capslock_on := capslock_on self;
     space_long_press_ms := space_long_press_ms self;
     shift_labels := shift_labels self; caps_indicator := v;
     glib := glib self |}.

Definition set_glib (v : GLibLoop) (self : QingBoard) : QingBoard :=
  {| touch_states := touch_states self; key_rects := key_rects self;
     key_widgets := key_widgets self; space_tracking := space_tracking self;
     repeat_states := repeat_states self;
     key_press_count := key_press_count self; engine := engine self;
     modifiers := modifiers self; last_shift_tap_at := last_shift_tap_at self;
     double_shift_timeout_ms := double_shift_timeout_ms self;
     double_shift_shortcut_enabled := double_shift_shortcut_enabled self;
     double_shift_shortcut := double_shift_shortcut self;
     capslock_on := capslock_on self;
     space_long_press_ms := space_long_press_ms self;
     shift_labels := shift_labels self; caps_indicator := caps_indicator self;
     glib := v |}.
(** ** Helpers for Python control flow *)

(** [for x in l: body] where the body may raise: left to right, stopping at
    the first exception. *)
Fixpoint for_each {A S : Type} (body : A → S → option S) (l : list A) (s : S)
  : option S :=
  match l with
  | [] => Some s
  | x :: l' => s' ← body x s; for_each body l' s'
  end.

(** ** Visual feedback *)

Definition add_class (c : string) (style : gset string) : gset string :=
  style ∪ {[ c ]}.
Definition remove_class (c : string) (style : gset string) : gset string :=
  style ∖ {[ c ]}.

(** [self.key_widgets[k]] is a label whose style context is the set of its
    CSS classes.  [self.modifier_labels] holds the same label objects for the
    keys of [MODIFIER_KEYS] (see [_build_keyboard]), so painting a modifier
    and updating a key's visual state act on one shared style context. *)
Definition modifier_labels_get (key_code : Z) (self : QingBoard)
  : option (gset string) :=
  if decide (key_code ∈ MODIFIER_KEYS) then key_widgets self !! key_code
  else None.

Definition _update_visual (key_code : Z) (pressed : bool) (self : QingBoard)
  : QingBoard :=
  match key_widgets self !! key_code with
  | Some _ =>
      set_key_widgets
        (alter (if pressed then add_class "pressed" else remove_class "pressed")
               key_code (key_widgets self)) self
  | None => self
  end.

Definition _flash_regular_key (key_code : Z) (self : QingBoard) : QingBoard :=
  let self := _update_visual key_code true self in
  let '(_, g) := timeout_add 110 (cb_flash_clear key_code) (glib self) in
  set_glib g self.

Definition _paint_modifier (key_code : Z) (active : bool) (self : QingBoard)
  : QingBoard :=
  match modifier_labels_get key_code self with
  | Some _ =>
      set_key_widgets
        (alter (if active then add_class "pressed" else remove_class "pressed")
               key_code (key_widgets self)) self
  | None => self
  end.

(** [any(self.modifiers[k].pressed or self.modifiers[k].latched for k in keys)]:
    short-circuits at the first active key. *)
Fixpoint any_active (keys : list Z) (mods : gmap Z ModifierState) : option bool :=
  match keys with
  | [] => Some false
  | k :: keys' =>
      s ← mods !! k;
      if pressed s || latched s then Some true else any_active keys' mods
  end.

(** The labels of the keys of [SYMBOL_LABELS] show the shifted symbol iff
    [shift_labels] holds; the label texts themselves are not modelled. *)
Definition _update_shift_labels (self : QingBoard) : option QingBoard :=
  shift_active ← any_active (elements SHIFT_KEYS) (modifiers self);
  Some (set_shift_labels shift_active self).

(** The space label gets the class [cursor-mode] (and the arrows in its
    text) while [active]. *)
Definition _set_space_cursor_visual (touch_id : Z) (active : bool)
    (self : QingBoard) : QingBoard :=
  match key_widgets self !! KEY_SPACE with
  | None => self
  | Some _ =>
      set_key_widgets
        (alter (if active then add_class "cursor-mode"
                else remove_class "cursor-mode")
               KEY_SPACE (key_widgets self)) self
  end.

Definition _update_caps_indicator (self : QingBoard) : QingBoard :=
  set_caps_indicator (capslock_on self) self.

(** ** Modifier key logic *)

Definition set_pressed (v : bool) (s : ModifierState) : ModifierState :=
  {| pressed := v; latched := latched s; used_in_combo := used_in_combo s |}.
Definition set_latched (v : bool) (s : ModifierState) : ModifierState :=
  {| pressed := pressed s; latched := v; used_in_combo := used_in_combo s |}.
Definition set_used_in_combo (v : bool) (s : ModifierState) : ModifierState :=
  {| pressed := pressed s; latched := latched s; used_in_combo := v |}.

(** [state = self.modifiers[key_code]] followed by assignments to [state]'s
    attributes mutates the object stored in the dictionary. *)
Definition update_modifier (key_code : Z) (s : ModifierState) (self : QingBoard)
  : QingBoard :=
  set_modifiers (<[key_code := s]> (modifiers self)) self.

Definition engine_set_key_state (key_code : Z) (pressed : bool)
    (self : QingBoard) : QingBoard :=
  set_engine (set_key_state key_code pressed (engine self)) self.

Definition engine_tap_key (key_code : Z) (self : QingBoard) : QingBoard :=
  set_engine (tap_key key_code (engine self)) self.

Definition _force_release_modifier (key_code : Z) (self : QingBoard)
  : option QingBoard :=
  state ← modifiers self !! key_code;
  let state := set_pressed false state in
  let state := set_latched false state in
  let state := set_used_in_combo false state in
  let self := update_modifier key_code state self in
  let self := engine_set_key_state key_code false self in
  Some (_paint_modifier key_code false self).

Definition _on_modifier_press_global (key_code : Z) (self : QingBoard)
  : option QingBoard :=
  state ← modifiers self !! key_code;
  let state := set_pressed true state in
  let state := set_used_in_combo false state in
  let self := update_modifier key_code state self in
  self ← (if decide (key_code ∈ SHIFT_KEYS) then
            let opposite :=
              if decide (key_code = KEY_LEFTSHIFT) then KEY_RIGHTSHIFT
              else KEY_LEFTSHIFT in
            _force_release_modifier opposite self
          else Some self);
  let self := engine_set_key_state key_code true self in
  Some (_paint_modifier key_code true self).

Definition _on_modifier_press_touch (touch_id key_code : Z) (self : QingBoard)
  : option QingBoard :=
  state ← modifiers self !! key_code;
  if negb (pressed state) then _on_modifier_press_global key_code self
  else Some self.

Definition _emit_shortcut (combo : list Z) (e : KeyboardEngine) : KeyboardEngine :=
  let mods := filter (λ code, code ∈ MODIFIER_KEYS) combo in
  let normals := filter (λ code, code ∉ MODIFIER_KEYS) combo in
  let e := foldl (λ e key, set_key_state key true e) e mods in
  let e :=
    match normals with
    | _ :: _ => foldl (λ e key, tap_key key e) e normals
    | [] => foldl (λ e key, tap_key key e) e mods
    end in
  foldl (λ e key, set_key_state key false e) e (reverse mods).

(** [now] is the value [time.monotonic()] returns in this call. *)
Definition double_tap_hit (now : Q) (self : QingBoard) : bool :=
  let elapsed_ms := fmul (fsub now (last_shift_tap_at self)) 1000 in
  Qltb 0 (last_shift_tap_at self)
  && Qle_bool elapsed_ms (inject_Z (double_shift_timeout_ms self)).

Definition _handle_shift_double_tap (now : Q) (self : QingBoard)
  : option QingBoard :=
  if negb (double_shift_shortcut_enabled self) then
    Some (set_last_shift_tap_at 0%Q self)
  else if double_tap_hit now self then
    self ← for_each _force_release_modifier (elements SHIFT_KEYS) self;
    let self := set_engine (_emit_shortcut (double_shift_shortcut self)
                                           (engine self)) self in
    Some (set_last_shift_tap_at 0%Q self)
  else Some (set_last_shift_tap_at now self).

Definition _on_modifier_release_global (key_code : Z) (now : Q)
    (self : QingBoard) : option QingBoard :=
  state ← modifiers self !! key_code;
  let state := set_pressed false state in
  let self := update_modifier key_code state self in
  if used_in_combo state then
    let self :=
      if negb (latched state) then
        _paint_modifier key_code false (engine_set_key_state key_code false self)
      else self in
    Some (update_modifier key_code (set_used_in_combo false state) self)
  else
    let self :=
      if latched state then
        let self := update_modifier key_code (set_latched false state) self in
        _paint_modifier key_code false (engine_set_key_state key_code false self)
      else
        let self := update_modifier key_code (set_latched true state) self in
        _paint_modifier key_code true self in
    if decide (key_code ∈ SHIFT_KEYS) then _handle_shift_double_tap now self
    else Some self.

Definition _release_one_shot_modifiers (self : QingBoard) : QingBoard :=
  foldl (λ self '(key_code, state),
           if latched state && negb (pressed state) then
             let self := update_modifier key_code (set_latched false state) self in
             _paint_modifier key_code false
               (engine_set_key_state key_code false self)
           else self)
        self (map_to_list (modifiers self)).

(** ** Key repeat *)

Definition glib_source_remove (id : Z) (self : QingBoard) : QingBoard :=
  set_glib (source_remove id (glib self)) self.

(** [if src: GLib.source_remove(src)] for an [Optional[int]]: [None] and [0]
    are false. *)
Definition source_remove_if (src : option Z) (self : QingBoard) : QingBoard :=
  match src with
  | Some id => if id =? 0 then self else glib_source_remove id self
  | None => self
  end.

Definition _cancel_repeat (touch_id : Z) (self : QingBoard) : QingBoard :=
  match repeat_states self !! touch_id with
  | None => self
  | Some state =>
      let self := set_repeat_states (delete touch_id (repeat_states self)) self in
      let self := source_remove_if (delay_source state) self in
      source_remove_if (repeat_source state) self
  end.

Definition _start_repeat (touch_id key_code : Z) (self : QingBoard) : QingBoard :=
  if bool_decide (key_code ∈ MODIFIER_KEYS) || bool_decide (key_code = KEY_SPACE)
  then self
  else
    let self := _cancel_repeat touch_id self in
    let '(id, g) := timeout_add 420 (cb_repeat_delay_done touch_id key_code)
                                (glib self) in
    let self := set_glib g self in
    let state := {| delay_source := Some id; repeat_source := None |} in
    set_repeat_states (<[touch_id := state]> (repeat_states self)) self.

(** [touch_id not in self.touch_states or
     self.touch_states[touch_id].key_code != key_code] *)
Definition touch_lost (touch_id key : Z) (self : QingBoard) : bool :=
  match touch_states self !! touch_id with
  | None => true
  | Some state => negb (bool_decide (key_code state = key))
  end.

(** Timer callbacks return the state and the boolean GLib uses to decide
    whether the source stays installed. *)
Definition _repeat_delay_done (touch_id key_code : Z) (self : QingBoard)
  : bool * QingBoard :=
  if touch_lost touch_id key_code self then (false, self)
  else
    match repeat_states self !! touch_id with
    | None => (false, self)
    | Some state =>
        let '(id, g) := timeout_add 70 (cb_repeat_tick touch_id key_code)
                                    (glib self) in
        let self := set_glib g self in
        let state := {| delay_source := None; repeat_source := Some id |} in
        (false, set_repeat_states (<[touch_id := state]> (repeat_states self)) self)
    end.

Definition _repeat_tick (touch_id key_code : Z) (self : QingBoard)
  : bool * QingBoard :=
  if touch_lost touch_id key_code self then (false, _cancel_repeat touch_id self)
  else (true, engine_tap_key key_code self).

Definition _stop_all_other_repeats (current_key current_touch : Z)
    (self : QingBoard) : QingBoard :=
  foldl (λ self '(tid, state),
           if bool_decide (tid ≠ current_touch)
              && bool_decide (key_code state ∉ MODIFIER_KEYS)
              && bool_decide (key_code state ≠ KEY_SPACE)
           then _cancel_repeat tid self
           else self)
        self (map_to_list (touch_states self)).

(** ** Space dragging (cursor mode) *)

Definition SpaceTrackingState_default : SpaceTrackingState :=
  {| cursor_mode := false; accum_x := 0; accum_y := 0; last_x := 0;
     last_y := 0; last_motion_at := 0; long_press_source := None |}.

Definition set_long_press_source (v : option Z) (t : SpaceTrackingState)
  : SpaceTrackingState :=
  {| cursor_mode := cursor_mode t; accum_x := accum_x t; accum_y := accum_y t;
     last_x := last_x t; last_y := last_y t; last_motion_at := last_motion_at t;
     long_press_source := v |}.

Definition set_cursor_mode (v : bool) (t : SpaceTrackingState)
  : SpaceTrackingState :=
  {| cursor_mode := v; accum_x := accum_x t; accum_y := accum_y t;
     last_x := last_x t; last_y := last_y t; last_motion_at := last_motion_at t;
     long_press_source := long_press_source t |}.

Definition _cancel_space_long_press (touch_id : Z) (self : QingBoard) : QingBoard :=
  match space_tracking self !! touch_id with
  | Some tracking =>
      match long_press_source tracking with
      | Some id =>
          let self := glib_source_remove id self in
          set_space_tracking
            (<[touch_id := set_long_press_source None tracking]>
               (space_tracking self)) self
      | None => self
      end
  | None => self
  end.

Definition _begin_space_tracking (touch_id : Z) (self : QingBoard) : QingBoard :=
  let self := _cancel_space_long_press touch_id self in
  let tracking := SpaceTrackingState_default in
  let '(id, g) := timeout_add (space_long_press_ms self)
                              (cb_enter_space_cursor_mode touch_id) (glib self) in
  let self := set_glib g self in
  let tracking := set_long_press_source (Some id) tracking in
  set_space_tracking (<[touch_id := tracking]> (space_tracking self)) self.

Definition _finish_space_tracking (touch_id : Z) (self : QingBoard) : QingBoard :=
  match space_tracking self !! touch_id with
  | None => engine_tap_key KEY_SPACE self
  | Some tracking =>
      let self := set_space_tracking (delete touch_id (space_tracking self)) self in
      let self := _cancel_space_long_press touch_id self in
      if negb (cursor_mode tracking) then engine_tap_key KEY_SPACE self
      else self
  end.

Definition _enter_space_cursor_mode (touch_id : Z) (self : QingBoard)
  : bool * QingBoard :=
  if touch_lost touch_id KEY_SPACE self then (false, self)
  else
    match space_tracking self !! touch_id with
    | None => (false, self)
    | Some tracking =>
        let self :=
          set_space_tracking
            (<[touch_id := set_cursor_mode true tracking]> (space_tracking self))
            self in
        (false, _set_space_cursor_visual touch_id true self)
    end.

(** [int(x)] on a float truncates towards zero. *)
Definition py_int (x : Q) : Z :=
  if Qle_bool 0 x then Qfloor x else Qceiling x.

(** [for _ in range(steps): self.engine.tap_key(key)] *)
Definition tap_times (steps : Z) (key : Z) (e : KeyboardEngine) : KeyboardEngine :=
  Nat.iter (Z.to_nat steps) (tap_key key) e.

Definition set_accum (ax ay : Q) (t : SpaceTrackingState) : SpaceTrackingState :=
  {| cursor_mode := cursor_mode t; accum_x := ax; accum_y := ay;
     last_x := last_x t; last_y := last_y t; last_motion_at := last_motion_at t;
     long_press_source := long_press_source t |}.

Definition set_last (x y at_ : Q) (t : SpaceTrackingState) : SpaceTrackingState :=
  {| cursor_mode := cursor_mode t; accum_x := accum_x t; accum_y := accum_y t;
     last_x := x; last_y := y; last_motion_at := at_;
     long_press_source := long_press_source t |}.

(** The division raises [ZeroDivisionError] for a zero threshold: [None]. *)
Definition _emit_cursor_moves (tracking : SpaceTrackingState) (step_threshold : Q)
    (e : KeyboardEngine) : option (SpaceTrackingState * KeyboardEngine) :=
  if Qeq_bool step_threshold 0 then None
  else if Qle_bool (Qabs (accum_y tracking)) (Qabs (accum_x tracking)) then
    let steps := py_int (fdiv (Qabs (accum_x tracking)) step_threshold) in
    if 0 <? steps then
      let key := if Qltb 0 (accum_x tracking) then KEY_RIGHT else KEY_LEFT in
      let e := tap_times steps key e in
      let consumed :=
        if Qltb 0 (accum_x tracking) then fmul step_threshold (float_of_int steps)
        else fmul (- step_threshold) (float_of_int steps) in
      Some (set_accum (fsub (accum_x tracking) consumed) 0 tracking, e)
    else Some (tracking, e)
  else
    let steps := py_int (fdiv (Qabs (accum_y tracking)) step_threshold) in
    if 0 <? steps then
      let key := if Qltb 0 (accum_y tracking) then KEY_DOWN else KEY_UP in
      let e := tap_times steps key e in
      let consumed :=
        if Qltb 0 (accum_y tracking) then fmul step_threshold (float_of_int steps)
        else fmul (- step_threshold) (float_of_int steps) in
      Some (set_accum 0 (fsub (accum_y tracking) consumed) tracking, e)
    else Some (tracking, e).

(** [max(8.0, 28.0 - min(speed / 120.0, 16.0))] *)
Definition step_threshold_of (speed : Q) : Q :=
  Qmax 8 (fsub 28 (Qmin (fdiv speed 120) 16)).

(** [event_time / 1000.0] *)
Definition event_seconds (event_time : Z) : Q :=
  fdiv (float_of_int event_time) 1000.

Section Events.

(** [x ** 0.5] on floats.  The development is parametric in it and assumes,
    where it matters, only that its result is not negative. *)
Variable pow_half : Q → Q.

(** The displacement, elapsed time and speed of a motion sample at [(x, y)]
    with timestamp [event_time] (milliseconds); [0.001] is the binary64
    number the literal denotes. *)
Definition sample_dt (tracking : SpaceTrackingState) (event_time : Z) : Q :=
  Qmax (fsub (event_seconds event_time) (last_motion_at tracking)) (fl (1 # 1000)).

Definition sample_speed (tracking : SpaceTrackingState) (x y : Q) (event_time : Z)
  : Q :=
  let dx := fsub x (last_x tracking) in
  let dy := fsub y (last_y tracking) in
  fdiv (pow_half (fadd (fmul dx dx) (fmul dy dy))) (sample_dt tracking event_time).

(** The body of [_on_space_motion_touch] once the tracking record of the
    touch is at hand and in cursor mode: it updates the record and taps arrow
    keys on the engine. *)
Definition space_motion_sample (tracking : SpaceTrackingState) (x y : Q)
    (event_time : Z) (e : KeyboardEngine)
  : option (SpaceTrackingState * KeyboardEngine) :=
  if Qeq_bool (last_motion_at tracking) 0 then
    Some (set_last x y (event_seconds event_time) tracking, e)
  else
    let dx := fsub x (last_x tracking) in
    let dy := fsub y (last_y tracking) in
    let speed := sample_speed tracking x y event_time in
    let tracking := set_last x y (event_seconds event_time) tracking in
    let tracking := set_accum (fadd (accum_x tracking) dx) (fadd (accum_y tracking) dy)
                              tracking in
    let step_threshold := step_threshold_of speed in
    _emit_cursor_moves tracking step_threshold e.

Definition _on_space_motion_touch (touch_id : Z) (x y : Q) (event_time : Z)
    (self : QingBoard) : option QingBoard :=
  match space_tracking self !! touch_id with
  | None => Some self
  | Some tracking =>
      if negb (cursor_mode tracking) then Some self
      else
        '(tracking, e) ← space_motion_sample tracking x y event_time (engine self);
        let self := set_engine e self in
        Some (set_space_tracking (<[touch_id := tracking]> (space_tracking self))
                                 self)
  end.

(** ** Touch event handling *)

Fixpoint find_rect (rects : list (Z * Rectangle)) (x y : Q) : option Z :=
  match rects with
  | [] => None
  | (key_code, rect) :: rects' =>
      if Qle_bool (inject_Z (rect_x rect)) x
         && Qle_bool x (inject_Z (rect_x rect + rect_width rect))
         && Qle_bool (inject_Z (rect_y rect)) y
         && Qle_bool y (inject_Z (rect_y rect + rect_height rect))
      then Some key_code
      else find_rect rects' x y
  end.

Definition _find_key_at (x y : Q) (self : QingBoard) : option Z :=
  find_rect (key_rects self) x y.

(** [for mod_state in self.modifiers.values():
       if mod_state.pressed: mod_state.used_in_combo = True] *)
Definition mark_used_in_combo (self : QingBoard) : QingBoard :=
  set_modifiers
    ((λ s, if pressed s then set_used_in_combo true s else s) <$> modifiers self)
    self.

(** [any(s.key_code == key_code
         for tid, s in self.touch_states.items() if tid != touch_id)] *)
Definition still_pressed (touch_id key : Z) (self : QingBoard) : bool :=
  existsb (λ '(tid, s), bool_decide (tid ≠ touch_id)
                        && bool_decide (key_code s = key))
          (map_to_list (touch_states self)).

Definition _on_modifier_release_touch (touch_id key_code : Z) (now : Q)
    (self : QingBoard) : option QingBoard :=
  if negb (still_pressed touch_id key_code self)
  then _on_modifier_release_global key_code now self
  else Some self.

(** [now] is the reading of [time.monotonic()] while the handler runs. *)
Definition _on_input_end (touch_id : Z) (event_time : Z) (now : Q)
    (self : QingBoard) : option QingBoard :=
  match touch_states self !! touch_id with
  | None => Some self
  | Some state =>
      let self := set_touch_states (delete touch_id (touch_states self)) self in
      let key_code := key_code state in
      let count := default 0 (key_press_count self !! key_code) in
      let new_count := if 0 <? count then count - 1 else 0 in
      let self :=
        if 0 <? count
        then set_key_press_count (<[key_code := new_count]> (key_press_count self))
                                 self
        else self in
      if bool_decide (key_code = KEY_CAPSLOCK) then Some self
      else if bool_decide (key_code ∈ MODIFIER_KEYS) then
        _on_modifier_release_touch touch_id key_code now self
      else if bool_decide (key_code = KEY_SPACE) then
        let self := _finish_space_tracking touch_id self in
        let self := _release_one_shot_modifiers self in
        self ← _update_shift_labels self;
        Some (_update_visual key_code false self)
      else
        let self := _cancel_repeat touch_id self in
        let self := _release_one_shot_modifiers self in
        self ← _update_shift_labels self;
        Some (if new_count =? 0 then _update_visual key_code false self else self)
  end.

Definition _on_input_begin (touch_id : Z) (x y : Q) (event_time : Z) (now : Q)
    (self : QingBoard) : option QingBoard :=
  self ← (if bool_decide (touch_id ∈ dom (touch_states self))
          then _on_input_end touch_id event_time now self
          else Some self);
  match _find_key_at x y self with
  | None => Some self
  | Some key_code =>
      let state := {| key_code := key_code; press_time := now |} in
      let self := set_touch_states (<[touch_id := state]> (touch_states self))
                                   self in
      let self :=
        set_key_press_count
          (<[key_code := default 0 (key_press_count self !! key_code) + 1]>
             (key_press_count self)) self in
      if bool_decide (key_code = KEY_CAPSLOCK) then
        let self := set_capslock_on (negb (capslock_on self)) self in
        let self := engine_tap_key KEY_CAPSLOCK self in
        let self := _update_caps_indicator self in
        Some (_flash_regular_key key_code self)
      else if bool_decide (key_code ∈ MODIFIER_KEYS) then
        self ← _on_modifier_press_touch touch_id key_code self;
        _update_shift_labels self
      else if bool_decide (key_code = KEY_SPACE) then
        let self := mark_used_in_combo self in
        let self := _begin_space_tracking touch_id self in
        Some (_update_visual key_code true self)
      else
        let self := mark_used_in_combo self in
        let self := _stop_all_other_repeats key_code touch_id self in
        let self := engine_tap_key key_code self in
        let self := _start_repeat touch_id key_code self in
        Some (if default 0 (key_press_count self !! key_code) =? 1
              then _update_visual key_code true self else self)
  end.

Definition _on_input_update (touch_id : Z) (x y : Q) (event_time : Z)
    (self : QingBoard) : option QingBoard :=
  match touch_states self !! touch_id with
  | None => Some self
  | Some state =>
      if bool_decide (key_code state = KEY_SPACE)
      then _on_space_motion_touch touch_id x y event_time self
      else Some self
  end.

Inductive EventType :=
  | BUTTON_PRESS | BUTTON_RELEASE | TOUCH_BEGIN | TOUCH_END | TOUCH_UPDATE
  | MOTION_NOTIFY | OTHER_EVENT.

(** A [Gdk.Event]: its type, [get_coords()] (window coordinates, or nothing),
    its touch [sequence] and its timestamp in milliseconds. *)
Record Event := {
  event_type : EventType;
  event_coords : option (Q * Q);
  event_sequence : option Z;
  event_time : Z
}.

Definition is_touch_event (t : EventType) : bool :=
  match t with TOUCH_BEGIN | TOUCH_END | TOUCH_UPDATE => true | _ => false end.

(** The result pairs the handler's return value (event consumed) with the
    window state. *)
Definition on_window_event (event : Event) (now : Q) (self : QingBoard)
  : option (bool * QingBoard) :=
  match event_type event with
  | OTHER_EVENT => Some (false, self)
  | etype =>
      match event_coords event with
      | None => Some (false, self)
      | Some (win_x, win_y) =>
          let touch_id :=
            if is_touch_event etype then default 0 (event_sequence event)
            else MOUSE_TOUCH_ID in
          match etype with
          | BUTTON_PRESS | TOUCH_BEGIN =>
              match _find_key_at win_x win_y self with
              | None => Some (false, self)
              | Some _ =>
                  self ← _on_input_begin touch_id win_x win_y (event_time event)
                                         now self;
                  self ← _update_shift_labels self;
                  Some (true, self)
              end
          | BUTTON_RELEASE | TOUCH_END =>
              if bool_decide (touch_id ∈ dom (touch_states self)) then
                self ← _on_input_end touch_id (event_time event) now self;
                self ← _update_shift_labels self;
                Some (true, self)
              else Some (false, self)
          | _ =>
              if bool_decide (touch_id ∈ dom (touch_states self)) then
                self ← _on_input_update touch_id win_x win_y (event_time event)
                                        self;
                Some (true, self)
              else Some (false, self)
          end
      end
  end.

(** ** Timer dispatch and window geometry *)

Definition run_callback (f : SourceFunc) (self : QingBoard) : bool * QingBoard :=
  match f with
  | cb_repeat_delay_done touch_id key_code => _repeat_delay_done touch_id key_code self
  | cb_repeat_tick touch_id key_code => _repeat_tick touch_id key_code self
  | cb_enter_space_cursor_mode touch_id => _enter_space_cursor_mode touch_id self
  | cb_flash_clear key_code => (false, _update_visual key_code false self)
  end.

(** GLib runs the callback of a pending source and destroys the source when
    the callback returns [False]. *)
Definition dispatch (id : Z) (self : QingBoard) : QingBoard :=
  match sources (glib self) !! id with
  | None => self
  | Some src =>
      let '(continue, self) := run_callback (callback src) self in
      if continue then self else glib_source_remove id self
  end.

(** [_update_key_rects]: [geometry k] is the rectangle GTK reports for the
    label of key [k], if it can be translated to window coordinates. *)
Definition _update_key_rects (geometry : Z → option Rectangle) (self : QingBoard)
  : QingBoard :=
  set_key_rects
    (omap (λ '(key_code, _), pair key_code <$> geometry key_code)
          (map_to_list (key_widgets self))) self.

(** ** Construction and runs of the program *)

(** The key codes of [DEFAULT_LAYOUT], row by row. *)
Definition LAYOUT_KEYS : list Z :=
  [41; 2; 3; 4; 5; 6; 7; 8; 9; 10; 11; 12; 13; 14;
   15; 16; 17; 18; 19; 20; 21; 22; 23; 24; 25; 26; 27; 43;
   KEY_CAPSLOCK; KEY_A; KEY_S; 32; 33; 34; 35; 36; 37; 38; 39; 40; 28;
   KEY_LEFTSHIFT; 44; 45; 46; 47; 48; 49; 50; 51; 52; 53; KEY_RIGHTSHIFT; KEY_UP;
   KEY_LEFTCTRL; KEY_LEFTMETA; KEY_LEFTALT; KEY_SPACE; KEY_RIGHTALT;
   KEY_RIGHTMETA; KEY_RIGHTCTRL; KEY_LEFT; KEY_RIGHT; KEY_DOWN].

(** [QingBoard.__init__]; the three arguments are what [_load_settings] reads
    from the configuration file. *)
Definition init (enabled : bool) (shortcut : list Z) (capslock : bool) : QingBoard :=
  {| touch_states := ∅;
     key_rects := [];
     key_widgets := list_to_map ((λ k, (k, {[ "key-button" ]})) <$> LAYOUT_KEYS);
     space_tracking := ∅;
     repeat_states := ∅;
     key_press_count := ∅;
     engine := {| device := []; down_keys := ∅ |};
     modifiers := gset_to_gmap ModifierState_default MODIFIER_KEYS;
     last_shift_tap_at := 0;
     double_shift_timeout_ms := 380;
     double_shift_shortcut_enabled := enabled;
     double_shift_shortcut := shortcut;
     capslock_on := capslock;
     space_long_press_ms := 300;
     shift_labels := false;
     caps_indicator := capslock;
     glib := {| sources := ∅; next_source_id := 1 |} |}.

Inductive Input :=
  | WindowEvent (event : Event) (now : Q)
  | Timeout (id : Z)
  | SizeAllocate (geometry : Z → option Rectangle).

Definition handle (i : Input) (self : QingBoard) : option QingBoard :=
  match i with
  | WindowEvent event now => snd <$> on_window_event event now self
  | Timeout id => Some (dispatch id self)
  | SizeAllocate geometry => Some (_update_key_rects geometry self)
  end.

Inductive reachable : QingBoard → Prop :=
  | reachable_init enabled shortcut capslock :
      reachable (init enabled shortcut capslock)
  | reachable_step self i self' :
      reachable self → handle i self = Some self' → reachable self'.

End Events.

(** * MutterBoard ([src/mutterboard.py])

    The older keyboard: every key is a [Gtk.Button] whose [pressed],
    [released] and [leave-notify-event] signals call [on_button_press],
    [on_button_release] and [on_button_leave] with the key code.  Its
    [RepeatState], [ModifierState] and [KeyboardEngine] are those of
    [qingboard.py], and so are [MODIFIER_KEYS], [SHIFT_KEYS], the layout and
    [_emit_shortcut]; there are no contacts, no space tracking and no special
    case for CapsLock, and repeat records are kept per key code. *)

Module MutterBoard.

(** The callbacks the program registers with [GLib.timeout_add]. *)
Inductive SourceFunc :=
  | cb_repeat_delay_done (key_code : Z)
  | cb_repeat_tick (key_code : Z).

Record Source := {
  interval_ms : Z;
  callback : SourceFunc
}.

Record GLibLoop := {
  sources : gmap Z Source;
  next_source_id : Z
}.

Definition timeout_add (interval : Z) (f : SourceFunc) (g : GLibLoop)
  : Z * GLibLoop :=
  (next_source_id g,
   {| sources := <[next_source_id g := {| interval_ms := interval; callback := f |}]>
                   (sources g);
      next_source_id := next_source_id g + 1 |}).

Definition source_remove (id : Z) (g : GLibLoop) : GLibLoop :=
  {| sources := delete id (sources g); next_source_id := next_source_id g |}.

(** The window object.  [buttons] holds the style classes of the button of
    each key of the layout ([modifier_buttons] are its entries at the
    modifier keys); [shift_labels] tells whether the buttons of
    [SYMBOL_LABELS] show the shifted symbol. *)
Record MutterBoard := {
  engine : KeyboardEngine;
  modifiers : gmap Z ModifierState;
  buttons : gmap Z (gset string);
  shift_labels : bool;
  repeat_states : gmap Z RepeatState;
  active_keys : gset Z;
  last_shift_tap_at : Q;
  double_shift_timeout_ms : Z;
  double_shift_shortcut : list Z;
  glib : GLibLoop
}.

Definition set_engine (v : KeyboardEngine) (self : MutterBoard) : MutterBoard :=
  {| engine := v; modifiers := modifiers self; buttons := buttons self;
     shift_labels := shift_labels self; repeat_states := repeat_states self;
     active_keys := active_keys self; last_shift_tap_at := last_shift_tap_at self;
     double_shift_timeout_ms := double_shift_timeout_ms self;
     double_shift_shortcut := double_shift_shortcut self; glib := glib self |}.

Definition set_modifiers (v : gmap Z ModifierState) (self : MutterBoard) : MutterBoard :=
  {| engine := engine self; modifiers := v; buttons := buttons self;
     shift_labels := shift_labels self; repeat_states := repeat_states self;
     active_keys := active_keys self; last_shift_tap_at := last_shift_tap_at self;
     double_shift_timeout_ms := double_shift_timeout_ms self;
     double_shift_shortcut := double_shift_shortcut self; glib := glib self |}.

Definition set_buttons (v : gmap Z (gset string)) (self : MutterBoard) : MutterBoard :=
  {| engine := engine self; modifiers := modifiers self; buttons := v;
     shift_labels := shift_labels self; repeat_states := repeat_states self;
     active_keys := active_keys self; last_shift_tap_at := last_shift_tap_at self;
     double_shift_timeout_ms := double_shift_timeout_ms self;
     double_shift_shortcut := double_shift_shortcut self; glib := glib self |}.

Definition set_shift_labels (v : bool) (self : MutterBoard) : MutterBoard :=
  {| engine := engine self; modifiers := modifiers self; buttons := buttons self;
     shift_labels := v; repeat_states := repeat_states self;
     active_keys := active_keys self; last_shift_tap_at := last_shift_tap_at self;
     double_shift_timeout_ms := double_shift_timeout_ms self;
     double_shift_shortcut := double_shift_shortcut self; glib := glib self |}.

Definition set_repeat_states (v : gmap Z RepeatState) (self : MutterBoard) : MutterBoard :=
  {| engine := engine self; modifiers := modifiers self; buttons := buttons self;
     shift_labels := shift_labels self; repeat_states := v;
     active_keys := active_keys self; last_shift_tap_at := last_shift_tap_at self;
     double_shift_timeout_ms := double_shift_timeout_ms self;
     double_shift_shortcut := double_shift_shortcut self; glib := glib self |}.

Definition set_active_keys (v : gset Z) (self : MutterBoard) : MutterBoard :=
  {| engine := engine self; modifiers := modifiers self; buttons := buttons self;
     shift_labels := shift_labels self; repeat_states := repeat_states self;
     active_keys := v; last_shift_tap_at := last_shift_tap_at self;
     double_shift_timeout_ms := double_shift_timeout_ms self;
     double_shift_shortcut := double_shift_shortcut self; glib := glib self |}.

Definition set_last_shift_tap_at (v : Q) (self : MutterBoard) : MutterBoard :=
  {| engine := engine self; modifiers := modifiers self; buttons := buttons self;
     shift_labels := shift_labels self; repeat_states := repeat_states self;
     active_keys := active_keys self; last_shift_tap_at := v;
     double_shift_timeout_ms := double_shift_timeout_ms self;
     double_shift_shortcut := double_shift_shortcut self; glib := glib self |}.

Definition set_glib (v : GLibLoop) (self : MutterBoard) : MutterBoard :=
  {| engine := engine self; modifiers := modifiers self; buttons := buttons self;
     shift_labels := shift_labels self; repeat_states := repeat_states self;
     active_keys := active_keys self; last_shift_tap_at := last_shift_tap_at self;
     double_shift_timeout_ms := double_shift_timeout_ms self;
     double_shift_shortcut := double_shift_shortcut self; glib := v |}.

(** *** Painting *)

(** [_paint_pressed(button, active)] for the button of [key_code]. *)
Definition _paint_pressed (key_code : Z) (active : bool) (self : MutterBoard)
  : MutterBoard :=
  set_buttons
    (alter (if active then add_class "pressed" else remove_class "pressed")
           key_code (buttons self)) self.

(** [self.modifier_buttons.get(key_code)] *)
Definition modifier_buttons_get (key_code : Z) (self : MutterBoard)
  : option (gset string) :=
  if decide (key_code ∈ MODIFIER_KEYS) then buttons self !! key_code else None.

Definition _paint_modifier (key_code : Z) (active : bool) (self : MutterBoard)
  : MutterBoard :=
  match modifier_buttons_get key_code self with
  | Some _ => _paint_pressed key_code active self
  | None => self
  end.

Definition _update_shift_labels (self : MutterBoard) : option MutterBoard :=
  shift_active ← any_active (elements SHIFT_KEYS) (modifiers self);
  Some (set_shift_labels shift_active self).

(** *** Modifier keys *)

Definition update_modifier (key_code : Z) (s : ModifierState) (self : MutterBoard)
  : MutterBoard :=
  set_modifiers (<[key_code := s]> (modifiers self)) self.

Definition engine_set_key_state (key_code : Z) (pressed : bool)
    (self : MutterBoard) : MutterBoard :=
  set_engine (set_key_state key_code pressed (engine self)) self.

Definition _force_release_modifier (key_code : Z) (self : MutterBoard)
  : option MutterBoard :=
  state ← modifiers self !! key_code;
  let state := set_pressed false state in
  let state := set_latched false state in
  let state := set_used_in_combo false state in
  let self := update_modifier key_code state self in
  let self := engine_set_key_state key_code false self in
  Some (_paint_modifier key_code false self).

Definition _on_modifier_press (key_code : Z) (self : MutterBoard)
  : option MutterBoard :=
  state ← modifiers self !! key_code;
  let state := set_pressed true state in
  let state := set_used_in_combo false state in
  let self := update_modifier key_code state self in
  self ← (if decide (key_code ∈ SHIFT_KEYS) then
            let opposite :=
              if decide (key_code = KEY_LEFTSHIFT) then KEY_RIGHTSHIFT
              else KEY_LEFTSHIFT in
            _force_release_modifier opposite self
          else Some self);
  let self := engine_set_key_state key_code true self in
  Some (_paint_modifier key_code true self).

(** [now] is the value [time.monotonic()] returns in this call. *)
Definition double_tap_hit (now : Q) (self : MutterBoard) : bool :=
  let elapsed_ms := fmul (fsub now (last_shift_tap_at self)) 1000 in
  Qltb 0 (last_shift_tap_at self)
  && Qle_bool elapsed_ms (inject_Z (double_shift_timeout_ms self)).

Definition _handle_shift_double_tap (now : Q) (self : MutterBoard)
  : option MutterBoard :=
  if double_tap_hit now self then
    self ← for_each _force_release_modifier (elements SHIFT_KEYS) self;
    let self := set_engine (_emit_shortcut (double_shift_shortcut self)
                                           (engine self)) self in
    Some (set_last_shift_tap_at 0%Q self)
  else Some (set_last_shift_tap_at now self).

Definition _on_modifier_release (key_code : Z) (now : Q) (self : MutterBoard)
  : option MutterBoard :=
  state ← modifiers self !! key_code;
  let state := set_pressed false state in
  let self := update_modifier key_code state self in
  if used_in_combo state then
    let self :=
      if negb (latched state) then
        _paint_modifier key_code false (engine_set_key_state key_code false self)
      else self in
    Some (update_modifier key_code (set_used_in_combo false state) self)
  else
    let self :=
      if latched state then
        let self := update_modifier key_code (set_latched false state) self in
        _paint_modifier key_code false (engine_set_key_state key_code false self)
      else
        let self := update_modifier key_code (set_latched true state) self in
        _paint_modifier key_code true self in
    if decide (key_code ∈ SHIFT_KEYS) then _handle_shift_double_tap now self
    else Some self.

Definition _release_one_shot_modifiers (self : MutterBoard) : MutterBoard :=
  foldl (λ self '(key_code, state),
           if latched state && negb (pressed state) then
             let self := update_modifier key_code (set_latched false state) self in
             _paint_modifier key_code false
               (engine_set_key_state key_code false self)
           else self)
        self (map_to_list (modifiers self)).

(** *** Key repeat *)

Definition glib_source_remove (id : Z) (self : MutterBoard) : MutterBoard :=
  set_glib (source_remove id (glib self)) self.

(** [if src: GLib.source_remove(src)] for an [Optional[int]]: [None] and [0]
    are false. *)
Definition source_remove_if (src : option Z) (self : MutterBoard) : MutterBoard :=
  match src with
  | Some id => if id =? 0 then self else glib_source_remove id self
  | None => self
  end.

Definition _cancel_repeat (key_code : Z) (self : MutterBoard) : MutterBoard :=
  match repeat_states self !! key_code with
  | None => self
  | Some state =>
      let self := set_repeat_states (delete key_code (repeat_states self)) self in
      let self := source_remove_if (delay_source state) self in
      source_remove_if (repeat_source state) self
  end.

Definition _start_repeat (key_code : Z) (self : MutterBoard) : MutterBoard :=
  if bool_decide (key_code ∈ MODIFIER_KEYS) then self
  else
    let self := _cancel_repeat key_code self in
    let '(id, g) := timeout_add 420 (cb_repeat_delay_done key_code) (glib self) in
    let self := set_glib g self in
    let state := {| delay_source := Some id; repeat_source := None |} in
    set_repeat_states (<[key_code := state]> (repeat_states self)) self.

Definition _repeat_delay_done (key_code : Z) (self : MutterBoard)
  : bool * MutterBoard :=
  match repeat_states self !! key_code with
  | None => (false, self)
  | Some state =>
      if negb (bool_decide (key_code ∈ active_keys self)) then (false, self)
      else
        let '(id, g) := timeout_add 70 (cb_repeat_tick key_code) (glib self) in
        let self := set_glib g self in
        let state := {| delay_source := None; repeat_source := Some id |} in
        (false, set_repeat_states (<[key_code := state]> (repeat_states self)) self)
  end.

Definition _repeat_tick (key_code : Z) (self : MutterBoard) : bool * MutterBoard :=
  if negb (bool_decide (key_code ∈ active_keys self)) then
    (false, _cancel_repeat key_code self)
  else (true, set_engine (tap_key key_code (engine self)) self).

(** *** Button signals *)

Definition on_button_press (key_code : Z) (self : MutterBoard)
  : option MutterBoard :=
  let self := set_active_keys (active_keys self ∪ {[ key_code ]}) self in
  let self := _paint_pressed key_code true self in
  if bool_decide (key_code ∈ MODIFIER_KEYS) then
    self ← _on_modifier_press key_code self;
    _update_shift_labels self
  else
    let self :=
      set_modifiers
        ((λ s, if pressed s then set_used_in_combo true s else s) <$> modifiers self)
        self in
    let self := engine_set_key_state key_code true self in
    Some (_start_repeat key_code self).

Definition on_button_release (key_code : Z) (now : Q) (self : MutterBoard)
  : option MutterBoard :=
  let self := set_active_keys (active_keys self ∖ {[ key_code ]}) self in
  let self := _paint_pressed key_code false self in
  if bool_decide (key_code ∈ MODIFIER_KEYS) then
    self ← _on_modifier_release key_code now self;
    _update_shift_labels self
  else
    let self := _cancel_repeat key_code self in
    let self := engine_set_key_state key_code false self in
    let self := _release_one_shot_modifiers self in
    _update_shift_labels self.

Definition on_button_leave (key_code : Z) (now : Q) (self : MutterBoard)
  : option MutterBoard :=
  if bool_decide (key_code ∈ active_keys self)
  then on_button_release key_code now self
  else Some self.

(** *** Timer dispatch, construction and runs *)

Definition run_callback (f : SourceFunc) (self : MutterBoard) : bool * MutterBoard :=
  match f with
  | cb_repeat_delay_done key_code => _repeat_delay_done key_code self
  | cb_repeat_tick key_code => _repeat_tick key_code self
  end.

Definition dispatch (id : Z) (self : MutterBoard) : MutterBoard :=
  match sources (glib self) !! id with
  | None => self
  | Some src =>
      let '(continue, self) := run_callback (callback src) self in
      if continue then self else glib_source_remove id self
  end.

(** [MutterBoard.__init__]; [shortcut] is what [_load_settings] reads from the
    configuration file. *)
Definition init (shortcut : list Z) : MutterBoard :=
  {| engine := {| device := []; down_keys := ∅ |};
     modifiers := gset_to_gmap ModifierState_default MODIFIER_KEYS;
     buttons := list_to_map ((λ k, (k, ∅)) <$> LAYOUT_KEYS);
     shift_labels := false;
     repeat_states := ∅;
     active_keys := ∅;
     last_shift_tap_at := 0;
     double_shift_timeout_ms := 380;
     double_shift_shortcut := shortcut;
     glib := {| sources := ∅; next_source_id := 1 |} |}.

Inductive Input :=
  | Pressed (key_code : Z)
  | Released (key_code : Z) (now : Q)
  | Leave (key_code : Z) (now : Q)
  | Timeout (id : Z).

Definition handle (i : Input) (self : MutterBoard) : option MutterBoard :=
  match i with
  | Pressed key_code => on_button_press key_code self
  | Released key_code now => on_button_release key_code now self
  | Leave key_code now => on_button_leave key_code now self
  | Timeout id => Some (dispatch id self)
  end.

Fixpoint run (inputs : list Input) (self : MutterBoard) : option MutterBoard :=
  match inputs with
  | [] => Some self
  | i :: rest => self' ← handle i self; run rest self'
  end.

End MutterBoard.

(** ** Vocabulary of the statements

    The definitions below are not part of the program: they name what the
    properties talk about. *)

(** The device events of [n] taps of one key. *)
Definition taps (n : Z) (key : Z) : list (Z * Z) :=
  concat (replicate (Z.to_nat n) [(key, 1); (key, 0)]).

(** The axis [_emit_cursor_moves] serves: X when [abs(accum_x) >= abs(accum_y)]. *)
Definition dominant_x (t : SpaceTrackingState) : bool :=
  Qle_bool (Qabs (accum_y t)) (Qabs (accum_x t)).

Definition dominant_accum (t : SpaceTrackingState) : Q :=
  if dominant_x t then accum_x t else accum_y t.

Definition arrow_key (t : SpaceTrackingState) : Z :=
  if dominant_x t then (if Qltb 0 (accum_x t) then KEY_RIGHT else KEY_LEFT)
  else (if Qltb 0 (accum_y t) then KEY_DOWN else KEY_UP).

(** The accumulated magnitude divided by the step threshold (a float
    division), rounded down. *)
Definition cursor_steps (t : SpaceTrackingState) (T : Q) : Z :=
  Qfloor (fdiv (Qabs (dominant_accum t)) T).

(** What is left of an accumulator [a] once [n] steps of [T] are taken from
    it: [a - T * n] for a positive [a], [a - (-T) * n] otherwise, in float
    arithmetic. *)
Definition remainder (a T : Q) (n : Z) : Q :=
  fsub a (if Qltb 0 a then fmul T (float_of_int n) else fmul (- T) (float_of_int n)).

(** What a motion sample adds to the accumulators before arrows are emitted. *)
Definition accumulate (t : SpaceTrackingState) (x y : Q) (event_time : Z)
  : SpaceTrackingState :=
  set_accum (fadd (accum_x t) (fsub x (last_x t))) (fadd (accum_y t) (fsub y (last_y t)))
            (set_last x y (event_seconds event_time) t).

Definition direction (rightwards : bool) : Q := if rightwards then 1%Q else (-1)%Q.
Definition direction_key (rightwards : bool) : Z :=
  if rightwards then KEY_RIGHT else KEY_LEFT.

Section Drag.
Variable pow_half : Q → Q.

(** A run of motion samples [(x, y, event_time)] on one tracking record. *)
Fixpoint run_samples (samples : list (Q * Q * Z)) (t : SpaceTrackingState)
    (e : KeyboardEngine) : option (SpaceTrackingState * KeyboardEngine) :=
  match samples with
  | [] => Some (t, e)
  | (x, y, tm) :: rest =>
      '(t', e') ← space_motion_sample pow_half t x y tm e;
      run_samples rest t' e'
  end.

(** The tracking record after a motion sample; it does not depend on the
    engine. *)
Definition after_sample (t : SpaceTrackingState) (x y : Q) (tm : Z)
  : SpaceTrackingState :=
  match space_motion_sample pow_half t x y tm {| device := []; down_keys := ∅ |} with
  | Some (t', _) => t'
  | None => t
  end.

(** A horizontal drag in one direction whose samples all see the step
    threshold [T], with non-zero timestamps, such that on every sample
    - the accumulation of the horizontal displacement is exact,
    - when the horizontal accumulator is served, the float operations on it
      are exact: the whole part [n] of its quotient by [T], and the remainder
      after [n] steps, and
    - when the vertical accumulator is served, it does not amount to a
      step. *)
Fixpoint steady_drag (rightwards : bool) (T : Q) (samples : list (Q * Q * Z))
    (t : SpaceTrackingState) : Prop :=
  match samples with
  | [] => True
  | (x, y, tm) :: rest =>
      let t1 := accumulate t x y tm in
      let n := Qfloor (Qabs (accum_x t1) / T) in
      tm ≠ 0 ∧ (0 <= direction rightwards * (x - last_x t))%Q ∧
      (step_threshold_of (sample_speed pow_half t x y tm) == T)%Q ∧
      (accum_x t1 == accum_x t + (x - last_x t))%Q ∧
      (if dominant_x t1 then
         Qfloor (fdiv (Qabs (accum_x t1)) T) = n ∧
         (0 < n →
          (remainder (accum_x t1) T n
           == accum_x t1 - direction rightwards * (inject_Z n * T))%Q)
       else Qfloor (fdiv (Qabs (accum_y t1)) T) = 0) ∧
      steady_drag rightwards T rest (after_sample t x y tm)
  end.

(** The step thresholds the samples of a run see, in order. *)
Fixpoint thresholds (samples : list (Q * Q * Z)) (t : SpaceTrackingState) : list Q :=
  match samples with
  | [] => []
  | (x, y, tm) :: rest =>
      step_threshold_of (sample_speed pow_half t x y tm)
      :: thresholds rest (after_sample t x y tm)
  end.

(** The X coordinate of the last sample. *)
Definition final_x (samples : list (Q * Q * Z)) (t : SpaceTrackingState) : Q :=
  match last samples with
  | Some (x, _, _) => x
  | None => last_x t
  end.

End Drag.

(** An integer square root, used to run the model on concrete samples. *)
Definition isqrt (q : Q) : Q := inject_Z (Z.sqrt (Qfloor q)).

(** ** Concrete inputs used by the examples *)

(** A tracking record in cursor mode whose seeding sample was at the origin,
    one second after the epoch of the event clock. *)
Definition seeded_tracking : SpaceTrackingState :=
  {| cursor_mode := true; accum_x := 0; accum_y := 0; last_x := 0; last_y := 0;
     last_motion_at := 1; long_press_source := Some 1 |}.

Definition idle_engine : KeyboardEngine := {| device := []; down_keys := ∅ |}.

(** Two fast samples to the right: 24 px in 10 ms, then 12 px in 6 ms. *)
Definition drag_samples : list (Q * Q * Z) :=
  [(24%Q, 0%Q, 1010); (36%Q, 0%Q, 1016)].

(** Three fast samples to the right, 1 ms apart, at the binary64 numbers 6.9
    and 28.8 and at 36. *)
Definition fractional_drag : list (Q * Q * Z) :=
  [(fl (69 # 10), 0%Q, 1001); (fl (288 # 10), 0%Q, 1002); (36%Q, 0%Q, 1003)].

(** The style contexts after [_paint_modifier]. *)
Definition painted (key_code : Z) (active : bool) (w : gmap Z (gset string))
  : gmap Z (gset string) :=
  if decide (key_code ∈ MODIFIER_KEYS)
  then alter (if active then add_class "pressed" else remove_class "pressed")
             key_code w
  else w.

(** What [set_key_state] sends to the device: nothing when the key is
    already in the requested state. *)
Definition key_event (key_code : Z) (pressed : bool) (e : KeyboardEngine)
  : list (Z * Z) :=
  if bool_decide (key_code ∈ down_keys e)
  then (if pressed then [] else [(key_code, 0)])
  else (if pressed then [(key_code, 1)] else []).

(** The window after a successful [_force_release_modifier]. *)
Definition force_released (key_code : Z) (self : QingBoard) : QingBoard :=
  set_key_widgets (painted key_code false (key_widgets self))
    (set_engine (set_key_state key_code false (engine self))
       (set_modifiers (<[key_code := ModifierState_default]> (modifiers self)) self)).

(** A tap of a modifier: global press, then global release at clock reading
    [now], nothing in between. *)
Definition tap_modifier (key_code : Z) (now : Q) (self : QingBoard)
  : option QingBoard :=
  self ← _on_modifier_press_global key_code self;
  _on_modifier_release_global key_code now self.

(** [elapsed_ms] as [_handle_shift_double_tap] computes it at clock reading
    [now]. *)
Definition elapsed_ms (now : Q) (self : QingBoard) : Q :=
  fmul (fsub now (last_shift_tap_at self)) 1000.

(** The release of [key_code] at [now] completes a double tap. *)
Definition completes_double_tap (key_code : Z) (now : Q) (self : QingBoard) : bool :=
  bool_decide (key_code ∈ SHIFT_KEYS) && double_shift_shortcut_enabled self
  && double_tap_hit now self.

(** Every Shift key has its entry in [self.modifiers]. *)
Definition shifts_registered (self : QingBoard) : Prop :=
  ∀ k, k ∈ SHIFT_KEYS → is_Some (modifiers self !! k).

(** The window right after the latch toggle of a clean (no combo) release of
    [key_code], whose entry was [state]. *)
Definition toggled (key_code : Z) (state : ModifierState) (self : QingBoard)
  : QingBoard :=
  if latched state then
    _paint_modifier key_code false
      (engine_set_key_state key_code false
         (update_modifier key_code (set_latched false (set_pressed false state))
           (update_modifier key_code (set_pressed false state) self)))
  else
    _paint_modifier key_code true
      (update_modifier key_code (set_latched true (set_pressed false state))
         (update_modifier key_code (set_pressed false state) self)).

(** The other Shift key. *)
Definition opposite (key_code : Z) : Z :=
  if decide (key_code = KEY_LEFTSHIFT) then KEY_RIGHTSHIFT else KEY_LEFTSHIFT.

(** The window after a successful [_on_modifier_press_global] of [key_code],
    whose entry was [state]. *)
Definition pressed_global (key_code : Z) (state : ModifierState) (self : QingBoard)
  : QingBoard :=
  let self := update_modifier key_code
                (set_used_in_combo false (set_pressed true state)) self in
  let self := if decide (key_code ∈ SHIFT_KEYS)
              then force_released (opposite key_code) self else self in
  set_key_widgets (painted key_code true (key_widgets self))
    (set_engine (set_key_state key_code true (engine self)) self).


(** A run of the program: inputs handled one after the other. *)
Fixpoint run (pow_half : Q → Q) (inputs : list Input) (self : QingBoard)
  : option QingBoard :=
  match inputs with
  | [] => Some self
  | i :: rest => self' ← handle pow_half i self; run pow_half rest self'
  end.

(** A layout for the examples: key [k] occupies the 9x9 box at [x = 10 k]. *)
Definition example_geometry (k : Z) : option Rectangle :=
  Some {| rect_x := 10 * k; rect_y := 0; rect_width := 9; rect_height := 9 |}.

(** A touch event of sequence [seq] on key [k] at time [tm]. *)
Definition touch (etype : EventType) (seq k tm : Z) : Event :=
  {| event_type := etype;
     event_coords := Some (inject_Z (10 * k + 1), 1%Q);
     event_sequence := Some seq;
     event_time := tm |}.

(** The window once laid out, with the default configuration. *)
Definition started : QingBoard :=
  _update_key_rects example_geometry (init true [KEY_LEFTSHIFT; KEY_SPACE] false).

(** The state [inputs] lead to from [started]; [started] itself if the run
    raises (the lemmas below show it does not). *)
Definition after (inputs : list Input) : QingBoard :=
  default started (run isqrt inputs started).

(** Left Shift is being held by touch 1. *)
Definition shift_held : QingBoard :=
  after [WindowEvent (touch TOUCH_BEGIN 1 KEY_LEFTSHIFT 1000) 1].

(** Left Shift was tapped at 1.0 s (so it is latched), pressed again, and A
    was pressed while it is held. *)
Definition shift_in_combo : QingBoard :=
  after [WindowEvent (touch TOUCH_BEGIN 1 KEY_LEFTSHIFT 900) (9 # 10);
         WindowEvent (touch TOUCH_END 1 KEY_LEFTSHIFT 1000) 1;
         WindowEvent (touch TOUCH_BEGIN 1 KEY_LEFTSHIFT 1100) (11 # 10);
         WindowEvent (touch TOUCH_BEGIN 2 KEY_A 1150) (115 # 100)].


(** Right Shift was tapped at 1.0 s. *)
Definition right_shift_tapped : QingBoard :=
  after [WindowEvent (touch TOUCH_BEGIN 1 KEY_RIGHTSHIFT 900) (9 # 10);
         WindowEvent (touch TOUCH_END 1 KEY_RIGHTSHIFT 1000) 1].



(** Right Ctrl is being held by touch 1. *)
Definition right_ctrl_held : QingBoard :=
  after [WindowEvent (touch TOUCH_BEGIN 1 KEY_RIGHTCTRL 1000) 1].

(** ** Vocabulary for timers and key classes *)

(** What [if src: GLib.source_remove(src)] leaves of the main loop. *)
Definition remove_if (src : option Z) (g : GLibLoop) : GLibLoop :=
  match src with
  | Some id => if id =? 0 then g else source_remove id g
  | None => g
  end.

(** The main loop after [_cancel_repeat]. *)
Definition cancelled_glib (touch_id : Z) (self : QingBoard) : GLibLoop :=
  match repeat_states self !! touch_id with
  | Some state =>
      remove_if (repeat_source state) (remove_if (delay_source state) (glib self))
  | None => glib self
  end.

(** The callback re-taps a held key: it belongs to the repeat of the contact
    [touch_id] on [key]. *)
Definition repeats (f : SourceFunc) (touch_id key : Z) : Prop :=
  f = cb_repeat_delay_done touch_id key ∨ f = cb_repeat_tick touch_id key.

(** The repeat record owns the source [id] and nothing else. *)
Definition owns (state : RepeatState) (id : Z) : Prop :=
  (delay_source state = Some id ∧ repeat_source state = None)
  ∨ (delay_source state = None ∧ repeat_source state = Some id).

(** A regular key in the sense of [_on_input_begin]: not CapsLock, not a
    modifier, not space. *)
Definition regular (key : Z) : Prop :=
  key ≠ KEY_CAPSLOCK ∧ (key ∉ MODIFIER_KEYS) ∧ key ≠ KEY_SPACE.

(** The bookkeeping of repeat timers is consistent: at most one contact has a
    repeat record, it holds a regular key, every pending repeat source is the
    one source its contact's record owns, and source ids are positive and
    below the next id to be handed out. *)
Record timers_ok (self : QingBoard) : Prop := {
  one_repeat : ∀ t1 t2,
    is_Some (repeat_states self !! t1) → is_Some (repeat_states self !! t2) →
    t1 = t2;
  repeat_owned : ∀ id src t k,
    sources (glib self) !! id = Some src → repeats (callback src) t k →
    ∃ state, repeat_states self !! t = Some state ∧ owns state id;
  ids_fresh : ∀ id, is_Some (sources (glib self) !! id) →
    0 < id ∧ id < next_source_id (glib self);
  next_positive : 0 < next_source_id (glib self);
  repeat_regular : ∀ t, is_Some (repeat_states self !! t) →
    ∃ state, touch_states self !! t = Some state ∧ regular (key_code state)
}.

(** Every modifier key has its entry in [self.modifiers], and a held Shift
    key is physically down. *)
Record mods_ok (self : QingBoard) : Prop := {
  mods_registered : ∀ k, k ∈ MODIFIER_KEYS → is_Some (modifiers self !! k);
  shift_held_down : ∀ k state,
    k ∈ SHIFT_KEYS → modifiers self !! k = Some state → pressed state = true →
    k ∈ down_keys (engine self)
}.

(** ** Vocabulary for one-shot modifiers *)

(** The modifier is latched and not held: the next completed keystroke
    releases it. *)
Definition one_shot (state : ModifierState) : bool :=
  latched state && negb (pressed state).

(** The steps of the loop of [_release_one_shot_modifiers] over the items
    [l] of [self.modifiers], on each component it writes. *)
Definition mods_after (l : list (Z * ModifierState)) (m : gmap Z ModifierState)
  : gmap Z ModifierState :=
  foldl (λ m '(k, state),
           if one_shot state then <[k := set_latched false state]> m else m) m l.

Definition engine_after (l : list (Z * ModifierState)) (e : KeyboardEngine)
  : KeyboardEngine :=
  foldl (λ e '(k, state),
           if one_shot state then set_key_state k false e else e) e l.

Definition widgets_after (l : list (Z * ModifierState)) (w : gmap Z (gset string))
  : gmap Z (gset string) :=
  foldl (λ w '(k, state), if one_shot state then painted k false w else w) w l.

(** The release events of the one-shot modifiers among [l] that are down in
    [down]. *)
Definition one_shot_releases (l : list (Z * ModifierState)) (down : gset Z)
  : list (Z * Z) :=
  l ≫= λ '(k, state),
    if one_shot state && bool_decide (k ∈ down) then [(k, 0)] else [].

(** ** Vocabulary for contacts *)

(** [self.key_press_count.get(key, 0)] *)
Definition count_of (key : Z) (self : QingBoard) : Z :=
  default 0 (key_press_count self !! key).

(** The window once [_on_input_end] has popped the contact [touch_id], whose
    record was [state], and decremented the counter of its key. *)
Definition contact_removed (touch_id : Z) (state : TouchState) (self : QingBoard)
  : QingBoard :=
  let self := set_touch_states (delete touch_id (touch_states self)) self in
  if 0 <? count_of (key_code state) self
  then set_key_press_count
         (<[key_code state := count_of (key_code state) self - 1]>
            (key_press_count self)) self
  else self.

(** The window once [_on_input_begin] has recorded the contact [touch_id] on
    [key] and incremented the counter of the key. *)
Definition contact_added (touch_id key : Z) (now : Q) (self : QingBoard)
  : QingBoard :=
  set_key_press_count
    (<[key := count_of key self + 1]> (key_press_count self))
    (set_touch_states
       (<[touch_id := {| key_code := key; press_time := now |}]> (touch_states self))
       self).

(** The style context of the label of [key] has the class [c]. *)
Definition has_class (c : string) (key : Z) (self : QingBoard) : Prop :=
  ∃ style, key_widgets self !! key = Some style ∧ c ∈ style.


(** The device events of the space tap [_finish_space_tracking] may send. *)
Definition space_tap (touch_id : Z) (self : QingBoard) : list (Z * Z) :=
  match space_tracking self !! touch_id with
  | Some tracking => if cursor_mode tracking then [] else taps 1 KEY_SPACE
  | None => taps 1 KEY_SPACE
  end.

(** The window after a fresh contact began on a regular key. *)
Definition begun_regular (touch_id key : Z) (now : Q) (self : QingBoard)
  : QingBoard :=
  let self := _start_repeat touch_id key
                (engine_tap_key key
                   (_stop_all_other_repeats key touch_id
                      (mark_used_in_combo (contact_added touch_id key now self)))) in
  if count_of key self =? 1 then _update_visual key true self else self.

(** Left Shift was tapped (it is latched) and touch 2 holds A. *)
Definition latched_shift_and_a : QingBoard :=
  after [WindowEvent (touch TOUCH_BEGIN 1 KEY_LEFTSHIFT 900) (9 # 10);
         WindowEvent (touch TOUCH_END 1 KEY_LEFTSHIFT 1000) 1;
         WindowEvent (touch TOUCH_BEGIN 2 KEY_A 1500) (15 # 10)].

(** Left Shift was tapped (it is latched) and touch 2 holds CapsLock. *)
Definition latched_shift_and_caps : QingBoard :=
  after [WindowEvent (touch TOUCH_BEGIN 1 KEY_LEFTSHIFT 900) (9 # 10);
         WindowEvent (touch TOUCH_END 1 KEY_LEFTSHIFT 1000) 1;
         WindowEvent (touch TOUCH_BEGIN 2 KEY_CAPSLOCK 1500) (15 # 10)].

(** Touch 1 holds Left Shift, touch 2 presses Right Shift (which force-
    releases Left Shift), touch 1 ends (which latches Left Shift), and touch
    3 presses A. *)
Definition latched_not_down_inputs : list Input :=
  [WindowEvent (touch TOUCH_BEGIN 1 KEY_LEFTSHIFT 900) (9 # 10);
   WindowEvent (touch TOUCH_BEGIN 2 KEY_RIGHTSHIFT 1000) 1;
   WindowEvent (touch TOUCH_END 1 KEY_LEFTSHIFT 1100) (11 # 10);
   WindowEvent (touch TOUCH_BEGIN 3 KEY_A 1500) (15 # 10)].

Definition latched_not_down : QingBoard := after latched_not_down_inputs.

(** MutterBoard with the default configuration. *)
Definition mb_started : MutterBoard.MutterBoard :=
  MutterBoard.init [KEY_LEFTSHIFT; KEY_SPACE].

(** The state [inputs] lead MutterBoard to from [mb_started]. *)
Definition mb_after (inputs : list MutterBoard.Input) : MutterBoard.MutterBoard :=
  default mb_started (MutterBoard.run inputs mb_started).

(** MutterBoard: Left Shift was tapped (it is latched) and CapsLock is held. *)
Definition mb_latched_shift_and_caps : MutterBoard.MutterBoard :=
  mb_after [MutterBoard.Pressed KEY_LEFTSHIFT;
            MutterBoard.Released KEY_LEFTSHIFT 1;
            MutterBoard.Pressed KEY_CAPSLOCK].



(** Whether the label of [key] has the class [c]. *)
Definition has_class_b (c : string) (key : Z) (self : QingBoard) : bool :=
  bool_decide (c ∈ default ∅ (key_widgets self !! key)).

(** A mouse event on key [k] at time [tm] (the mouse is contact
    [MOUSE_TOUCH_ID]). *)
Definition click (etype : EventType) (k tm : Z) : Event :=
  {| event_type := etype;
     event_coords := Some (inject_Z (10 * k + 1), 1%Q);
     event_sequence := None;
     event_time := tm |}.

(** The mouse holds space. *)
Definition space_held : QingBoard :=
  after [WindowEvent (click BUTTON_PRESS KEY_SPACE 1000) 1].

(** Two short clicks on space, 200 ms apart; the long-press timer of the
    first (source 1) fires 300 ms after the first press, while the second
    click is held. *)
Definition space_double_click : list Input :=
  [WindowEvent (click BUTTON_PRESS KEY_SPACE 1000) 1;
   WindowEvent (click BUTTON_RELEASE KEY_SPACE 1050) (105 # 100);
   WindowEvent (click BUTTON_PRESS KEY_SPACE 1200) (12 # 10);
   Timeout 1;
   WindowEvent (click BUTTON_RELEASE KEY_SPACE 1350) (135 # 100)].

(** A long press of space: the timer fires, then the press ends. *)
Definition space_long_press : list Input :=
  [WindowEvent (click BUTTON_PRESS KEY_SPACE 1000) 1;
   Timeout 1;
   WindowEvent (click BUTTON_RELEASE KEY_SPACE 1400) (14 # 10)].

(** Touch 1 holds A. *)
Definition a_held : QingBoard :=
  after [WindowEvent (touch TOUCH_BEGIN 1 KEY_A 1000) 1].


(** ** Vocabulary for shortcuts *)

(** The members of a combo that [_emit_shortcut] holds down, and the keys it
    taps: the other members, or the modifiers themselves when there is no
    other member. *)
Definition combo_mods (combo : list Z) : list Z :=
  filter (λ code, code ∈ MODIFIER_KEYS) combo.

Definition combo_taps (combo : list Z) : list Z :=
  match filter (λ code, code ∉ MODIFIER_KEYS) combo with
  | [] => combo_mods combo
  | normals => normals
  end.



(** ** Vocabulary for the device log *)

(** The value of the last event the device received for [key]. *)
Definition last_event (key : Z) (log : list (Z * Z)) : option Z :=
  snd <$> last (filter (λ ev, ev.1 = key) log).

(** The engine's view of [key] agrees with the device: [key] is in
    [down_keys] exactly when its last event is a press. *)
Definition synced (key : Z) (e : KeyboardEngine) : Prop :=
  key ∈ down_keys e ↔ last_event key (device e) = Some 1.

(** A modifier is active: held or latched. *)
Definition active (state : ModifierState) : bool := pressed state || latched state.

(** The engine and the modifier registry agree: the registry has exactly the
    modifier keys, a key that is down on the device is an active modifier,
    and [down_keys] agrees with the device log. *)
Record engine_ok (self : QingBoard) : Prop := {
  registry_keys : dom (modifiers self) = MODIFIER_KEYS;
  down_active : ∀ k, k ∈ down_keys (engine self) →
    ∃ state, modifiers self !! k = Some state ∧ active state = true;
  device_synced : ∀ k, synced k (engine self)
}.

(** ** Vocabulary for frames *)

(** [self'] differs from [self] at most in the modifier registry, the engine,
    the recorded tap time, the shift labels and the labels of the modifier
    keys. *)
Record modifier_frame (self self' : QingBoard) : Prop := {
  frame_touch_states : touch_states self' = touch_states self;
  frame_key_rects : key_rects self' = key_rects self;
  frame_space_tracking : space_tracking self' = space_tracking self;
  frame_repeat_states : repeat_states self' = repeat_states self;
  frame_key_press_count : key_press_count self' = key_press_count self;
  frame_glib : glib self' = glib self;
  frame_capslock_on : capslock_on self' = capslock_on self;
  frame_caps_indicator : caps_indicator self' = caps_indicator self;
  frame_widgets_dom : dom (key_widgets self') = dom (key_widgets self);
  frame_widgets : ∀ k, k ∉ MODIFIER_KEYS →
    key_widgets self' !! k = key_widgets self !! k
}.

(** ** Vocabulary for the bookkeeping of contacts *)

(** The contacts that hold [key]. *)
Definition holders (key : Z) (self : QingBoard) : gmap Z TouchState :=
  filter (λ p, key_code p.2 = key) (touch_states self).

(** The bookkeeping of contacts is consistent: the press counter of a key
    counts the contacts on it; a pending repeat timer belongs to a contact
    that holds the key the timer re-taps; only CapsLock is flashed; the keys
    of the rectangles and of the contacts have a label; and the label of a
    regular key has the class [pressed] exactly while a contact holds it. *)
Record contacts_ok (self : QingBoard) : Prop := {
  count_holders : ∀ k, count_of k self = Z.of_nat (size (holders k self));
  repeat_key : ∀ id src t k,
    sources (glib self) !! id = Some src → repeats (callback src) t k →
    ∃ state, touch_states self !! t = Some state ∧ key_code state = k;
  flash_key : ∀ id src k,
    sources (glib self) !! id = Some src → callback src = cb_flash_clear k →
    k = KEY_CAPSLOCK;
  rects_widgets : ∀ k rect,
    (k, rect) ∈ key_rects self → is_Some (key_widgets self !! k);
  contact_widgets : ∀ t state,
    touch_states self !! t = Some state →
    is_Some (key_widgets self !! key_code state);
  regular_pressed : ∀ k style,
    regular k → key_widgets self !! k = Some style →
    ("pressed" ∈ style ↔ holders k self ≠ ∅)
}.

(** Touch 1 holds A and the delay of its repeat has elapsed. *)
Definition a_repeating : QingBoard :=
  after [WindowEvent (touch TOUCH_BEGIN 1 KEY_A 1000) 1; Timeout 1].

(** The symbol labels and the CapsLock indicator show the state: the shifted
    symbols are shown exactly when a Shift key is active, and the indicator is
    on exactly when CapsLock is. *)
Record labels_ok (self : QingBoard) : Prop := {
  shift_labels_ok :
    any_active (elements SHIFT_KEYS) (modifiers self) = Some (shift_labels self);
  caps_indicator_ok : caps_indicator self = capslock_on self
}.

(** ** Vocabulary for hit testing *)

(** The point [(x, y)] lies in the rectangle, borders included. *)
Definition inside (rect : Rectangle) (x y : Q) : Prop :=
  (inject_Z (rect_x rect) <= x)%Q ∧ (x <= inject_Z (rect_x rect + rect_width rect))%Q ∧
  (inject_Z (rect_y rect) <= y)%Q ∧ (y <= inject_Z (rect_y rect + rect_height rect))%Q.

(** Touch 1 and then touch 2 hold Left Shift. *)
Definition shift_held_twice : QingBoard :=
  after [WindowEvent (touch TOUCH_BEGIN 1 KEY_LEFTSHIFT 1000) 1;
         WindowEvent (touch TOUCH_BEGIN 2 KEY_LEFTSHIFT 1100) (11 # 10)].

(** * Properties *)

(** ** Arithmetic on floats *)

Lemma Qltb_lt a b : Qltb a b = true ↔ (a < b)%Q.
Proof.
  unfold Qltb. rewrite negb_true_iff, <- not_true_iff_false, Qle_bool_iff.
  split; [apply Qnot_le_lt | apply Qlt_not_le].
Qed.

Lemma Qle_bool_false a b : Qle_bool a b = false ↔ (b < a)%Q.
Proof.
  rewrite <- not_true_iff_false, Qle_bool_iff.
  split; [apply Qnot_le_lt | apply Qlt_not_le].
Qed.

Lemma Qfloor_unique q n : (inject_Z n <= q)%Q → (q < inject_Z n + 1)%Q → Qfloor q = n.
Proof.
  intros H1 H2.
  assert (n <= Qfloor q).
  { rewrite <- (Qfloor_Z n). by apply Qfloor_resp_le. }
  assert (Qfloor q < n + 1); [|lia].
  rewrite Zlt_Qlt, inject_Z_plus. pose proof (Qfloor_le q).
  change (inject_Z 1) with 1%Q. lra.
Qed.

(** *** Rounding to an integer *)

Lemma round_half_even_bounds q :
  Qfloor q <= round_half_even q <= Qfloor q + 1.
Proof.
  unfold round_half_even. cbv zeta.
  destruct (Qcompare _ _); [destruct (Z.even _)|..]; lia.
Qed.

Lemma round_half_even_Z n : round_half_even (inject_Z n) = n.
Proof.
  unfold round_half_even. cbv zeta. rewrite Qfloor_Z.
  destruct (Qcompare_spec (inject_Z n - inject_Z n) (1 # 2)); [lra|done|lra].
Qed.

Lemma round_half_even_mono p q :
  (p <= q)%Q → round_half_even p <= round_half_even q.
Proof.
  intros Hpq.
  pose proof (Qfloor_resp_le _ _ Hpq) as Hf.
  destruct (decide (Qfloor p = Qfloor q)) as [E|Hne].
  - unfold round_half_even. cbv zeta. rewrite <- E.
    destruct (Qcompare_spec (p - inject_Z (Qfloor p)) (1 # 2));
      destruct (Qcompare_spec (q - inject_Z (Qfloor p)) (1 # 2));
      try (destruct (Z.even _)); try lia; lra.
  - pose proof (round_half_even_bounds p). pose proof (round_half_even_bounds q). lia.
Qed.

Lemma round_half_even_comp p q : (p == q)%Q → round_half_even p = round_half_even q.
Proof.
  intros E. apply Z.le_antisymm; apply round_half_even_mono; rewrite E; apply Qle_refl.
Qed.

Lemma round_half_even_opp q : round_half_even (- q) = - round_half_even q.
Proof.
  pose proof (Qfloor_le q) as Hlo. pose proof (Qlt_floor q) as Hhi.
  rewrite inject_Z_plus in Hhi. change (inject_Z 1) with 1%Q in Hhi.
  destruct (Qeq_dec q (inject_Z (Qfloor q))) as [E|Hne].
  - rewrite (round_half_even_comp q _ E).
    rewrite (round_half_even_comp (- q) (inject_Z (- Qfloor q))).
    + by rewrite !round_half_even_Z.
    + rewrite inject_Z_opp. by rewrite <- E.
  - assert (inject_Z (Qfloor q) < q)%Q as Hlt.
    { apply Qle_lt_or_eq in Hlo as [|E]; [done|]. by destruct Hne. }
    assert (Qfloor (- q) = - Qfloor q - 1) as Ef.
    { apply Qfloor_unique; unfold Z.sub; rewrite inject_Z_plus, inject_Z_opp;
        change (inject_Z (- (1))) with (-1)%Q; lra. }
    unfold round_half_even. cbv zeta. rewrite Ef.
    unfold Z.sub at 1 2. rewrite inject_Z_plus, inject_Z_opp.
    change (inject_Z (- (1))) with (-1)%Q.
    destruct (Qcompare_spec (q - inject_Z (Qfloor q)) (1 # 2));
      destruct (Qcompare_spec (- q - (- inject_Z (Qfloor q) + -1)) (1 # 2));
      try lra; try lia.
    replace (- Qfloor q + - (1)) with (- (Qfloor q + 1)) by lia.
    rewrite Z.even_opp, Z.even_add. simpl.
    destruct (Z.even (Qfloor q)); simpl; lia.
Qed.

(** *** Binades *)

Lemma pow2_pos k : (0 < 2 ^ k)%Q.
Proof. by apply Qpower_0_lt. Qed.

Lemma pow2_plus n m : (2 ^ (n + m) == 2 ^ n * 2 ^ m)%Q.
Proof. by apply Qpower_plus. Qed.

Lemma pow2_le n m : n <= m → (2 ^ n <= 2 ^ m)%Q.
Proof. intros. by apply Qpower_le_compat_l. Qed.

Lemma pow2_Z n : 0 <= n → (2 ^ n == inject_Z (2 ^ n))%Q.
Proof. intros. by rewrite Zpower_Qpower. Qed.

Lemma Qlog2_spec q : (0 < q)%Q → (2 ^ Qlog2 q <= q)%Q ∧ (q < 2 ^ (Qlog2 q + 1))%Q.
Proof.
  intros Hq. destruct q as [a b].
  assert (0 < a) as Ha by (unfold Qlt in Hq; simpl in Hq; lia).
  unfold Qlog2. cbn [Qnum Qden].
  set (la := Z.log2 a). set (lb := Z.log2 (Z.pos b)).
  destruct (Z.log2_spec a Ha) as [Ha1 Ha2]. fold la in Ha1, Ha2.
  destruct (Z.log2_spec (Z.pos b) eq_refl) as [Hb1 Hb2]. fold lb in Hb1, Hb2.
  assert (0 <= la) by apply Z.log2_nonneg.
  assert (0 <= lb) by apply Z.log2_nonneg.
  assert ((a # b) * inject_Z (Z.pos b) == inject_Z a)%Q as Eq.
  { unfold Qeq, Qmult, inject_Z. simpl. lia. }
  assert (0 < inject_Z (Z.pos b))%Q as Hbpos.
  { change 0%Q with (inject_Z 0). by rewrite <- Zlt_Qlt. }
  rewrite Zle_Qle in Ha1, Hb1. rewrite Zlt_Qlt in Ha2, Hb2.
  rewrite <- pow2_Z in Ha1, Ha2, Hb1, Hb2 by lia.
  set (q := (a # b)%Q) in *. set (A := inject_Z a) in *. set (B := inject_Z (Z.pos b)) in *.
  destruct (Qle_bool (2 ^ (la - lb)) q) eqn:Hc.
  - apply Qle_bool_iff in Hc. split; [done|].
    assert (2 ^ (la - lb + 1) * 2 ^ lb == 2 ^ Z.succ la)%Q as E.
    { rewrite <- pow2_plus. f_equiv. lia. }
    pose proof (pow2_pos (la - lb + 1)). pose proof (pow2_pos lb).
    set (X := (2 ^ (la - lb + 1))%Q) in *. set (L := (2 ^ lb)%Q) in *.
    set (A1 := (2 ^ Z.succ la)%Q) in *.
    clearbody X L A1 q A B. clear -E Eq Hbpos Ha2 Hb1 H1 H2. nra.
  - apply not_true_iff_false in Hc. rewrite Qle_bool_iff in Hc. apply Qnot_le_lt in Hc.
    replace (la - lb - 1 + 1) with (la - lb) by lia. split; [|done].
    assert (2 ^ (la - lb - 1) * 2 ^ Z.succ lb == 2 ^ la)%Q as E.
    { rewrite <- pow2_plus. f_equiv. lia. }
    pose proof (pow2_pos (la - lb - 1)). pose proof (pow2_pos (Z.succ lb)).
    set (X := (2 ^ (la - lb - 1))%Q) in *. set (L := (2 ^ Z.succ lb)%Q) in *.
    set (A0 := (2 ^ la)%Q) in *.
    clearbody X L A0 q A B. clear -E Eq Hbpos Ha1 Hb2 H1 H2. nra.
Qed.

Lemma binade_le p q k j :
  (2 ^ k <= p)%Q → (p <= q)%Q → (q < 2 ^ (j + 1))%Q → k <= j.
Proof.
  intros H1 H2 H3. destruct (decide (k <= j)) as [|Hn]; [done|].
  assert (2 ^ (j + 1) <= 2 ^ k)%Q by (apply pow2_le; lia). lra.
Qed.

Lemma Qlog2_mono p q : (0 < p)%Q → (p <= q)%Q → Qlog2 p <= Qlog2 q.
Proof.
  intros Hp Hpq.
  destruct (Qlog2_spec p Hp) as [H1 _].
  destruct (Qlog2_spec q) as [_ H2]; [lra|].
  by eapply binade_le.
Qed.

Lemma Qlog2_comp p q : (0 < p)%Q → (p == q)%Q → Qlog2 p = Qlog2 q.
Proof.
  intros Hp E. apply Z.le_antisymm; apply Qlog2_mono; rewrite ?E; lra.
Qed.

Lemma Qabs_pos_eq q : (0 < q)%Q → Qabs q = q.
Proof.
  destruct q as [a b]. unfold Qlt. simpl. intros H. unfold Qabs. f_equal. lia.
Qed.

(** *** Rounding to binary64: [fl] respects equality of rationals, commutes
    with negation and is monotone *)

Lemma fl_eq q :
  ¬ (q == 0)%Q →
  (fl q == inject_Z (round_half_even (q / 2 ^ ulp_exponent q)) * 2 ^ ulp_exponent q)%Q.
Proof.
  intros Hq. unfold fl. destruct (Qeq_bool q 0) eqn:E.
  - by apply Qeq_bool_iff in E.
  - cbv zeta. apply Qred_correct.
Qed.

Lemma fl_zero q : (q == 0)%Q → fl q = 0%Q.
Proof. intros E. unfold fl. apply Qeq_bool_iff in E. by rewrite E. Qed.

Lemma ulp_exponent_comp p q : ¬ (p == 0)%Q → (p == q)%Q → ulp_exponent p = ulp_exponent q.
Proof.
  intros Hp E. unfold ulp_exponent. f_equal. f_equal.
  apply Qlog2_comp; [|by rewrite E].
  apply (Qabs_case p); intros; lra.
Qed.

Lemma fl_comp p q : (p == q)%Q → fl p = fl q.
Proof.
  intros E. unfold fl.
  destruct (Qeq_bool p 0) eqn:Hp, (Qeq_bool q 0) eqn:Hq; try done.
  - apply Qeq_bool_iff in Hp. apply Qeq_bool_neq in Hq. destruct Hq. by rewrite <- E.
  - apply Qeq_bool_iff in Hq. apply Qeq_bool_neq in Hp. destruct Hp. by rewrite E.
  - apply Qeq_bool_neq in Hp. cbv zeta. apply Qred_complete.
    rewrite <- (ulp_exponent_comp p q) by done.
    rewrite (round_half_even_comp (p / _) (q / 2 ^ ulp_exponent p)); [done|].
    unfold Qdiv. by apply Qmult_comp.
Qed.

Lemma fl_opp q : (fl (- q) == - fl q)%Q.
Proof.
  destruct (Qeq_dec q 0) as [E|Hq].
  - rewrite (fl_zero q), (fl_zero (- q)); [done| |done]. by rewrite E.
  - rewrite !fl_eq; [|done|lra].
    assert (ulp_exponent (- q) = ulp_exponent q) as ->.
    { unfold ulp_exponent. f_equal. f_equal. apply Qlog2_comp.
      - rewrite Qabs_opp. apply (Qabs_case q); intros; lra.
      - by rewrite Qabs_opp. }
    rewrite (round_half_even_comp (- q / _) (- (q / 2 ^ ulp_exponent q))).
    + rewrite round_half_even_opp, inject_Z_opp. ring.
    + field. by apply Qpower_not_0.
Qed.

Lemma fl_nonneg q : (0 <= q)%Q → (0 <= fl q)%Q.
Proof.
  intros Hq. destruct (Qeq_dec q 0) as [E|Hne]; [by rewrite fl_zero|].
  rewrite fl_eq by done. pose proof (pow2_pos (ulp_exponent q)).
  apply Qmult_le_0_compat; [|lra].
  change 0%Q with (inject_Z 0). rewrite <- Zle_Qle.
  rewrite <- (round_half_even_Z 0). apply round_half_even_mono.
  apply Qle_shift_div_l; [done|]. change (inject_Z 0) with 0%Q. lra.
Qed.

Lemma fl_mono_pos p q : (0 < p)%Q → (p <= q)%Q → (fl p <= fl q)%Q.
Proof.
  intros Hp Hpq. assert (0 < q)%Q as Hq by lra.
  rewrite !fl_eq by lra.
  unfold ulp_exponent. rewrite !Qabs_pos_eq by done.
  destruct (Qlog2_spec p Hp) as [Hp1 Hp2]. destruct (Qlog2_spec q Hq) as [Hq1 Hq2].
  pose proof (Qlog2_mono p q Hp Hpq) as Hk.
  set (kp := Qlog2 p) in *. set (kq := Qlog2 q) in *.
  set (ep := Z.max (kp - 52) (-1074)). set (eq := Z.max (kq - 52) (-1074)).
  pose proof (pow2_pos ep) as Hep. pose proof (pow2_pos eq) as Heq.
  destruct (decide (ep = eq)) as [E|Hne].
  - rewrite <- E. apply Qmult_le_compat_r; [|lra].
    rewrite <- Zle_Qle. apply round_half_even_mono.
    apply Qmult_le_compat_r; [done|]. apply Qinv_le_0_compat. lra.
  - assert (ep < eq) as Hlt by lia.
    assert (eq = kq - 52) as Eeq by lia.
    assert (kp < kq) as Hklt by lia.
    apply Qle_trans with (2 ^ kq)%Q.
    + assert (0 <= kq - ep) as Hd by lia.
      assert (2 ^ kq == inject_Z (2 ^ (kq - ep)) * 2 ^ ep)%Q as ->.
      { rewrite <- pow2_Z, <- pow2_plus by done. f_equiv. lia. }
      apply Qmult_le_compat_r; [|lra].
      rewrite <- Zle_Qle. rewrite <- (round_half_even_Z (2 ^ (kq - ep))).
      apply round_half_even_mono.
      apply Qle_shift_div_r; [done|].
      rewrite <- pow2_Z, <- pow2_plus by done.
      replace (kq - ep + ep) with kq by lia.
      assert (2 ^ (kp + 1) <= 2 ^ kq)%Q by (apply pow2_le; lia). lra.
    + assert (2 ^ kq == inject_Z (2 ^ 52) * 2 ^ eq)%Q as ->.
      { rewrite <- pow2_Z, <- pow2_plus by done. f_equiv. lia. }
      apply Qmult_le_compat_r; [|lra].
      rewrite <- Zle_Qle. rewrite <- (round_half_even_Z (2 ^ 52)).
      apply round_half_even_mono.
      apply Qle_shift_div_l; [done|].
      rewrite <- pow2_Z, <- pow2_plus by done.
      replace (52 + eq) with kq by lia. done.
Qed.

Lemma fl_mono p q : (p <= q)%Q → (fl p <= fl q)%Q.
Proof.
  intros Hpq.
  destruct (Qlt_le_dec 0 p) as [Hp|Hp].
  - by apply fl_mono_pos.
  - destruct (Qlt_le_dec q 0) as [Hq|Hq].
    + assert (fl (- q) <= fl (- p))%Q as H by (apply fl_mono_pos; lra).
      rewrite !fl_opp in H. lra.
    + pose proof (fl_nonneg q Hq).
      assert (0 <= fl (- p))%Q as H' by (apply fl_nonneg; lra).
      rewrite fl_opp in H'. lra.
Qed.

Lemma fdiv_comp_r a T T' : (T' == T)%Q → fdiv a T' = fdiv a T.
Proof. intros E. unfold fdiv. apply fl_comp. by rewrite E. Qed.

Lemma fmul_comp_l T T' m : (T' == T)%Q → fmul T' m = fmul T m.
Proof. intros E. unfold fmul. apply fl_comp. by rewrite E. Qed.

Lemma fdiv_nonneg a T : (0 <= a)%Q → (0 < T)%Q → (0 <= fdiv a T)%Q.
Proof.
  intros Ha HT. apply fl_nonneg. apply Qle_shift_div_l; [done|]. lra.
Qed.

Lemma fdiv_mono a b T : (0 < T)%Q → (a <= b)%Q → (fdiv a T <= fdiv b T)%Q.
Proof.
  intros HT Hab. apply fl_mono. apply Qmult_le_compat_r; [done|].
  apply Qinv_le_0_compat. lra.
Qed.

(** ** The step threshold *)

Section Threshold.
Variable pow_half : Q → Q.
Hypothesis pow_half_nonneg : ∀ q, (0 <= pow_half q)%Q.

Lemma sample_dt_pos tracking event_time : (1 # 1000 <= sample_dt tracking event_time)%Q.
Proof.
  unfold sample_dt. apply Qle_trans with (fl (1 # 1000)); [by vm_compute|].
  apply Q.le_max_r.
Qed.

Lemma sample_speed_nonneg tracking x y event_time :
  (0 <= sample_speed pow_half tracking x y event_time)%Q.
Proof.
  unfold sample_speed. cbv zeta. apply fdiv_nonneg; [apply pow_half_nonneg|].
  pose proof (sample_dt_pos tracking event_time). lra.
Qed.

Lemma step_threshold_of_inner speed :
  (12 <= fsub 28 (Qmin (fdiv speed 120) 16))%Q.
Proof.
  change 12%Q with (fl 12). apply fl_mono.
  pose proof (Q.le_min_r (fdiv speed 120) 16). lra.
Qed.

Lemma step_threshold_of_unclamped speed :
  (step_threshold_of speed == fsub 28 (Qmin (fdiv speed 120) 16))%Q.
Proof.
  unfold step_threshold_of. apply Q.max_r.
  pose proof (step_threshold_of_inner speed). lra.
Qed.

Lemma step_threshold_of_lower speed : (12 <= step_threshold_of speed)%Q.
Proof. rewrite step_threshold_of_unclamped. apply step_threshold_of_inner. Qed.

Lemma step_threshold_of_upper speed : (0 <= speed)%Q → (step_threshold_of speed <= 28)%Q.
Proof.
  intros Hs. rewrite step_threshold_of_unclamped.
  change 28%Q with (fl 28) at 2. apply fl_mono.
  assert (0 <= Qmin (fdiv speed 120) 16)%Q; [|lra].
  apply Q.min_glb; [|lra]. apply fdiv_nonneg; lra.
Qed.

Lemma step_threshold_of_fast speed : (1920 <= speed)%Q → (step_threshold_of speed == 12)%Q.
Proof.
  intros Hs. rewrite step_threshold_of_unclamped.
  assert (16 <= fdiv speed 120)%Q as H16.
  { change 16%Q with (fl (1920 / 120)). apply fl_mono.
    apply Qmult_le_compat_r; [done|]. by vm_compute. }
  unfold fsub. rewrite (fl_comp _ 12); [done|].
  rewrite Q.min_r by done. ring.
Qed.
End Threshold.

(** ** Arrow emission *)

Lemma tap_times_device n key e :
  device (tap_times n key e) = device e ++ taps n key.
Proof.
  unfold tap_times, taps. induction (Z.to_nat n) as [|m IH]; simpl.
  - by rewrite app_nil_r.
  - rewrite IH. rewrite <- !app_assoc. f_equal.
    clear. induction m as [|m IH]; simpl; [done|]. by rewrite <- IH.
Qed.

Lemma tap_times_down_keys n key e : down_keys (tap_times n key e) = down_keys e.
Proof. unfold tap_times. induction (Z.to_nat n); simpl; auto. Qed.

Lemma py_int_nonneg x : (0 <= x)%Q → py_int x = Qfloor x.
Proof. intros H. unfold py_int. apply Qle_bool_iff in H. by rewrite H. Qed.

Lemma Qfloor_nonneg q : (0 <= q)%Q → 0 <= Qfloor q.
Proof. intros H. change 0 with (Qfloor 0). by apply Qfloor_resp_le. Qed.

Lemma Qfloor_div_spec a T :
  (0 <= a)%Q → (0 < T)%Q →
  0 <= Qfloor (a / T) ∧
  (inject_Z (Qfloor (a / T)) * T <= a)%Q ∧ (a < (inject_Z (Qfloor (a / T)) + 1) * T)%Q.
Proof.
  intros Ha HT.
  assert (0 <= a / T)%Q as Hq by (apply Qle_shift_div_l; lra).
  repeat split.
  - by apply Qfloor_nonneg.
  - pose proof (Qfloor_le (a / T)) as H.
    apply (Qmult_le_r _ _ T) in H; [|done].
    assert (a / T * T == a)%Q as E by (field; lra). by rewrite E in H.
  - pose proof (Qlt_floor (a / T)) as H.
    apply (Qmult_lt_r _ _ T) in H; [|done].
    assert (a / T * T == a)%Q as E by (field; lra). rewrite E in H.
    rewrite inject_Z_plus in H. exact H.
Qed.

Lemma Qeq_bool_false_pos T : (0 < T)%Q → Qeq_bool T 0 = false.
Proof.
  intros H. apply not_true_iff_false. rewrite Qeq_bool_iff. lra.
Qed.

Lemma cursor_steps_spec t T :
  (0 < T)%Q →
  0 <= cursor_steps t T ∧
  (inject_Z (cursor_steps t T) <= fdiv (Qabs (dominant_accum t)) T)%Q ∧
  (fdiv (Qabs (dominant_accum t)) T < inject_Z (cursor_steps t T) + 1)%Q.
Proof.
  intros HT. unfold cursor_steps. split_and!.
  - apply Qfloor_nonneg, fdiv_nonneg; [apply Qabs_nonneg | done].
  - apply Qfloor_le.
  - pose proof (Qlt_floor (fdiv (Qabs (dominant_accum t)) T)) as H.
    by rewrite inject_Z_plus in H.
Qed.

Lemma emit_cursor_moves_eq t T e :
  (0 < T)%Q →
  _emit_cursor_moves t T e =
  Some (if 0 <? cursor_steps t T then
          let r := remainder (dominant_accum t) T (cursor_steps t T) in
          if dominant_x t then set_accum r 0 t else set_accum 0 r t
        else t,
        tap_times (cursor_steps t T) (arrow_key t) e).
Proof.
  intros HT.
  unfold _emit_cursor_moves, cursor_steps, dominant_accum, arrow_key, dominant_x, remainder.
  rewrite Qeq_bool_false_pos by done.
  destruct (Qle_bool (Qabs (accum_y t)) (Qabs (accum_x t))) eqn:Hdom.
  - rewrite py_int_nonneg by (apply fdiv_nonneg; [apply Qabs_nonneg | done]).
    destruct (0 <? _) eqn:Hs; [done|].
    apply Z.ltb_ge in Hs.
    assert (Qfloor (fdiv (Qabs (accum_x t)) T) = 0) as ->; [|done].
    pose proof (Qfloor_nonneg _ (fdiv_nonneg (Qabs (accum_x t)) T (Qabs_nonneg _) HT)). lia.
  - rewrite py_int_nonneg by (apply fdiv_nonneg; [apply Qabs_nonneg | done]).
    destruct (0 <? _) eqn:Hs; [done|].
    apply Z.ltb_ge in Hs.
    assert (Qfloor (fdiv (Qabs (accum_y t)) T) = 0) as ->; [|done].
    pose proof (Qfloor_nonneg _ (fdiv_nonneg (Qabs (accum_y t)) T (Qabs_nonneg _) HT)). lia.
Qed.

Lemma taps_app n1 n2 key : 0 <= n1 → 0 <= n2 → taps (n1 + n2) key = taps n1 key ++ taps n2 key.
Proof.
  intros. unfold taps. rewrite Z2Nat.inj_add by done.
  by rewrite replicate_add, concat_app.
Qed.

Lemma taps_0 key : taps 0 key = [].
Proof. done. Qed.

Lemma tap_times_0 key e : tap_times 0 key e = e.
Proof. done. Qed.

Lemma timestamp_nonzero tm : tm ≠ 0 → ¬ (event_seconds tm == 0)%Q.
Proof.
  intros Htm. unfold event_seconds, fdiv, float_of_int.
  destruct (Z_lt_le_dec tm 0) as [Hneg|Hpos].
  - assert (fl (inject_Z tm) <= -1)%Q as H1.
    { change (-1)%Q with (fl (-1)). apply fl_mono.
      change (-1)%Q with (inject_Z (- (1))). rewrite <- Zle_Qle. lia. }
    assert (fl (fl (inject_Z tm) / 1000) <= fl (- (1 # 1000)))%Q as H2.
    { apply fl_mono. apply Qle_shift_div_r; [done|]. lra. }
    assert (fl (- (1 # 1000)) < 0)%Q by (by vm_compute). lra.
  - assert (1 <= fl (inject_Z tm))%Q as H1.
    { change 1%Q with (fl 1) at 1. apply fl_mono.
      change 1%Q with (inject_Z 1). rewrite <- Zle_Qle. lia. }
    assert (fl (1 # 1000) <= fl (fl (inject_Z tm) / 1000))%Q as H2.
    { apply fl_mono. apply Qle_shift_div_l; [done|]. lra. }
    assert (0 < fl (1 # 1000))%Q by (by vm_compute). lra.
Qed.

Section DragProofs.
Variable pow_half : Q → Q.

Lemma step_threshold_pos speed : (0 < step_threshold_of speed)%Q.
Proof.
  unfold step_threshold_of.
  pose proof (Q.le_max_l 8 (fsub 28 (Qmin (fdiv speed 120) 16))). lra.
Qed.

(** The normal form of a sample after the seeding one. *)
Lemma space_motion_sample_eq t x y tm e :
  ¬ (last_motion_at t == 0)%Q →
  let T := step_threshold_of (sample_speed pow_half t x y tm) in
  let t1 := accumulate t x y tm in
  let n := cursor_steps t1 T in
  space_motion_sample pow_half t x y tm e =
  Some (if 0 <? n then
          let r := remainder (dominant_accum t1) T n in
          if dominant_x t1 then set_accum r 0 t1 else set_accum 0 r t1
        else t1,
        tap_times n (arrow_key t1) e).
Proof.
  intros Hseed T t1 n. unfold space_motion_sample.
  destruct (Qeq_bool (last_motion_at t) 0) eqn:Hs.
  { by apply Qeq_bool_iff in Hs. }
  subst T t1 n. unfold accumulate. cbv zeta.
  by rewrite emit_cursor_moves_eq by apply step_threshold_pos.
Qed.

Lemma after_sample_eq t x y tm :
  ¬ (last_motion_at t == 0)%Q →
  let T := step_threshold_of (sample_speed pow_half t x y tm) in
  let t1 := accumulate t x y tm in
  let n := cursor_steps t1 T in
  after_sample pow_half t x y tm =
  (if 0 <? n then
     let r := remainder (dominant_accum t1) T n in
     if dominant_x t1 then set_accum r 0 t1 else set_accum 0 r t1
   else t1).
Proof.
  intros Hseed. unfold after_sample. by rewrite space_motion_sample_eq.
Qed.

Lemma remainder_comp a T T' n : (T' == T)%Q → remainder a T' n = remainder a T n.
Proof.
  intros E. unfold remainder.
  rewrite (fmul_comp_l T T') by done.
  rewrite (fmul_comp_l (- T) (- T')); [done|]. by rewrite E.
Qed.

Lemma direction_sq rw : (direction rw * direction rw == 1)%Q.
Proof. by destruct rw. Qed.

Lemma direction_abs rw a : (0 <= direction rw * a)%Q → (Qabs a == direction rw * a)%Q.
Proof.
  destruct rw; unfold direction; intros H.
  - rewrite Qabs_pos by lra. ring.
  - rewrite Qabs_neg by lra. ring.
Qed.

Lemma steady_step rw T t x y tm rest e :
  (0 < T)%Q →
  ¬ (last_motion_at t == 0)%Q →
  (0 <= direction rw * accum_x t)%Q →
  steady_drag pow_half rw T ((x, y, tm) :: rest) t →
  let t' := after_sample pow_half t x y tm in
  ∃ n,
    0 <= n ∧
    space_motion_sample pow_half t x y tm e
      = Some (t', tap_times n (direction_key rw) e) ∧
    (direction rw * accum_x t' ==
       direction rw * accum_x t + direction rw * (x - last_x t) - inject_Z n * T)%Q ∧
    (0 <= direction rw * accum_x t')%Q ∧ (direction rw * accum_x t' < T)%Q ∧
    last_x t' = x ∧ ¬ (last_motion_at t' == 0)%Q.
Proof.
  intros HT Hseed Hax (Htm & Hdx & HTeq & Hacc & Hdomin & _) t'.
  pose proof (space_motion_sample_eq t x y tm e Hseed) as Hrun.
  pose proof (after_sample_eq t x y tm Hseed) as Haft. fold t' in Haft.
  cbv zeta in Hrun, Haft.
  set (T' := step_threshold_of _) in *.
  set (t1 := accumulate t x y tm) in *.
  assert (cursor_steps t1 T' = cursor_steps t1 T) as Esteps.
  { unfold cursor_steps. by rewrite (fdiv_comp_r _ T T'). }
  rewrite Esteps in Hrun, Haft.
  rewrite (remainder_comp _ T T') in Hrun, Haft by done.
  set (n0 := Qfloor (Qabs (accum_x t1) / T)) in *.
  assert (0 <= direction rw * accum_x t1)%Q as Hax1 by (rewrite Hacc; lra).
  pose proof (direction_abs rw _ Hax1) as Habs.
  destruct (Qfloor_div_spec (Qabs (accum_x t1)) T (Qabs_nonneg _) HT) as (Hn0 & Hlo & Hhi).
  fold n0 in Hn0, Hlo, Hhi. rewrite Habs in Hlo, Hhi.
  assert (last_x t1 = x ∧ last_motion_at t1 = event_seconds tm) as [Hlx Hlm] by done.
  pose proof (timestamp_nonzero tm Htm) as Hnz.
  pose proof (direction_sq rw) as Hsq.
  destruct (dominant_x t1) eqn:Hdom.
  - destruct Hdomin as [Hq Hrem].
    assert (cursor_steps t1 T = n0) as En.
    { unfold cursor_steps, dominant_accum. by rewrite Hdom. }
    rewrite En in Hrun, Haft. unfold dominant_accum in Hrun, Haft. rewrite Hdom in Hrun, Haft.
    exists n0. split; [done|].
    destruct (0 <? n0) eqn:Hpos.
    + apply Z.ltb_lt in Hpos. specialize (Hrem Hpos).
      assert (0 < inject_Z n0)%Q as Hn1.
      { change 0%Q with (inject_Z 0). rewrite <- Zlt_Qlt. lia. }
      assert (0 < direction rw * accum_x t1)%Q as Hpos1 by nra.
      assert (arrow_key t1 = direction_key rw) as Ekey.
      { unfold arrow_key. rewrite Hdom.
        destruct rw; unfold direction, direction_key in *.
        - assert (Qltb 0 (accum_x t1) = true) as ->; [|done]. apply Qltb_lt. lra.
        - destruct (Qltb 0 _) eqn:Hlt; [|done]. apply Qltb_lt in Hlt. lra. }
      rewrite Ekey in Hrun. split; [by rewrite Haft|].
      rewrite Haft. cbn [accum_x last_x last_motion_at set_accum].
      rewrite Hrem, Hlx, Hlm.
      assert (direction rw * (accum_x t1 - direction rw * (inject_Z n0 * T))
              == direction rw * accum_x t1 - inject_Z n0 * T)%Q as ->.
      { transitivity (direction rw * accum_x t1
                      - direction rw * direction rw * (inject_Z n0 * T))%Q; [ring|].
        rewrite Hsq. ring. }
      rewrite Hacc in *. split_and!; try done; lra.
    + apply Z.ltb_ge in Hpos. assert (n0 = 0) as Hz by lia.
      rewrite Hz in *. rewrite tap_times_0 in Hrun. rewrite tap_times_0.
      split; [by rewrite Haft|]. rewrite Haft, Hlx, Hlm.
      change (inject_Z 0) with 0%Q in *. rewrite Hacc in *.
      split_and!; try done; lra.
  - rename Hdomin into Hy.
    assert (cursor_steps t1 T = 0) as En.
    { unfold cursor_steps, dominant_accum. by rewrite Hdom. }
    rewrite En in Hrun, Haft. simpl in Hrun, Haft. rewrite tap_times_0 in Hrun.
    assert (Qabs (accum_y t1) < T)%Q as Hsmall.
    { apply Qnot_le_lt. intros Hge.
      assert (1 <= fdiv (Qabs (accum_y t1)) T)%Q as H1.
      { change 1%Q with (fl 1) at 1. apply fl_mono. apply Qle_shift_div_l; [done|]. lra. }
      apply Qfloor_resp_le in H1. rewrite Hy in H1. by vm_compute in H1. }
    apply Qle_bool_false in Hdom. rewrite Habs in Hdom.
    exists 0. rewrite tap_times_0.
    split; [done|]. split; [by rewrite Haft|]. rewrite Haft, Hlx, Hlm.
    change (inject_Z 0) with 0%Q. rewrite Hacc in *.
    split_and!; try done; lra.
Qed.

Lemma final_x_cons x y tm rest t t1 :
  last_x t1 = x → final_x ((x, y, tm) :: rest) t = final_x rest t1.
Proof.
  intros Hx. unfold final_x. destruct rest as [|s rest]; simpl.
  - done.
  - destruct (last (s :: rest)) as [[[??]?]|] eqn:E; [done|].
    by apply last_None in E.
Qed.

Lemma steady_drag_run rw T samples t e :
  (0 < T)%Q →
  ¬ (last_motion_at t == 0)%Q →
  (0 <= direction rw * accum_x t)%Q → (direction rw * accum_x t < T)%Q →
  steady_drag pow_half rw T samples t →
  ∃ t' n,
    run_samples pow_half samples t e
      = Some (t', tap_times n (direction_key rw) e) ∧
    0 <= n ∧
    (direction rw * accum_x t' ==
       direction rw * accum_x t + direction rw * (final_x samples t - last_x t)
       - inject_Z n * T)%Q ∧
    (0 <= direction rw * accum_x t')%Q ∧ (direction rw * accum_x t' < T)%Q.
Proof.
  intros HT. revert t e.
  induction samples as [|[[x y] tm] rest IH]; intros t e Hseed Hlo Hhi Hdrag.
  - exists t, 0. simpl. unfold final_x. simpl.
    split_and!; try done. change (inject_Z 0) with 0%Q. ring.
  - destruct (steady_step rw T t x y tm rest e HT Hseed Hlo Hdrag)
      as (n1 & Hn1 & Hrun1 & Hacc1 & Hlo1 & Hhi1 & Hx1 & Hm1).
    assert (steady_drag pow_half rw T rest (after_sample pow_half t x y tm)) as Hrest.
    { by destruct Hdrag as (_ & _ & _ & _ & _ & Hrest). }
    destruct (IH _ (tap_times n1 (direction_key rw) e) Hm1 Hlo1 Hhi1 Hrest)
      as (t' & n2 & Hrun2 & Hn2 & Hacc2 & Hlo2 & Hhi2).
    exists t', (n1 + n2). simpl. rewrite Hrun1. simpl. rewrite Hrun2.
    split.
    { do 2 f_equal. unfold tap_times. rewrite Z2Nat.inj_add by done.
      rewrite Nat.add_comm. by rewrite Nat.iter_add. }
    split; [lia|].
    rewrite (final_x_cons x y tm rest t _ Hx1).
    split; [|done].
    rewrite Hacc2, Hacc1, Hx1, inject_Z_plus. ring.
Qed.

Lemma inject_Z_unique_step T n N r :
  (0 < T)%Q → (r == inject_Z N * T - inject_Z n * T)%Q → (0 <= r)%Q → (r < T)%Q → n = N.
Proof.
  intros HT Hr H0 H1.
  assert (inject_Z N - inject_Z n < 1)%Q as Ha by nra.
  assert (-1 < inject_Z N - inject_Z n)%Q as Hb by nra.
  assert (inject_Z N < inject_Z (n + 1))%Q as Ha' by (rewrite inject_Z_plus; change (inject_Z 1) with 1%Q; lra).
  assert (inject_Z n < inject_Z (N + 1))%Q as Hb' by (rewrite inject_Z_plus; change (inject_Z 1) with 1%Q; lra).
  rewrite <- Zlt_Qlt in Ha', Hb'. lia.
Qed.

Lemma steady_drag_exact rw T N samples t e :
  (0 < T)%Q →
  ¬ (last_motion_at t == 0)%Q →
  (accum_x t == 0)%Q →
  steady_drag pow_half rw T samples t →
  (direction rw * (final_x samples t - last_x t) == inject_Z N * T)%Q →
  ∃ t' e',
    run_samples pow_half samples t e = Some (t', e') ∧
    device e' = device e ++ taps N (direction_key rw) ∧
    down_keys e' = down_keys e ∧
    (accum_x t' == 0)%Q.
Proof.
  intros HT Hseed Hax Hdrag Hdist.
  destruct (steady_drag_run rw T samples t e) as (t' & n & Hrun & Hn & Hacc & Hlo & Hhi);
    try done.
  { rewrite Hax. lra. }
  { rewrite Hax. lra. }
  rewrite Hax, Hdist in Hacc.
  assert (n = N) as ->.
  { eapply (inject_Z_unique_step T n N); [done| |exact Hlo|exact Hhi].
    rewrite Hacc. ring. }
  exists t', (tap_times N (direction_key rw) e).
  rewrite tap_times_device, tap_times_down_keys. split_and!; try done.
  assert (direction rw * accum_x t' == 0)%Q as Hz by (rewrite Hacc; ring).
  destruct rw; unfold direction in Hz; lra.
Qed.
End DragProofs.

(** ** Space cursor mode: threshold and stepping *)

Lemma isqrt_nonneg q : (0 <= isqrt q)%Q.
Proof.
  unfold isqrt. change 0%Q with (inject_Z 0). rewrite <- Zle_Qle. apply Z.sqrt_nonneg.
Qed.

(** C10. For every cursor-mode motion sample, whatever the coordinates and
    timestamps, the elapsed time is clamped to at least 0.001 s and the step
    threshold [max(8.0, 28.0 - min(speed / 120.0, 16.0))] lies in [12, 28]:
    the clamp at 8 never binds (the threshold equals
    [28 - min(speed / 120, 16)]), and 12 is reached by every sample at
    1920 px/s or more.  The operations are those of the code, each rounded
    to binary64. *)
Theorem step_threshold_bounds (pow_half : Q → Q) (t : SpaceTrackingState)
    (x y : Q) (event_time : Z) :
  (∀ q, 0 <= pow_half q)%Q →
  let speed := sample_speed pow_half t x y event_time in
  let T := step_threshold_of speed in
  (1 # 1000 <= sample_dt t event_time)%Q ∧
  (12 <= T)%Q ∧ (T <= 28)%Q ∧
  (T == fsub 28 (Qmin (fdiv speed 120) 16))%Q ∧
  ((1920 <= speed)%Q → (T == 12)%Q).
Proof.
  intros Hnn speed T. repeat split.
  - apply sample_dt_pos.
  - apply step_threshold_of_lower.
  - apply step_threshold_of_upper, sample_speed_nonneg, Hnn.
  - apply step_threshold_of_unclamped.
  - apply step_threshold_of_fast.
Qed.

Lemma step_threshold_bounds_witness :
  let T := step_threshold_of (sample_speed isqrt seeded_tracking 24 0 1010) in
  (12 <= T)%Q ∧ (T <= 28)%Q.
Proof.
  pose proof (step_threshold_bounds isqrt seeded_tracking 24 0 1010 isqrt_nonneg)
    as (_ & Hlo & Hhi & _).
  exact (conj Hlo Hhi).
Defined.

(** C8, amended. On each motion sample after the seeding one, arrows are
    tapped only for the axis with the larger accumulated magnitude (X on a
    tie); their number [n] is the whole part of that magnitude divided by the
    step threshold, a float division.  When [n = 0] nothing changes beyond
    the accumulation: the other axis keeps its accumulator.  When [n > 0] the
    other axis is reset to zero and the served axis keeps the float remainder
    [a - T * n] (or [a - (-T) * n] for a negative [a]).  A horizontal drag in
    one direction whose samples all see the threshold [T], starting from an
    empty horizontal accumulator and covering exactly [N * T], taps RIGHT (or
    LEFT) exactly [N] times and no other key provided that, on every sample,
    the accumulation of the horizontal displacement is exact, the float
    quotient and remainder of the horizontal accumulator are exact when it is
    served, and the vertical accumulator does not amount to a step when it is
    served. *)
Theorem cursor_moves_per_sample (pow_half : Q → Q) :
  (∀ t x y tm e,
     ¬ (last_motion_at t == 0)%Q →
     let T := step_threshold_of (sample_speed pow_half t x y tm) in
     let t1 := accumulate t x y tm in
     let n := cursor_steps t1 T in
     ∃ t' e',
       space_motion_sample pow_half t x y tm e = Some (t', e') ∧
       device e' = device e ++ taps n (arrow_key t1) ∧
       0 <= n ∧
       (inject_Z n <= fdiv (Qabs (dominant_accum t1)) T)%Q ∧
       (fdiv (Qabs (dominant_accum t1)) T < inject_Z n + 1)%Q ∧
       (n = 0 → t' = t1) ∧
       (0 < n →
        (if dominant_x t1 then accum_y t' else accum_x t') = 0%Q ∧
        (if dominant_x t1 then accum_x t' else accum_y t')
          = remainder (dominant_accum t1) T n))
  ∧
  (∀ rightwards T N samples t e,
     (0 < T)%Q →
     ¬ (last_motion_at t == 0)%Q →
     (accum_x t == 0)%Q →
     steady_drag pow_half rightwards T samples t →
     (direction rightwards * (final_x samples t - last_x t) == inject_Z N * T)%Q →
     ∃ t' e',
       run_samples pow_half samples t e = Some (t', e') ∧
       device e' = device e ++ taps N (direction_key rightwards) ∧
       (accum_x t' == 0)%Q).
Proof.
  split.
  - intros t x y tm e Hseed T t1 n.
    pose proof (space_motion_sample_eq pow_half t x y tm e Hseed) as Hrun.
    cbv zeta in Hrun. fold T t1 n in Hrun.
    pose proof (cursor_steps_spec t1 T (step_threshold_pos _)) as (Hn0 & Hlo & Hhi).
    fold n in Hn0, Hlo, Hhi.
    eexists _, _. split; [exact Hrun|].
    rewrite tap_times_device.
    repeat (split; [done|]).
    split.
    + intros ->. done.
    + intros Hpos. apply Z.ltb_lt in Hpos as Hpos'. rewrite Hpos'.
      by destruct (dominant_x t1).
  - intros rw T N samples t e HT Hseed Hax Hdrag Hdist.
    destruct (steady_drag_exact pow_half rw T N samples t e) as (t' & e' & ? & ? & ? & ?);
      try done.
    by exists t', e'.
Qed.

Lemma cursor_moves_per_sample_witness :
  ∃ t' e',
    run_samples isqrt drag_samples seeded_tracking idle_engine = Some (t', e') ∧
    device e' = taps 3 KEY_RIGHT.
Proof.
  destruct (cursor_moves_per_sample isqrt) as [_ H].
  destruct (H true 12%Q 3 drag_samples seeded_tracking idle_engine)
    as (t' & e' & Hrun & Hdev & _).
  - reflexivity.
  - vm_compute. discriminate.
  - reflexivity.
  - vm_compute. repeat split; try discriminate; intros _; reflexivity.
  - reflexivity.
  - exists t', e'. split; [exact Hrun | exact Hdev].
Defined.

(** C8 as stated fails in two ways.  A slow diagonal sample (5 px right, 3 px
    down in one second) emits nothing and leaves the accumulator of the minor
    axis at 3.  And a fast horizontal drag from 0 over the binary64 numbers
    6.9 and 28.8 to 36, every sample seeing the threshold 12 and no vertical
    motion at all, covers exactly 3 thresholds but taps RIGHT twice: the
    accumulator is rounded to just below 12 on the last sample. *)
Lemma cursor_drag_loses_a_step :
  (∃ t' e',
     space_motion_sample isqrt seeded_tracking 5 3 2000 idle_engine = Some (t', e') ∧
     dominant_x (accumulate seeded_tracking 5 3 2000) = true ∧
     ¬ (accum_y t' == 0)%Q ∧ (accum_y t' == 3)%Q ∧ device e' = []) ∧
  (final_x fractional_drag seeded_tracking - last_x seeded_tracking == 3 * 12)%Q ∧
  thresholds isqrt fractional_drag seeded_tracking = [12%Q; 12%Q; 12%Q] ∧
  (device ∘ snd <$> run_samples isqrt fractional_drag seeded_tracking idle_engine)
    = Some (taps 2 KEY_RIGHT) ∧
  ((λ r, Qltb (accum_x r.1) 12) <$> run_samples isqrt fractional_drag seeded_tracking idle_engine)
    = Some true.
Proof.
  split; [|split_and!; vm_compute; reflexivity].
  eexists _, _. split; [vm_compute; reflexivity|].
  repeat split; vm_compute; congruence.
Qed.

(** ** Modifier registry *)

(** ** Records: projections of updated objects *)

Ltac proj :=
  cbn [touch_states key_rects key_widgets space_tracking repeat_states
       key_press_count engine modifiers last_shift_tap_at
       double_shift_timeout_ms double_shift_shortcut_enabled
       double_shift_shortcut capslock_on space_long_press_ms shift_labels
       caps_indicator glib
       set_touch_states set_key_rects set_key_widgets set_space_tracking
       set_repeat_states set_key_press_count set_engine set_modifiers
       set_last_shift_tap_at set_capslock_on set_shift_labels
       set_caps_indicator set_glib
       update_modifier engine_set_key_state engine_tap_key glib_source_remove
       _update_caps_indicator
       pressed latched used_in_combo set_pressed set_latched set_used_in_combo
       device down_keys sources next_source_id
       fst snd].

Tactic Notation "proj" "in" hyp(H) :=
  cbn [touch_states key_rects key_widgets space_tracking repeat_states
       key_press_count engine modifiers last_shift_tap_at
       double_shift_timeout_ms double_shift_shortcut_enabled
       double_shift_shortcut capslock_on space_long_press_ms shift_labels
       caps_indicator glib
       set_touch_states set_key_rects set_key_widgets set_space_tracking
       set_repeat_states set_key_press_count set_engine set_modifiers
       set_last_shift_tap_at set_capslock_on set_shift_labels
       set_caps_indicator set_glib
       update_modifier engine_set_key_state engine_tap_key glib_source_remove
       _update_caps_indicator
       pressed latched used_in_combo set_pressed set_latched set_used_in_combo
       device down_keys sources next_source_id
       fst snd] in H.

Lemma set_key_widgets_id self : set_key_widgets (key_widgets self) self = self.
Proof. by destruct self. Qed.

Lemma _update_visual_eq key_code pressed self :
  _update_visual key_code pressed self =
  set_key_widgets
    (alter (if pressed then add_class "pressed" else remove_class "pressed")
           key_code (key_widgets self)) self.
Proof.
  unfold _update_visual. destruct (key_widgets self !! key_code) eqn:E; [done|].
  by rewrite alter_id', set_key_widgets_id.
Qed.

Lemma _paint_modifier_eq key_code active self :
  _paint_modifier key_code active self =
  set_key_widgets (painted key_code active (key_widgets self)) self.
Proof.
  unfold _paint_modifier, modifier_labels_get, painted.
  case_decide; [|by rewrite set_key_widgets_id].
  destruct (key_widgets self !! key_code) eqn:E; [done|].
  by rewrite alter_id', set_key_widgets_id.
Qed.

Lemma _set_space_cursor_visual_eq touch_id active self :
  _set_space_cursor_visual touch_id active self =
  set_key_widgets
    (alter (if active then add_class "cursor-mode" else remove_class "cursor-mode")
           KEY_SPACE (key_widgets self)) self.
Proof.
  unfold _set_space_cursor_visual.
  destruct (key_widgets self !! KEY_SPACE) eqn:E; [done|].
  by rewrite alter_id', set_key_widgets_id.
Qed.

(** ** The engine *)

Lemma set_key_state_device key_code pressed e :
  device (set_key_state key_code pressed e) = device e ++ key_event key_code pressed e.
Proof.
  unfold set_key_state, key_event.
  destruct pressed, (bool_decide (key_code ∈ down_keys e)); simpl;
    by rewrite ?app_nil_r.
Qed.

Lemma set_key_state_down_keys key_code pressed e :
  down_keys (set_key_state key_code pressed e) =
  if pressed then down_keys e ∪ {[ key_code ]} else down_keys e ∖ {[ key_code ]}.
Proof.
  unfold set_key_state.
  destruct pressed, (bool_decide (key_code ∈ down_keys e)) eqn:E; simpl;
    try done; [apply bool_decide_eq_true in E | apply bool_decide_eq_false in E];
    set_solver.
Qed.

Lemma elements_SHIFT_KEYS : elements SHIFT_KEYS = [KEY_RIGHTSHIFT; KEY_LEFTSHIFT].
Proof. reflexivity. Qed.

Lemma elem_of_SHIFT_KEYS k : k ∈ SHIFT_KEYS ↔ k = KEY_LEFTSHIFT ∨ k = KEY_RIGHTSHIFT.
Proof. unfold SHIFT_KEYS. set_solver. Qed.

Lemma SHIFT_KEYS_modifiers k : k ∈ SHIFT_KEYS → k ∈ MODIFIER_KEYS.
Proof. unfold SHIFT_KEYS, MODIFIER_KEYS. set_solver. Qed.

Lemma _force_release_modifier_eq key_code state self :
  modifiers self !! key_code = Some state →
  _force_release_modifier key_code self = Some (force_released key_code self).
Proof.
  intros E. unfold _force_release_modifier. rewrite E. simpl.
  by rewrite _paint_modifier_eq.
Qed.

Lemma release_shifts_eq self :
  shifts_registered self →
  for_each _force_release_modifier (elements SHIFT_KEYS) self =
  Some (force_released KEY_LEFTSHIFT (force_released KEY_RIGHTSHIFT self)).
Proof.
  intros Hreg. rewrite elements_SHIFT_KEYS. simpl.
  destruct (Hreg KEY_RIGHTSHIFT) as [sr Hr]; [by apply elem_of_SHIFT_KEYS; right|].
  destruct (Hreg KEY_LEFTSHIFT) as [sl Hl]; [by apply elem_of_SHIFT_KEYS; left|].
  rewrite (_force_release_modifier_eq _ sr) by done. simpl.
  erewrite (_force_release_modifier_eq _ sl); [done|].
  unfold force_released. proj. by rewrite lookup_insert_ne.
Qed.

Lemma shifts_registered_insert key_code state self :
  shifts_registered self →
  shifts_registered (update_modifier key_code state self).
Proof.
  intros H k Hk. unfold update_modifier. proj.
  destruct (decide (key_code = k)) as [->|]; [rewrite lookup_insert_eq; eauto|].
  rewrite lookup_insert_ne by done. by apply H.
Qed.

Lemma double_tap_hit_ext now self self' :
  last_shift_tap_at self' = last_shift_tap_at self →
  double_shift_timeout_ms self' = double_shift_timeout_ms self →
  double_tap_hit now self' = double_tap_hit now self.
Proof. unfold double_tap_hit. by intros -> ->. Qed.

Lemma _on_modifier_release_global_clean key_code now state self :
  modifiers self !! key_code = Some state →
  used_in_combo state = false →
  _on_modifier_release_global key_code now self =
  if decide (key_code ∈ SHIFT_KEYS)
  then _handle_shift_double_tap now (toggled key_code state self)
  else Some (toggled key_code state self).
Proof.
  intros E Hc. unfold _on_modifier_release_global, toggled. rewrite E. simpl.
  rewrite Hc. by destruct (latched state).
Qed.

Lemma toggled_frame key_code state self :
  last_shift_tap_at (toggled key_code state self) = last_shift_tap_at self ∧
  double_shift_timeout_ms (toggled key_code state self) = double_shift_timeout_ms self ∧
  double_shift_shortcut_enabled (toggled key_code state self)
    = double_shift_shortcut_enabled self ∧
  double_shift_shortcut (toggled key_code state self) = double_shift_shortcut self ∧
  modifiers (toggled key_code state self)
    = <[key_code := set_latched (negb (latched state)) (set_pressed false state)]>
        (modifiers self) ∧
  engine (toggled key_code state self)
    = (if latched state then set_key_state key_code false (engine self)
       else engine self).
Proof.
  unfold toggled. destruct (latched state); rewrite _paint_modifier_eq; proj;
    by rewrite insert_insert_eq.
Qed.

Lemma shifts_registered_toggled key_code state self :
  shifts_registered self → shifts_registered (toggled key_code state self).
Proof.
  intros H k Hk. destruct (toggled_frame key_code state self) as (_&_&_&_&->&_).
  destruct (decide (key_code = k)) as [->|]; [rewrite lookup_insert_eq; eauto|].
  rewrite lookup_insert_ne by done. by apply H.
Qed.

Lemma _handle_shift_double_tap_eq now self :
  shifts_registered self →
  _handle_shift_double_tap now self =
  Some (if negb (double_shift_shortcut_enabled self) then set_last_shift_tap_at 0%Q self
        else if double_tap_hit now self then
          let released := force_released KEY_LEFTSHIFT
                            (force_released KEY_RIGHTSHIFT self) in
          set_last_shift_tap_at 0%Q
            (set_engine (_emit_shortcut (double_shift_shortcut self) (engine released))
                        released)
        else set_last_shift_tap_at now self).
Proof.
  intros Hreg. unfold _handle_shift_double_tap.
  destruct (double_shift_shortcut_enabled self); simpl; [|done].
  destruct (double_tap_hit now self); [|done].
  rewrite release_shifts_eq by done. done.
Qed.

(** C2, amended. A release of a Shift key whose [used_in_combo] flag is
    clear notifies the double-tap detector, in the latch and in the unlatch
    branch alike: the result is that of [_handle_shift_double_tap] on the
    toggled state, which records the release time or, on a hit or when the
    feature is disabled, resets it to zero.  A release whose flag is set
    returns before the detector: the recorded tap time is left as it was and
    nothing but the key's own release reaches the device. *)
Theorem shift_release_notifies_detector (key_code : Z) (now : Q) (self : QingBoard)
    (state : ModifierState) :
  key_code ∈ SHIFT_KEYS →
  shifts_registered self →
  modifiers self !! key_code = Some state →
  ∃ self',
    _on_modifier_release_global key_code now self = Some self' ∧
    (used_in_combo state = false →
     _handle_shift_double_tap now (toggled key_code state self) = Some self' ∧
     last_shift_tap_at self' =
       if double_shift_shortcut_enabled self && negb (double_tap_hit now self)
       then now else 0%Q) ∧
    (used_in_combo state = true →
     last_shift_tap_at self' = last_shift_tap_at self ∧
     device (engine self') =
       device (engine self) ++
       (if latched state then [] else key_event key_code false (engine self))).
Proof.
  intros Hshift Hreg E.
  destruct (used_in_combo state) eqn:Hc.
  - unfold _on_modifier_release_global. rewrite E. simpl. rewrite Hc.
    eexists. split; [done|]. split; [done|]. intros _.
    destruct (latched state); simpl; rewrite ?_paint_modifier_eq; proj.
    + by rewrite app_nil_r.
    + by rewrite set_key_state_device.
  - rewrite (_on_modifier_release_global_clean _ _ state) by done.
    rewrite decide_True by done.
    pose proof (shifts_registered_toggled key_code state self Hreg) as Hreg'.
    destruct (toggled_frame key_code state self) as (Hlast & Htime & Hen & Hcombo & Hmods & Heng).
    rewrite _handle_shift_double_tap_eq by done.
    eexists. split; [reflexivity|]. split; [|intros; discriminate]. intros _.
    split; [reflexivity|].
    rewrite Hen, (double_tap_hit_ext now self _ Hlast Htime).
    destruct (double_shift_shortcut_enabled self); simpl; [|done].
    by destruct (double_tap_hit now self).
Qed.

Lemma opposite_shift k : k ∈ SHIFT_KEYS → opposite k ∈ SHIFT_KEYS ∧ opposite k ≠ k.
Proof.
  rewrite !elem_of_SHIFT_KEYS. unfold opposite. intros [->| ->]; case_decide; try done.
  all: split; [by auto|done].
Qed.

Lemma _on_modifier_press_global_eq key_code state self :
  modifiers self !! key_code = Some state →
  shifts_registered self →
  _on_modifier_press_global key_code self = Some (pressed_global key_code state self).
Proof.
  intros E Hreg. unfold _on_modifier_press_global, pressed_global. rewrite E. simpl.
  fold (opposite key_code).
  destruct (decide (key_code ∈ SHIFT_KEYS)) as [Hs|Hs]; simpl.
  - destruct (opposite_shift key_code Hs) as [Ho Hne].
    destruct (Hreg _ Ho) as [so Hso].
    erewrite _force_release_modifier_eq; [simpl; by rewrite _paint_modifier_eq|].
    proj. rewrite lookup_insert_ne by done. exact Hso.
  - by rewrite _paint_modifier_eq.
Qed.

Lemma pressed_global_frame key_code state self :
  let self' := pressed_global key_code state self in
  last_shift_tap_at self' = last_shift_tap_at self ∧
  double_shift_timeout_ms self' = double_shift_timeout_ms self ∧
  double_shift_shortcut_enabled self' = double_shift_shortcut_enabled self ∧
  double_shift_shortcut self' = double_shift_shortcut self ∧
  modifiers self' !! key_code = Some (set_used_in_combo false (set_pressed true state)) ∧
  (shifts_registered self → shifts_registered self').
Proof.
  unfold pressed_global. cbv zeta.
  destruct (decide (key_code ∈ SHIFT_KEYS)) as [Hs|Hs]; unfold force_released; proj.
  - destruct (opposite_shift key_code Hs) as [Ho Hne].
    repeat split; try done.
    + rewrite lookup_insert_ne by done. apply lookup_insert_eq.
    + intros Hreg k Hk. proj.
      destruct (decide (k = opposite key_code)) as [->|]; [rewrite lookup_insert_eq; eauto|].
      rewrite lookup_insert_ne by done.
      destruct (decide (k = key_code)) as [->|]; [rewrite lookup_insert_eq; eauto|].
      rewrite lookup_insert_ne by done. by apply Hreg.
  - repeat split; try done.
    + by rewrite lookup_insert_eq.
    + intros Hreg k Hk. proj.
      destruct (decide (k = key_code)) as [->|]; [rewrite lookup_insert_eq; eauto|].
      rewrite lookup_insert_ne by done. by apply Hreg.
Qed.

Lemma completes_double_tap_ext key_code now self self' :
  last_shift_tap_at self' = last_shift_tap_at self →
  double_shift_timeout_ms self' = double_shift_timeout_ms self →
  double_shift_shortcut_enabled self' = double_shift_shortcut_enabled self →
  completes_double_tap key_code now self' = completes_double_tap key_code now self.
Proof.
  intros H1 H2 H3. unfold completes_double_tap.
  by rewrite H3, (double_tap_hit_ext now self self').
Qed.

(** One clean tap of a modifier. *)
Lemma tap_modifier_spec key_code now self state :
  shifts_registered self →
  modifiers self !! key_code = Some state →
  ∃ self' state',
    tap_modifier key_code now self = Some self' ∧
    shifts_registered self' ∧
    modifiers self' !! key_code = Some state' ∧
    pressed state' = false ∧
    latched state' =
      (if completes_double_tap key_code now self then false
       else negb (latched state)) ∧
    double_shift_timeout_ms self' = double_shift_timeout_ms self ∧
    double_shift_shortcut_enabled self' = double_shift_shortcut_enabled self ∧
    (completes_double_tap key_code now self = false →
     engine self' =
       (if latched state
        then set_key_state key_code false (engine (pressed_global key_code state self))
        else engine (pressed_global key_code state self)) ∧
     last_shift_tap_at self' =
       if bool_decide (key_code ∈ SHIFT_KEYS)
       then (if double_shift_shortcut_enabled self then now else 0%Q)
       else last_shift_tap_at self).
Proof.
  intros Hreg E. unfold tap_modifier.
  rewrite (_on_modifier_press_global_eq _ state) by done. simpl.
  destruct (pressed_global_frame key_code state self)
    as (Hlast & Htime & Hen & Hcombo & Hmod & Hreg1).
  specialize (Hreg1 Hreg).
  set (s1 := pressed_global key_code state self) in *.
  set (st1 := set_used_in_combo false (set_pressed true state)) in *.
  rewrite (_on_modifier_release_global_clean _ _ st1) by done.
  destruct (toggled_frame key_code st1 s1) as (Hlast2 & Htime2 & Hen2 & Hcombo2 & Hmods2 & Heng2).
  pose proof (shifts_registered_toggled key_code st1 s1 Hreg1) as Hreg2.
  set (s2 := toggled key_code st1 s1) in *.
  unfold completes_double_tap.
  destruct (decide (key_code ∈ SHIFT_KEYS)) as [Hs|Hs].
  - rewrite bool_decide_eq_true_2 by done. simpl.
    rewrite _handle_shift_double_tap_eq by done.
    rewrite Hen2, Hen, (double_tap_hit_ext now s1 s2), (double_tap_hit_ext now self s1)
      by congruence.
    destruct (double_shift_shortcut_enabled self) eqn:Hena; simpl.
    + destruct (double_tap_hit now self) eqn:Hhit; cbv zeta.
      * eexists _, _. split; [reflexivity|]. unfold force_released. proj.
        assert (∀ k, k ∈ SHIFT_KEYS →
                  (<[KEY_LEFTSHIFT:=ModifierState_default]>
                     (<[KEY_RIGHTSHIFT:=ModifierState_default]> (modifiers s2))) !! k
                  = Some ModifierState_default) as Hcl.
        { intros k [->| ->]%elem_of_SHIFT_KEYS; [by rewrite lookup_insert_eq|].
          rewrite lookup_insert_ne by done. by rewrite lookup_insert_eq. }
        split; [intros k Hk; rewrite Hcl; eauto|].
        split; [by apply Hcl|]. repeat split; try done; congruence.
      * eexists _, _. split; [reflexivity|]. proj.
        split; [done|]. rewrite Hmods2, lookup_insert_eq.
        split; [done|]. repeat split; try done; try congruence.
        rewrite Heng2. subst s1 st1. unfold pressed_global, force_released. cbv zeta.
        case_decide; [|done]. by proj.
    + eexists _, _. split; [reflexivity|]. proj.
      split; [done|]. rewrite Hmods2, lookup_insert_eq.
      split; [done|]. repeat split; try done; try congruence.
      rewrite Heng2. subst s1 st1. unfold pressed_global, force_released. cbv zeta.
      case_decide; [|done]. by proj.
  - rewrite bool_decide_eq_false_2 by done. simpl.
    eexists _, _. split; [reflexivity|].
    split; [done|]. rewrite Hmods2, lookup_insert_eq.
    split; [done|]. repeat split; try done; try congruence.
    rewrite Heng2. subst s1 st1. unfold pressed_global, force_released. cbv zeta.
    case_decide; [done|]. by proj.
Qed.

Lemma tap_modifier_double_tap key_code now self state self' :
  shifts_registered self →
  modifiers self !! key_code = Some state →
  tap_modifier key_code now self = Some self' →
  completes_double_tap key_code now self = true →
  ∀ k, k ∈ SHIFT_KEYS → modifiers self' !! k = Some ModifierState_default.
Proof.
  intros Hreg E Htap Hhit.
  unfold completes_double_tap in Hhit.
  apply andb_true_iff in Hhit as [[Hs%bool_decide_eq_true Hena]%andb_true_iff Hhit].
  revert Htap. unfold tap_modifier.
  rewrite (_on_modifier_press_global_eq _ state) by done. simpl.
  destruct (pressed_global_frame key_code state self)
    as (Hlast & Htime & Hen & Hcombo & Hmod & Hreg1).
  specialize (Hreg1 Hreg).
  set (s1 := pressed_global key_code state self) in *.
  set (st1 := set_used_in_combo false (set_pressed true state)) in *.
  rewrite (_on_modifier_release_global_clean _ _ st1) by done.
  destruct (toggled_frame key_code st1 s1)
    as (Hlast2 & Htime2 & Hen2 & Hcombo2 & Hmods2 & Heng2).
  pose proof (shifts_registered_toggled key_code st1 s1 Hreg1) as Hreg2.
  set (s2 := toggled key_code st1 s1) in *.
  rewrite decide_True by done.
  rewrite _handle_shift_double_tap_eq by done.
  rewrite Hen2, Hen, Hena, (double_tap_hit_ext now s1 s2), (double_tap_hit_ext now self s1),
    Hhit by congruence.
  simpl. cbv zeta. intros [= <-]. unfold force_released. proj.
  intros k [->| ->]%elem_of_SHIFT_KEYS; [by rewrite lookup_insert_eq|].
  rewrite lookup_insert_ne by done. by rewrite lookup_insert_eq.
Qed.

(** C4, amended. From any state, a press of modifier [m] followed by its
    release, with nothing in between, leaves [m] not held; its latch is the
    negation of the prior one unless [m] is a Shift key whose release
    completes a double tap, in which case both Shift keys are force-released
    (their entries are back to the defaults) and [m] ends unlatched.  Hence
    two such taps, neither of which completes a double tap, restore the
    latch. *)
Theorem clean_tap_toggles_latch (key_code : Z) (now : Q) (self : QingBoard)
    (state : ModifierState) :
  shifts_registered self →
  modifiers self !! key_code = Some state →
  ∃ self' state',
    tap_modifier key_code now self = Some self' ∧
    modifiers self' !! key_code = Some state' ∧
    pressed state' = false ∧
    latched state' =
      (if completes_double_tap key_code now self then false
       else negb (latched state)) ∧
    (completes_double_tap key_code now self = true →
     ∀ k, k ∈ SHIFT_KEYS → modifiers self' !! k = Some ModifierState_default) ∧
    ∀ now2,
      completes_double_tap key_code now self = false →
      completes_double_tap key_code now2 self' = false →
      ∃ self'' state'',
        tap_modifier key_code now2 self' = Some self'' ∧
        modifiers self'' !! key_code = Some state'' ∧
        pressed state'' = false ∧
        latched state'' = latched state.
Proof.
  intros Hreg E.
  destruct (tap_modifier_spec key_code now self state Hreg E)
    as (s1 & st1 & Htap & Hreg1 & E1 & Hp1 & Hl1 & _).
  exists s1, st1. repeat (split; [done|]).
  split; [by apply (tap_modifier_double_tap key_code now self state)|].
  intros now2 Hno1 Hno2.
  destruct (tap_modifier_spec key_code now2 s1 st1 Hreg1 E1)
    as (s2 & st2 & Htap2 & _ & E2 & Hp2 & Hl2 & _).
  exists s2, st2. repeat (split; [done|]).
  rewrite Hl2, Hno2, Hl1, Hno1. by destruct (latched state).
Qed.

Lemma filter_ext_in {A} (P Q : A → Prop) `{∀ x, Decision (P x)} `{∀ x, Decision (Q x)}
    (l : list A) :
  (∀ x, x ∈ l → P x ↔ Q x) → filter P l = filter Q l.
Proof.
  induction l as [|a l IH]; intros Hl; [done|].
  rewrite !filter_cons, IH by (intros; apply Hl; by right).
  destruct (decide (P a)) as [Hp|Hp], (decide (Q a)) as [Hq|Hq]; try done;
    exfalso; apply (Hl a (list_elem_of_here _ _)) in Hp || apply (Hl a (list_elem_of_here _ _)) in Hq; done.
Qed.

Lemma press_all_down_keys l e :
  down_keys (foldl (λ e key, set_key_state key true e) e l)
  = down_keys e ∪ list_to_set l.
Proof.
  revert e. induction l as [|k l IH]; intros e; simpl.
  - set_solver.
  - rewrite IH, set_key_state_down_keys. set_solver.
Qed.

Lemma press_all_device l e :
  NoDup l →
  device (foldl (λ e key, set_key_state key true e) e l)
  = device e ++ ((λ m, (m, 1)) <$> filter (λ m, m ∉ down_keys e) l).
Proof.
  intros Hnd. revert e. induction Hnd as [|k l Hk Hnd IH]; intros e; simpl.
  - by rewrite app_nil_r.
  - rewrite IH, set_key_state_device, set_key_state_down_keys, <- app_assoc.
    f_equal. rewrite filter_cons. unfold key_event.
    assert (filter (λ m, m ∉ down_keys e ∪ {[k]}) l
            = filter (λ m, m ∉ down_keys e) l) as ->.
    { apply filter_ext_in. intros x Hx. set_solver. }
    case_bool_decide; by rewrite ?decide_True, ?decide_False by auto.
Qed.

Lemma tap_all_down_keys l e :
  down_keys (foldl (λ e key, tap_key key e) e l) = down_keys e.
Proof. revert e. induction l as [|k l IH]; intros e; simpl; [done|]. by rewrite IH. Qed.

Lemma tap_all_device l e :
  device (foldl (λ e key, tap_key key e) e l) = device e ++ (l ≫= taps 1).
Proof.
  revert e. induction l as [|k l IH]; intros e; simpl.
  - by rewrite app_nil_r.
  - rewrite IH. simpl. by rewrite <- app_assoc.
Qed.

Lemma release_all_down_keys l e :
  down_keys (foldl (λ e key, set_key_state key false e) e l)
  = down_keys e ∖ list_to_set l.
Proof.
  revert e. induction l as [|k l IH]; intros e; simpl.
  - set_solver.
  - rewrite IH, set_key_state_down_keys. set_solver.
Qed.

Lemma release_all_device l e :
  NoDup l → (∀ k, k ∈ l → k ∈ down_keys e) →
  device (foldl (λ e key, set_key_state key false e) e l)
  = device e ++ ((λ m, (m, 0)) <$> l).
Proof.
  intros Hnd. revert e. induction Hnd as [|k l Hk Hnd IH]; intros e Hdown; simpl.
  - by rewrite app_nil_r.
  - rewrite IH.
    + rewrite set_key_state_device, <- app_assoc. f_equal. unfold key_event.
      rewrite bool_decide_eq_true_2; [done|]. apply Hdown. by left.
    + intros x Hx. rewrite set_key_state_down_keys.
      apply elem_of_difference. split; [apply Hdown; by right|]. set_solver.
Qed.

Lemma _emit_shortcut_eq combo e :
  _emit_shortcut combo e =
  foldl (λ e key, set_key_state key false e)
    (foldl (λ e key, tap_key key e)
       (foldl (λ e key, set_key_state key true e) e (combo_mods combo))
       (combo_taps combo))
    (reverse (combo_mods combo)).
Proof.
  unfold _emit_shortcut, combo_taps, combo_mods. cbv zeta.
  by destruct (filter (λ code, code ∉ MODIFIER_KEYS) combo).
Qed.

Lemma _emit_shortcut_down_keys combo e k :
  k ∈ down_keys (_emit_shortcut combo e)
  ↔ k ∈ down_keys e ∧ ¬ (k ∈ combo ∧ k ∈ MODIFIER_KEYS).
Proof.
  rewrite _emit_shortcut_eq, release_all_down_keys, tap_all_down_keys,
    press_all_down_keys.
  rewrite elem_of_difference, elem_of_union, !elem_of_list_to_set, elem_of_reverse.
  unfold combo_mods. rewrite list_elem_of_filter. tauto.
Qed.










(** ** Examples of the modifier properties *)

Lemma shifts_registered_lookup self sl sr :
  modifiers self !! KEY_LEFTSHIFT = Some sl →
  modifiers self !! KEY_RIGHTSHIFT = Some sr →
  shifts_registered self.
Proof. intros Hl Hr k [->| ->]%elem_of_SHIFT_KEYS; eauto. Qed.

Lemma LEFTSHIFT_shift : KEY_LEFTSHIFT ∈ SHIFT_KEYS.
Proof. apply elem_of_SHIFT_KEYS. by left. Qed.

Lemma RIGHTSHIFT_shift : KEY_RIGHTSHIFT ∈ SHIFT_KEYS.
Proof. apply elem_of_SHIFT_KEYS. by right. Qed.

Lemma shift_release_notifies_detector_witness :
  ∃ self',
    _on_modifier_release_global KEY_LEFTSHIFT 2 shift_held = Some self' ∧
    last_shift_tap_at self' = 2%Q.
Proof.
  destruct (shift_release_notifies_detector KEY_LEFTSHIFT 2 shift_held
              {| pressed := true; latched := false; used_in_combo := false |})
    as (self' & Hrel & Hclean & _).
  - exact LEFTSHIFT_shift.
  - by eapply shifts_registered_lookup; vm_compute.
  - by vm_compute.
  - exists self'. split; [exact Hrel|]. destruct (Hclean eq_refl) as [_ ->]. by vm_compute.
Defined.

(** C2 as stated fails: Shift was tapped at 1.0 s, pressed again and used
    with A; its release at 1.2 s, within the window, neither records 1.2 nor
    consumes the recorded tap, and sends nothing. *)
Lemma combo_release_skips_detector :
  last_shift_tap_at shift_in_combo = 1%Q ∧
  double_shift_shortcut_enabled shift_in_combo = true ∧
  (used_in_combo <$> modifiers shift_in_combo !! KEY_LEFTSHIFT) = Some true ∧
  (last_shift_tap_at
     <$> _on_modifier_release_global KEY_LEFTSHIFT (12 # 10) shift_in_combo)
  = Some 1%Q ∧
  (device ∘ engine
     <$> _on_modifier_release_global KEY_LEFTSHIFT (12 # 10) shift_in_combo)
  = Some (device (engine shift_in_combo)).
Proof. split_and!; vm_compute; reflexivity. Qed.


Lemma clean_tap_toggles_latch_witness :
  ∃ self' state',
    tap_modifier KEY_LEFTCTRL 1 started = Some self' ∧
    modifiers self' !! KEY_LEFTCTRL = Some state' ∧
    pressed state' = false ∧ latched state' = true.
Proof.
  destruct (clean_tap_toggles_latch KEY_LEFTCTRL 1 started ModifierState_default)
    as (self' & state' & Htap & Hmod & Hp & Hl & _).
  - by eapply shifts_registered_lookup; vm_compute.
  - by vm_compute.
  - exists self', state'. repeat (split; [assumption|]). exact Hl.
Defined.


(** C4 as stated fails: Right Shift was tapped at 1.0 s; a tap of the
    unlatched Left Shift released at 1.1 s completes a double tap and leaves
    Left Shift unlatched. *)
Lemma shift_tap_after_other_shift_stays_unlatched :
  (latched <$> modifiers right_shift_tapped !! KEY_LEFTSHIFT) = Some false ∧
  (self' ← tap_modifier KEY_LEFTSHIFT (11 # 10) right_shift_tapped;
   latched <$> modifiers self' !! KEY_LEFTSHIFT) = Some false.
Proof. split_and!; vm_compute; reflexivity. Qed.

(** ** Timers, registry and contacts *)

(** ** Normal forms of the timer methods *)

Lemma set_glib_id self : set_glib (glib self) self = self.
Proof. by destruct self. Qed.
Lemma set_repeat_states_id self : set_repeat_states (repeat_states self) self = self.
Proof. by destruct self. Qed.
Lemma set_space_tracking_id self : set_space_tracking (space_tracking self) self = self.
Proof. by destruct self. Qed.
Lemma set_engine_id self : set_engine (engine self) self = self.
Proof. by destruct self. Qed.
Lemma set_modifiers_id self : set_modifiers (modifiers self) self = self.
Proof. by destruct self. Qed.

Lemma source_remove_if_eq src self :
  source_remove_if src self = set_glib (remove_if src (glib self)) self.
Proof.
  unfold source_remove_if, remove_if. destruct src as [id|]; [|by rewrite set_glib_id].
  destruct (id =? 0); [by rewrite set_glib_id | done].
Qed.

Lemma _cancel_repeat_eq touch_id self :
  _cancel_repeat touch_id self =
  set_glib (cancelled_glib touch_id self)
    (set_repeat_states (delete touch_id (repeat_states self)) self).
Proof.
  unfold _cancel_repeat, cancelled_glib.
  destruct (repeat_states self !! touch_id) as [state|] eqn:E.
  - by rewrite !source_remove_if_eq.
  - by rewrite delete_id, set_repeat_states_id, set_glib_id.
Qed.

Lemma remove_if_next src g : next_source_id (remove_if src g) = next_source_id g.
Proof. unfold remove_if. destruct src as [id|]; [destruct (id =? 0)|]; done. Qed.

Lemma remove_if_sources src g id x :
  sources (remove_if src g) !! id = Some x → sources g !! id = Some x.
Proof.
  unfold remove_if. destruct src as [i|]; [destruct (i =? 0)|]; try done.
  simpl. by intros [_ H]%lookup_delete_Some.
Qed.

Lemma remove_if_gone id g : id ≠ 0 → sources (remove_if (Some id) g) !! id = None.
Proof.
  intros Hid. unfold remove_if. apply Z.eqb_neq in Hid. rewrite Hid. simpl.
  apply lookup_delete_eq.
Qed.

Lemma cancelled_glib_next t self :
  next_source_id (cancelled_glib t self) = next_source_id (glib self).
Proof.
  unfold cancelled_glib. destruct (repeat_states self !! t); [|done].
  by rewrite !remove_if_next.
Qed.

Lemma cancelled_glib_sources t self id x :
  sources (cancelled_glib t self) !! id = Some x → sources (glib self) !! id = Some x.
Proof.
  unfold cancelled_glib. destruct (repeat_states self !! t); [|done].
  by intros ?%remove_if_sources%remove_if_sources.
Qed.

Lemma cancelled_glib_owned t self state id :
  repeat_states self !! t = Some state → owns state id → id ≠ 0 →
  sources (cancelled_glib t self) !! id = None.
Proof.
  intros E Hown Hid. unfold cancelled_glib. rewrite E.
  destruct Hown as [[-> ->]|[-> ->]]; simpl.
  - by apply remove_if_gone.
  - by apply remove_if_gone.
Qed.

(** ** The repeat timers stay consistent *)

Lemma timers_ok_ext self self' :
  touch_states self' = touch_states self →
  repeat_states self' = repeat_states self →
  glib self' = glib self →
  timers_ok self → timers_ok self'.
Proof.
  intros Ht Hr Hg [H1 H2 H3 H4 H5].
  split; rewrite ?Ht, ?Hr, ?Hg; done.
Qed.

(** Dropping sources, or repeat records together with the sources they own,
    keeps the bookkeeping consistent. *)
Lemma timers_ok_shrink self rs g :
  timers_ok self →
  (∀ t state, rs !! t = Some state → repeat_states self !! t = Some state) →
  (∀ id src, sources g !! id = Some src → sources (glib self) !! id = Some src) →
  next_source_id g = next_source_id (glib self) →
  (∀ t state id, repeat_states self !! t = Some state → rs !! t = None →
     owns state id → sources g !! id = None) →
  timers_ok (set_glib g (set_repeat_states rs self)).
Proof.
  intros [H1 H2 H3 H4 H5] Hrs Hg Hnext Hgone. split; proj.
  - intros t1 t2 [s1 E1] [s2 E2]. apply H1; eauto.
  - intros id src t k Hsrc Hrep.
    destruct (H2 id src t k (Hg _ _ Hsrc) Hrep) as (state & E & Hown).
    destruct (rs !! t) as [state'|] eqn:E'.
    + rewrite (Hrs _ _ E') in E. injection E as ->. eauto.
    + rewrite (Hgone t state id E E' Hown) in Hsrc. done.
  - intros id [src Hsrc]. rewrite Hnext. apply H3. eauto.
  - by rewrite Hnext.
  - intros t [state E]. apply H5. eauto.
Qed.

Lemma timers_ok_source_remove id self :
  timers_ok self → timers_ok (glib_source_remove id self).
Proof.
  intros H. 
  apply (timers_ok_ext (set_glib (source_remove id (glib self))
                          (set_repeat_states (repeat_states self) self))); try done.
  apply timers_ok_shrink; try done.
  - simpl. by intros ?? [_ ?]%lookup_delete_Some.
  - intros t state ? E E'. congruence.
Qed.

Lemma timers_ok_cancel_repeat touch_id self :
  timers_ok self → timers_ok (_cancel_repeat touch_id self).
Proof.
  intros H. rewrite _cancel_repeat_eq. apply timers_ok_shrink; try done.
  - by intros t state [_ ?]%lookup_delete_Some.
  - apply cancelled_glib_sources.
  - apply cancelled_glib_next.
  - intros t state id E E' Hown.
    apply lookup_delete_None in E' as [->|E']; [|congruence].
    destruct (sources (cancelled_glib t self) !! id) as [src|] eqn:Hsrc; [|done].
    apply cancelled_glib_sources in Hsrc as Hsrc'.
    destruct (ids_fresh self H id) as [Hpos _]; [eauto|].
    rewrite (cancelled_glib_owned t self state id) in Hsrc; [done..|lia].
Qed.

Lemma foldl_preserves {A S : Type} (P : S → Prop) (f : S → A → S) l s :
  P s → (∀ s x, P s → P (f s x)) → P (foldl f s l).
Proof. intros Hs Hf. revert s Hs. induction l; simpl; auto. Qed.

Lemma timers_ok_stop_all_other_repeats key touch_id self :
  timers_ok self → timers_ok (_stop_all_other_repeats key touch_id self).
Proof.
  intros H. unfold _stop_all_other_repeats.
  assert (∀ l s, touch_states s = touch_states self → timers_ok s →
            timers_ok (foldl (λ self '(tid, state),
              if bool_decide (tid ≠ touch_id)
                 && bool_decide (key_code state ∉ MODIFIER_KEYS)
                 && bool_decide (key_code state ≠ KEY_SPACE)
              then _cancel_repeat tid self else self) s l)) as Hfold.
  { induction l as [|[tid state] l IH]; intros s Hts Hs; simpl; [done|].
    apply IH.
    - destruct (_ && _); [|done]. by rewrite _cancel_repeat_eq.
    - destruct (_ && _); [|done]. by apply timers_ok_cancel_repeat. }
  by apply Hfold.
Qed.

Lemma _stop_all_other_repeats_frame key touch_id self :
  ∃ rs g, _stop_all_other_repeats key touch_id self
          = set_glib g (set_repeat_states rs self).
Proof.
  unfold _stop_all_other_repeats.
  generalize (map_to_list (touch_states self)) as l.
  assert (∀ l rs g, ∃ rs' g',
            foldl (λ self '(tid, state),
              if bool_decide (tid ≠ touch_id)
                 && bool_decide (key_code state ∉ MODIFIER_KEYS)
                 && bool_decide (key_code state ≠ KEY_SPACE)
              then _cancel_repeat tid self else self)
              (set_glib g (set_repeat_states rs self)) l
            = set_glib g' (set_repeat_states rs' self)) as Hfold.
  { induction l as [|[tid state] l IH]; intros rs g; simpl; [eauto|].
    destruct (_ && _); [|apply IH].
    rewrite _cancel_repeat_eq.
    apply (IH (delete tid rs)
              (cancelled_glib tid (set_glib g (set_repeat_states rs self)))). }
  intros l. destruct (Hfold l (repeat_states self) (glib self)) as (rs & g & E).
  exists rs, g. rewrite <- E. by rewrite set_repeat_states_id, set_glib_id.
Qed.

Lemma _stop_all_other_repeats_lookup key touch_id self tid state :
  tid ≠ touch_id →
  touch_states self !! tid = Some state →
  key_code state ∉ MODIFIER_KEYS → key_code state ≠ KEY_SPACE →
  repeat_states (_stop_all_other_repeats key touch_id self) !! tid = None.
Proof.
  intros Hne Hts Hmod Hsp. unfold _stop_all_other_repeats.
  apply elem_of_map_to_list in Hts.
  revert Hts. generalize (map_to_list (touch_states self)) as l.
  set (f := λ (self : QingBoard) '(tid, state),
              if bool_decide (tid ≠ touch_id)
                 && bool_decide (key_code state ∉ MODIFIER_KEYS)
                 && bool_decide (key_code state ≠ KEY_SPACE)
              then _cancel_repeat tid self else self).
  assert (∀ l s, repeat_states s !! tid = None →
            repeat_states (foldl f s l) !! tid = None) as Hmono.
  { induction l as [|[x st] l IH]; intros s Hs; simpl; [done|].
    apply IH. destruct (_ && _); [|done].
    rewrite _cancel_repeat_eq. proj. apply lookup_delete_None. by right. }
  intros l. revert self. induction l as [|[x st] l IH]; intros self Hin.
  - by apply elem_of_nil in Hin.
  - apply elem_of_cons in Hin as [Heq|Hin]; simpl.
    + injection Heq as <- <-. apply Hmono.
      rewrite !bool_decide_eq_true_2 by done. simpl.
      rewrite _cancel_repeat_eq. proj. apply lookup_delete_eq.
    + by apply IH.
Qed.

(** Registering a callback that is not a repeat callback. *)
Lemma timers_ok_timeout_add interval f self :
  (∀ t k, ¬ repeats f t k) →
  timers_ok self →
  timers_ok (set_glib (timeout_add interval f (glib self)).2 self).
Proof.
  intros Hf [H1 H2 H3 H4 H5]. split; proj; simpl; try done.
  - intros id src t k Hsrc Hrep.
    apply lookup_insert_Some in Hsrc as [[<- <-]|[Hne Hsrc]].
    + by destruct (Hf t k).
    + eauto.
  - intros id [src Hsrc].
    apply lookup_insert_Some in Hsrc as [[<- <-]|[Hne Hsrc]]; [lia|].
    destruct (H3 id); [eauto|]. lia.
  - lia.
Qed.

Lemma regular_guard key :
  regular key →
  bool_decide (key ∈ MODIFIER_KEYS) || bool_decide (key = KEY_SPACE) = false.
Proof.
  intros (_ & Hm & Hs).
  by rewrite bool_decide_eq_false_2, bool_decide_eq_false_2.
Qed.

(** [_start_repeat] for a regular key, when no other contact repeats. *)
Lemma _start_repeat_eq touch_id key self :
  regular key →
  _start_repeat touch_id key self =
  let s := _cancel_repeat touch_id self in
  set_repeat_states
    (<[touch_id := {| delay_source := Some (next_source_id (glib s));
                      repeat_source := None |}]> (repeat_states s))
    (set_glib (timeout_add 420 (cb_repeat_delay_done touch_id key) (glib s)).2 s).
Proof. intros Hreg. unfold _start_repeat. by rewrite regular_guard. Qed.

Lemma timers_ok_start_repeat touch_id key self state :
  regular key →
  touch_states self !! touch_id = Some state → regular (key_code state) →
  (∀ t, is_Some (repeat_states self !! t) → t = touch_id) →
  timers_ok self →
  timers_ok (_start_repeat touch_id key self) ∧
  ∀ id src t k,
    sources (glib (_start_repeat touch_id key self)) !! id = Some src →
    repeats (callback src) t k → t = touch_id ∧ k = key.
Proof.
  intros Hreg Hts Hregst Honly Hok.
  rewrite _start_repeat_eq by done. cbv zeta.
  pose proof (timers_ok_cancel_repeat touch_id self Hok) as [H1 H2 H3 H4 H5].
  assert (repeat_states (_cancel_repeat touch_id self) = ∅) as Hempty.
  { apply map_empty. intros t. rewrite _cancel_repeat_eq. proj.
    apply lookup_delete_None.
    destruct (repeat_states self !! t) eqn:E; [|by right]. left.
    symmetry. apply Honly. eauto. }
  assert (touch_states (_cancel_repeat touch_id self) = touch_states self) as Hts'.
  { by rewrite _cancel_repeat_eq. }
  set (s := _cancel_repeat touch_id self) in *.
  assert (∀ id src t k,
            sources (glib s) !! id = Some src → ¬ repeats (callback src) t k) as Hnone.
  { intros id src t k Hsrc Hrep. destruct (H2 id src t k Hsrc Hrep) as (st & E & _).
    by rewrite Hempty in E. }
  split.
  - split; proj; simpl; rewrite ?Hempty.
    + intros t1 t2 [s1 E1] [s2 E2].
      apply lookup_insert_Some in E1 as [[<- _]|[_ E1]]; [|done].
      apply lookup_insert_Some in E2 as [[<- _]|[_ E2]]; done.
    + intros id src t k Hsrc Hrep.
      apply lookup_insert_Some in Hsrc as [[<- <-]|[Hne Hsrc]].
      * destruct Hrep as [Hrep|Hrep]; simpl in Hrep; [|done].
        injection Hrep as <- <-. rewrite lookup_insert_eq.
        eexists. split; [done|]. by left.
      * by destruct (Hnone id src t k).
    + intros id [src Hsrc].
      apply lookup_insert_Some in Hsrc as [[<- <-]|[Hne Hsrc]]; [lia|].
      destruct (H3 id); [eauto|]. lia.
    + lia.
    + intros t [st E]. apply lookup_insert_Some in E as [[<- _]|[_ E]]; [|done].
      rewrite Hts'. eauto.
  - proj. simpl. intros id src t k Hsrc Hrep.
    apply lookup_insert_Some in Hsrc as [[<- <-]|[Hne Hsrc]].
    + destruct Hrep as [Hrep|Hrep]; simpl in Hrep; [|done].
      by injection Hrep as <- <-.
    + by destruct (Hnone id src t k).
Qed.

(** ** The modifier registry stays consistent *)

Lemma mods_ok_shifts_registered self : mods_ok self → shifts_registered self.
Proof. intros [H _] k Hk. by apply H, SHIFT_KEYS_modifiers. Qed.

Lemma mods_ok_ext self self' :
  modifiers self' = modifiers self →
  down_keys (engine self') = down_keys (engine self) →
  mods_ok self → mods_ok self'.
Proof. intros Hm Hd [H1 H2]. split; rewrite ?Hm, ?Hd; done. Qed.

(** Writing an entry that is not held, or one that is held together with its
    key going down. *)
Lemma mods_ok_update key state (down : gset Z) e self :
  down_keys e = down →
  (∀ k, k ≠ key → k ∈ down_keys (engine self) → k ∈ down) →
  (pressed state = true → key ∈ down) →
  mods_ok self →
  mods_ok (set_engine e (update_modifier key state self)).
Proof.
  intros He Hkeep Hkey [H1 H2]. split; proj.
  - intros k Hk. destruct (decide (k = key)) as [->|Hne].
    + rewrite lookup_insert_eq. eauto.
    + rewrite lookup_insert_ne by done. by apply H1.
  - intros k st Hk E Hp. rewrite He. destruct (decide (k = key)) as [->|Hne].
    + rewrite lookup_insert_eq in E. injection E as <-. by apply Hkey.
    + rewrite lookup_insert_ne in E by done. apply Hkeep; [done|]. by eapply H2.
Qed.

Lemma mods_ok_force_released key self :
  mods_ok self → mods_ok (force_released key self).
Proof.
  intros H. unfold force_released.
  eapply (mods_ok_ext (set_engine (set_key_state key false (engine self))
                         (update_modifier key ModifierState_default self)));
    [done..|].
  eapply mods_ok_update; [done| |done|done].
  intros k Hne Hk. rewrite set_key_state_down_keys. set_solver.
Qed.

Lemma mods_ok_pressed_global key state self :
  mods_ok self → mods_ok (pressed_global key state self).
Proof.
  intros H. unfold pressed_global. cbv zeta.
  set (s1 := update_modifier key _ self).
  set (s2 := if decide (key ∈ SHIFT_KEYS) then force_released (opposite key) s1 else s1).
  assert (mods_registered_only :
            ∀ k, k ∈ MODIFIER_KEYS → is_Some (modifiers s2 !! k)).
  { intros k Hk. unfold s2, s1, force_released, update_modifier.
    destruct H as [H _]. specialize (H k Hk).
    case_decide; proj.
    - destruct (decide (k = opposite key)) as [->|]; [rewrite lookup_insert_eq; eauto|].
      rewrite lookup_insert_ne by done.
      destruct (decide (k = key)) as [->|]; [rewrite lookup_insert_eq; eauto|].
      by rewrite lookup_insert_ne.
    - destruct (decide (k = key)) as [->|]; [rewrite lookup_insert_eq; eauto|].
      by rewrite lookup_insert_ne. }
  split; proj; [done|].
  intros k st Hk E Hp. rewrite set_key_state_down_keys.
  destruct (decide (k = key)) as [->|Hne]; [set_solver|].
  apply elem_of_union_l.
  unfold s2, s1, force_released, update_modifier in *. destruct H as [_ H2].
  case_decide; proj in E; proj.
  - rewrite set_key_state_down_keys.
    destruct (decide (k = opposite key)) as [->|Hno].
    + rewrite lookup_insert_eq in E. by injection E as <-.
    + rewrite !lookup_insert_ne in E by done.
      apply elem_of_difference. split; [by eapply H2 | set_solver].
  - rewrite lookup_insert_ne in E by done. by eapply H2.
Qed.

Lemma mods_ok_toggled key state self :
  mods_ok self → mods_ok (toggled key state self).
Proof.
  intros H. unfold toggled.
  destruct (latched state); rewrite _paint_modifier_eq.
  - eapply (mods_ok_ext
              (set_engine (set_key_state key false (engine self))
                 (update_modifier key (set_latched false (set_pressed false state)) self))).
    { unfold update_modifier. proj. by rewrite insert_insert_eq. }
    { done. }
    eapply mods_ok_update; [done| |done|done].
    intros k Hne Hk. rewrite set_key_state_down_keys. set_solver.
  - eapply (mods_ok_ext
              (set_engine (engine self)
                 (update_modifier key (set_latched true (set_pressed false state)) self))).
    { unfold update_modifier. proj. by rewrite insert_insert_eq. }
    { done. }
    eapply mods_ok_update; [done|auto|done|done].
Qed.

Lemma mods_ok_shifts_cleared self e :
  mods_ok self →
  (∀ k, k ∈ SHIFT_KEYS → modifiers self !! k = Some ModifierState_default) →
  mods_ok (set_engine e self).
Proof.
  intros [H1 H2] Hcl. split; proj; [done|].
  intros k st Hk E Hp. rewrite (Hcl k Hk) in E. by injection E as <-.
Qed.

Lemma mods_ok_handle_shift_double_tap now self :
  mods_ok self →
  ∃ self', _handle_shift_double_tap now self = Some self' ∧ mods_ok self' ∧
    touch_states self' = touch_states self ∧
    repeat_states self' = repeat_states self ∧
    glib self' = glib self.
Proof.
  intros H. rewrite _handle_shift_double_tap_eq by by apply mods_ok_shifts_registered.
  eexists. split; [done|].
  destruct (negb (double_shift_shortcut_enabled self));
    [split; [by apply (mods_ok_ext self)|done]|].
  destruct (double_tap_hit now self); [|split; [by apply (mods_ok_ext self)|done]].
  cbv zeta. split; [|done].
  set (released := force_released KEY_LEFTSHIFT (force_released KEY_RIGHTSHIFT self)).
  apply (mods_ok_ext
           (set_engine (_emit_shortcut (double_shift_shortcut self) (engine released))
                       released)); [reflexivity..|]. unfold released.
  apply mods_ok_shifts_cleared.
  - by do 2 apply mods_ok_force_released.
  - intros k [->| ->]%elem_of_SHIFT_KEYS; unfold force_released; proj.
    + by rewrite lookup_insert_eq.
    + rewrite lookup_insert_ne by done. by rewrite lookup_insert_eq.
Qed.

Lemma mods_ok_release_global key now self :
  mods_ok self → key ∈ MODIFIER_KEYS →
  ∃ self', _on_modifier_release_global key now self = Some self' ∧ mods_ok self' ∧
    touch_states self' = touch_states self ∧
    repeat_states self' = repeat_states self ∧
    glib self' = glib self.
Proof.
  intros H Hk. destruct (mods_registered self H key Hk) as [state E].
  destruct (used_in_combo state) eqn:Hc.
  - unfold _on_modifier_release_global. rewrite E. simpl. rewrite Hc.
    eexists. split; [done|].
    destruct (latched state); simpl; rewrite ?_paint_modifier_eq.
    + split; [|done].
      eapply (mods_ok_ext
                (set_engine (engine self)
                   (update_modifier key (set_used_in_combo false (set_pressed false state))
                      self))).
      { unfold update_modifier. proj. by rewrite insert_insert_eq. }
      { done. }
      eapply mods_ok_update; [done|auto|done|done].
    + split; [|done].
      eapply (mods_ok_ext
                (set_engine (set_key_state key false (engine self))
                   (update_modifier key (set_used_in_combo false (set_pressed false state))
                      self))).
      { unfold update_modifier. proj. by rewrite insert_insert_eq. }
      { done. }
      eapply mods_ok_update; [done| |done|done].
      intros k Hne Hk'. rewrite set_key_state_down_keys. set_solver.
  - rewrite (_on_modifier_release_global_clean _ _ state) by done.
    pose proof (mods_ok_toggled key state self H) as Hok.
    assert (touch_states (toggled key state self) = touch_states self ∧
            repeat_states (toggled key state self) = repeat_states self ∧
            glib (toggled key state self) = glib self) as (Ht & Hr & Hg).
    { unfold toggled. destruct (latched state); by rewrite _paint_modifier_eq. }
    case_decide.
    + destruct (mods_ok_handle_shift_double_tap now _ Hok) as (s' & E' & Hok' & ? & ? & ?).
      exists s'. split; [done|]. split; [done|]. split_and!; congruence.
    + eexists. split; [done|]. by split.
Qed.

Lemma mods_ok_press_global key self :
  mods_ok self → key ∈ MODIFIER_KEYS →
  ∃ state, modifiers self !! key = Some state ∧
    _on_modifier_press_global key self = Some (pressed_global key state self) ∧
    mods_ok (pressed_global key state self).
Proof.
  intros H Hk. destruct (mods_registered self H key Hk) as [state E].
  exists state. split; [done|]. split.
  - apply _on_modifier_press_global_eq; [done|]. by apply mods_ok_shifts_registered.
  - by apply mods_ok_pressed_global.
Qed.

Lemma pressed_global_timers key state self :
  touch_states (pressed_global key state self) = touch_states self ∧
  repeat_states (pressed_global key state self) = repeat_states self ∧
  glib (pressed_global key state self) = glib self.
Proof. unfold pressed_global, force_released. cbv zeta. by case_decide. Qed.

(** ** One-shot modifiers *)

Lemma release_one_shot_fold l self :
  foldl (λ self '(key_code, state),
           if latched state && negb (pressed state) then
             let self := update_modifier key_code (set_latched false state) self in
             _paint_modifier key_code false
               (engine_set_key_state key_code false self)
           else self) self l
  = set_key_widgets (widgets_after l (key_widgets self))
      (set_engine (engine_after l (engine self))
         (set_modifiers (mods_after l (modifiers self)) self)).
Proof.
  revert self. induction l as [|[k state] l IH]; intros self; simpl.
  - by destruct self.
  - rewrite IH. fold (one_shot state).
    destruct (one_shot state); [|done].
    by rewrite _paint_modifier_eq.
Qed.

Lemma _release_one_shot_modifiers_eq self :
  _release_one_shot_modifiers self =
  let l := map_to_list (modifiers self) in
  set_key_widgets (widgets_after l (key_widgets self))
    (set_engine (engine_after l (engine self))
       (set_modifiers (mods_after l (modifiers self)) self)).
Proof. apply release_one_shot_fold. Qed.

Lemma mods_after_lookup l m k :
  NoDup l.*1 →
  mods_after l m !! k =
  match (list_to_map l : gmap Z ModifierState) !! k with
  | Some state => if one_shot state then Some (set_latched false state) else m !! k
  | None => m !! k
  end.
Proof.
  revert m. induction l as [|[k0 st0] l IH]; intros m Hnd; [done|].
  apply NoDup_cons in Hnd as [Hk0 Hnd]. simpl.
  unfold mods_after in *. simpl. rewrite IH by done.
  destruct (decide (k = k0)) as [->|Hne].
  - rewrite lookup_insert_eq, (not_elem_of_list_to_map_1 _ _ Hk0).
    destruct (one_shot st0); [by rewrite lookup_insert_eq|done].
  - rewrite lookup_insert_ne by done.
    destruct (one_shot st0); [by rewrite lookup_insert_ne|done].
Qed.

Lemma mods_after_map_to_list m :
  mods_after (map_to_list m) m =
  (λ state, if one_shot state then set_latched false state else state) <$> m.
Proof.
  apply map_eq. intros k.
  rewrite mods_after_lookup by apply NoDup_fst_map_to_list.
  rewrite list_to_map_to_list, lookup_fmap.
  destruct (m !! k) as [state|]; simpl; [|done]. by destruct (one_shot state).
Qed.

Lemma engine_after_down_keys l e k :
  k ∈ down_keys (engine_after l e) ↔
  k ∈ down_keys e ∧ ¬ ∃ state, (k, state) ∈ l ∧ one_shot state = true.
Proof.
  revert e. induction l as [|[k0 st0] l IH]; intros e.
  - simpl. split; [|by intros []]. intros H. split; [done|].
    intros (st & Hin & _). by apply elem_of_nil in Hin.
  - unfold engine_after in *. simpl. rewrite IH.
    destruct (one_shot st0) eqn:Hos.
    + rewrite set_key_state_down_keys, elem_of_difference, elem_of_singleton.
      split.
      * intros [[Hk Hne] Hno]. split; [done|].
        intros (st & [Heq|Hin]%elem_of_cons & Hs); [congruence|]. apply Hno. eauto.
      * intros [Hk Hno]. split_and!; [done| |].
        -- intros ->. apply Hno. exists st0. split; [left|done].
        -- intros (st & Hin & Hs). apply Hno. exists st. split; [by right|done].
    + split.
      * intros [Hk Hno]. split; [done|].
        intros (st & [Heq|Hin]%elem_of_cons & Hs); [congruence|]. apply Hno. eauto.
      * intros [Hk Hno]. split; [done|].
        intros (st & Hin & Hs). apply Hno. exists st. split; [by right|done].
Qed.

Lemma one_shot_releases_cons k state l (d : gset Z) :
  one_shot_releases ((k, state) :: l) d =
  (if one_shot state && bool_decide (k ∈ d) then [(k, 0)] else [])
  ++ one_shot_releases l d.
Proof. done. Qed.

Lemma one_shot_releases_ext l (d d' : gset Z) :
  (∀ k state, (k, state) ∈ l → k ∈ d ↔ k ∈ d') →
  one_shot_releases l d = one_shot_releases l d'.
Proof.
  induction l as [|[k st] l IH]; intros H; [done|].
  rewrite !one_shot_releases_cons, IH.
  - f_equal. destruct (one_shot st); [|done]. simpl.
    assert (bool_decide (k ∈ d) = bool_decide (k ∈ d')) as ->; [|done].
    apply bool_decide_ext, (H k st). left.
  - intros k' st' Hin. apply (H k' st'). by right.
Qed.

Lemma engine_after_device l e :
  NoDup l.*1 →
  device (engine_after l e) = device e ++ one_shot_releases l (down_keys e).
Proof.
  revert e. induction l as [|[k0 st0] l IH]; intros e Hnd.
  - simpl. by rewrite app_nil_r.
  - apply NoDup_cons in Hnd as [Hk0 Hnd].
    rewrite one_shot_releases_cons.
    unfold engine_after in *. simpl. rewrite IH by done.
    destruct (one_shot st0) eqn:Hos; simpl; [|done].
    rewrite set_key_state_device, set_key_state_down_keys, <- app_assoc. f_equal.
    f_equal.
    apply one_shot_releases_ext. intros k st Hin.
    rewrite elem_of_difference, elem_of_singleton. split; [by intros []|].
    intros Hk. split; [done|]. intros Heq. subst k. apply Hk0.
    change (k0 ∈ l.*1). apply list_elem_of_fmap. exists (k0, st). by split.
Qed.

Lemma elem_of_one_shot_releases l d ev :
  ev ∈ one_shot_releases l d ↔
  ∃ k state, ev = (k, 0) ∧ (k, state) ∈ l ∧ one_shot state = true ∧ k ∈ d.
Proof.
  unfold one_shot_releases. rewrite list_elem_of_bind. split.
  - intros ([k st] & Hev & Hin).
    destruct (one_shot st) eqn:Hos; simpl in Hev; [|by apply elem_of_nil in Hev].
    case_bool_decide; [|by apply elem_of_nil in Hev].
    apply list_elem_of_singleton in Hev. eauto 10.
  - intros (k & st & -> & Hin & Hos & Hk). exists (k, st). split; [|done].
    rewrite Hos, bool_decide_eq_true_2 by done. simpl. by left.
Qed.

Lemma release_one_shot_modifiers self k :
  modifiers (_release_one_shot_modifiers self) !! k =
  (λ state, if one_shot state then set_latched false state else state)
    <$> modifiers self !! k.
Proof.
  rewrite _release_one_shot_modifiers_eq. cbv zeta. proj.
  by rewrite mods_after_map_to_list, lookup_fmap.
Qed.

Lemma release_one_shot_down_keys self k :
  k ∈ down_keys (engine (_release_one_shot_modifiers self)) ↔
  k ∈ down_keys (engine self) ∧
  ¬ ∃ state, modifiers self !! k = Some state ∧ one_shot state = true.
Proof.
  rewrite _release_one_shot_modifiers_eq. cbv zeta. proj.
  rewrite engine_after_down_keys.
  by setoid_rewrite elem_of_map_to_list.
Qed.

Lemma release_one_shot_device self :
  device (engine (_release_one_shot_modifiers self)) =
  device (engine self)
  ++ one_shot_releases (map_to_list (modifiers self)) (down_keys (engine self)).
Proof.
  rewrite _release_one_shot_modifiers_eq. cbv zeta. proj.
  apply engine_after_device, NoDup_fst_map_to_list.
Qed.

Lemma mods_ok_release_one_shot self :
  mods_ok self → mods_ok (_release_one_shot_modifiers self).
Proof.
  intros [H1 H2]. split.
  - intros k Hk. rewrite release_one_shot_modifiers.
    destruct (H1 k Hk) as [st ->]. simpl. eauto.
  - intros k st Hk E Hp. rewrite release_one_shot_modifiers in E.
    destruct (modifiers self !! k) as [st0|] eqn:E0; [|done].
    simpl in E. injection E as <-.
    assert (pressed st0 = true) as Hp0 by (by destruct (one_shot st0)).
    assert (one_shot st0 = false) as Hno.
    { unfold one_shot. rewrite Hp0. apply andb_false_r. }
    apply release_one_shot_down_keys. split; [by eapply H2|].
    intros (st' & E' & Hos). congruence.
Qed.

Lemma _update_shift_labels_eq self :
  shifts_registered self →
  ∃ b, _update_shift_labels self = Some (set_shift_labels b self).
Proof.
  intros Hreg. unfold _update_shift_labels. rewrite elements_SHIFT_KEYS. simpl.
  destruct (Hreg KEY_RIGHTSHIFT) as [sr ->]; [by apply elem_of_SHIFT_KEYS; right|].
  destruct (Hreg KEY_LEFTSHIFT) as [sl ->]; [by apply elem_of_SHIFT_KEYS; left|].
  simpl. destruct (_ || _); simpl; [eauto|]. destruct (_ || _); simpl; eauto.
Qed.

Lemma shifts_registered_release_one_shot self :
  shifts_registered self → shifts_registered (_release_one_shot_modifiers self).
Proof.
  intros H k Hk. rewrite release_one_shot_modifiers.
  destruct (H k Hk) as [st ->]. simpl. eauto.
Qed.

(** ** Normal forms of the contact handlers *)

Lemma _cancel_space_long_press_none touch_id self :
  space_tracking self !! touch_id = None →
  _cancel_space_long_press touch_id self = self.
Proof. intros E. unfold _cancel_space_long_press. by rewrite E. Qed.

Lemma _finish_space_tracking_eq touch_id self :
  _finish_space_tracking touch_id self =
  match space_tracking self !! touch_id with
  | None => engine_tap_key KEY_SPACE self
  | Some tracking =>
      let self := set_space_tracking (delete touch_id (space_tracking self)) self in
      if negb (cursor_mode tracking) then engine_tap_key KEY_SPACE self else self
  end.
Proof.
  unfold _finish_space_tracking.
  destruct (space_tracking self !! touch_id) as [tracking|]; [|done].
  rewrite _cancel_space_long_press_none; [done|]. proj. apply lookup_delete_eq.
Qed.

Lemma _finish_space_tracking_frame touch_id self :
  let self' := _finish_space_tracking touch_id self in
  device (engine self') = device (engine self) ++ space_tap touch_id self ∧
  down_keys (engine self') = down_keys (engine self) ∧
  modifiers self' = modifiers self ∧
  touch_states self' = touch_states self ∧
  repeat_states self' = repeat_states self ∧
  glib self' = glib self ∧
  key_widgets self' = key_widgets self ∧
  key_press_count self' = key_press_count self ∧
  key_rects self' = key_rects self ∧
  space_tracking self' = delete touch_id (space_tracking self).
Proof.
  cbv zeta. rewrite _finish_space_tracking_eq. unfold space_tap.
  destruct (space_tracking self !! touch_id) as [tracking|] eqn:E.
  - cbv zeta. destruct (cursor_mode tracking); simpl; proj; rewrite ?app_nil_r; done.
  - proj. by rewrite delete_id.
Qed.

Lemma _on_input_end_eq touch_id event_time now state self :
  touch_states self !! touch_id = Some state →
  _on_input_end touch_id event_time now self =
  let key := key_code state in
  let new_count := if 0 <? count_of key self then count_of key self - 1 else 0 in
  let self := contact_removed touch_id state self in
  if bool_decide (key = KEY_CAPSLOCK) then Some self
  else if bool_decide (key ∈ MODIFIER_KEYS) then
    _on_modifier_release_touch touch_id key now self
  else if bool_decide (key = KEY_SPACE) then
    self ← _update_shift_labels
             (_release_one_shot_modifiers (_finish_space_tracking touch_id self));
    Some (_update_visual key false self)
  else
    self ← _update_shift_labels
             (_release_one_shot_modifiers (_cancel_repeat touch_id self));
    Some (if new_count =? 0 then _update_visual key false self else self).
Proof.
  intros E. unfold _on_input_end, contact_removed, count_of. rewrite E. cbv zeta. proj.
  by destruct (0 <? default 0 (key_press_count self !! key_code state)).
Qed.

Lemma contact_removed_frame touch_id state self :
  let self' := contact_removed touch_id state self in
  touch_states self' = delete touch_id (touch_states self) ∧
  modifiers self' = modifiers self ∧
  engine self' = engine self ∧
  repeat_states self' = repeat_states self ∧
  glib self' = glib self ∧
  space_tracking self' = space_tracking self ∧
  key_widgets self' = key_widgets self ∧
  key_rects self' = key_rects self.
Proof. cbv zeta. unfold contact_removed. cbv zeta. by destruct (0 <? _). Qed.

(** What [_release_one_shot_modifiers] makes of the registry, seen from a
    state [self] whose registry and down-set it starts from. *)
Lemma one_shot_release_outcome self s2 self' pre :
  modifiers s2 = modifiers self →
  down_keys (engine s2) = down_keys (engine self) →
  device (engine s2) = device (engine self) ++ pre →
  modifiers self' = modifiers (_release_one_shot_modifiers s2) →
  engine self' = engine (_release_one_shot_modifiers s2) →
  ∃ events,
    device (engine self') = device (engine self) ++ events ∧
    ∀ m s,
      modifiers self !! m = Some s →
      (latched s = true → pressed s = false →
       modifiers self' !! m = Some (set_latched false s) ∧
       (m ∉ down_keys (engine self')) ∧
       (m ∈ down_keys (engine self) → (m, 0) ∈ events)) ∧
      (pressed s = true →
       modifiers self' !! m = Some s ∧
       (m ∈ down_keys (engine self) → m ∈ down_keys (engine self'))) ∧
      (latched s = false → modifiers self' !! m = Some s).
Proof.
  intros Hm2 Hd2 Hdev2 Hm' He'.
  exists (pre ++ one_shot_releases (map_to_list (modifiers self))
                                  (down_keys (engine self))).
  split.
  { rewrite He', release_one_shot_device, Hm2, Hd2, Hdev2. by rewrite app_assoc. }
  intros m s Hs.
  assert (modifiers self' !! m =
          Some (if one_shot s then set_latched false s else s)) as Hlook.
  { by rewrite Hm', release_one_shot_modifiers, Hm2, Hs. }
  assert (m ∈ down_keys (engine self') ↔
          m ∈ down_keys (engine self) ∧ one_shot s = false) as Hdown.
  { rewrite He', release_one_shot_down_keys, Hm2, Hd2. split.
    - intros [Hin Hno]. split; [done|].
      destruct (one_shot s) eqn:Hos; [|done]. destruct Hno. eauto.
    - intros [Hin Hos]. split; [done|]. intros (s' & Hs' & Hos'). congruence. }
  unfold one_shot in *. split_and!.
  - intros Hl Hp. rewrite Hl, Hp in *. simpl in *. split_and!; [done| |].
    + rewrite Hdown. by intros [].
    + intros Hin. apply elem_of_app. right.
      apply elem_of_one_shot_releases. exists m, s.
      split_and!; [done| |by unfold one_shot; rewrite Hl, Hp|done].
      by apply elem_of_map_to_list.
  - intros Hp. rewrite Hp, andb_false_r in *. split; [done|]. by rewrite Hdown.
  - intros Hl. by rewrite Hl in *.
Qed.

(** ** MutterBoard: normal forms *)

Ltac mb_proj :=
  cbn [MutterBoard.engine MutterBoard.modifiers MutterBoard.buttons
       MutterBoard.shift_labels MutterBoard.repeat_states MutterBoard.active_keys
       MutterBoard.last_shift_tap_at MutterBoard.double_shift_timeout_ms
       MutterBoard.double_shift_shortcut MutterBoard.glib
       MutterBoard.set_engine MutterBoard.set_modifiers MutterBoard.set_buttons
       MutterBoard.set_shift_labels MutterBoard.set_repeat_states
       MutterBoard.set_active_keys MutterBoard.set_last_shift_tap_at
       MutterBoard.set_glib MutterBoard.update_modifier
       MutterBoard.engine_set_key_state MutterBoard.glib_source_remove
       MutterBoard._paint_pressed
       MutterBoard.sources MutterBoard.next_source_id
       MutterBoard.timeout_add MutterBoard.source_remove
       pressed latched used_in_combo set_pressed set_latched set_used_in_combo
       device down_keys fst snd].

Lemma mb_set_buttons_id self : MutterBoard.set_buttons (MutterBoard.buttons self) self = self.
Proof. by destruct self. Qed.

Lemma mb_paint_modifier_eq key_code active self :
  MutterBoard._paint_modifier key_code active self
  = MutterBoard.set_buttons (painted key_code active (MutterBoard.buttons self)) self.
Proof.
  unfold MutterBoard._paint_modifier, MutterBoard.modifier_buttons_get, painted.
  case_decide; [|by rewrite mb_set_buttons_id].
  destruct (MutterBoard.buttons self !! key_code) eqn:E; [done|].
  by rewrite alter_id', mb_set_buttons_id.
Qed.

Lemma mb_release_one_shot_fold l self :
  foldl (λ self '(key_code, state),
           if latched state && negb (pressed state) then
             let self := MutterBoard.update_modifier key_code (set_latched false state)
                           self in
             MutterBoard._paint_modifier key_code false
               (MutterBoard.engine_set_key_state key_code false self)
           else self) self l
  = MutterBoard.set_buttons (widgets_after l (MutterBoard.buttons self))
      (MutterBoard.set_engine (engine_after l (MutterBoard.engine self))
         (MutterBoard.set_modifiers (mods_after l (MutterBoard.modifiers self)) self)).
Proof.
  revert self. induction l as [|[k state] l IH]; intros self; simpl.
  - by destruct self.
  - rewrite IH. fold (one_shot state).
    destruct (one_shot state); [|done].
    by rewrite mb_paint_modifier_eq.
Qed.

Lemma mb_release_one_shot_modifiers_eq self :
  MutterBoard._release_one_shot_modifiers self =
  let l := map_to_list (MutterBoard.modifiers self) in
  MutterBoard.set_buttons (widgets_after l (MutterBoard.buttons self))
    (MutterBoard.set_engine (engine_after l (MutterBoard.engine self))
       (MutterBoard.set_modifiers (mods_after l (MutterBoard.modifiers self)) self)).
Proof. apply mb_release_one_shot_fold. Qed.

(** What the loop of [_release_one_shot_modifiers] makes of a registry and
    an engine. *)
Lemma one_shot_components (mods : gmap Z ModifierState) (e : KeyboardEngine) :
  let l := map_to_list mods in
  device (engine_after l e) = device e ++ one_shot_releases l (down_keys e) ∧
  ∀ m s,
    mods !! m = Some s →
    (latched s = true → pressed s = false →
     mods_after l mods !! m = Some (set_latched false s) ∧
     (m ∉ down_keys (engine_after l e)) ∧
     (m ∈ down_keys e → (m, 0) ∈ one_shot_releases l (down_keys e))) ∧
    (pressed s = true →
     mods_after l mods !! m = Some s ∧
     (m ∈ down_keys e → m ∈ down_keys (engine_after l e))) ∧
    (latched s = false → mods_after l mods !! m = Some s).
Proof.
  intros l. split; [apply engine_after_device, NoDup_fst_map_to_list|].
  intros m s Hs.
  assert (mods_after l mods !! m =
          Some (if one_shot s then set_latched false s else s)) as Hlook.
  { unfold l. by rewrite mods_after_map_to_list, lookup_fmap, Hs. }
  assert (m ∈ down_keys (engine_after l e) ↔
          m ∈ down_keys e ∧ one_shot s = false) as Hdown.
  { rewrite engine_after_down_keys. unfold l. split.
    - intros [Hin Hno]. split; [done|].
      destruct (one_shot s) eqn:Hos; [|done]. destruct Hno.
      exists s. split; [by apply elem_of_map_to_list|done].
    - intros [Hin Hos]. split; [done|]. intros (s' & Hs'%elem_of_map_to_list & Hos').
      congruence. }
  unfold one_shot in *. split_and!.
  - intros Hl Hp. rewrite Hl, Hp in *. simpl in *. split_and!; [done| |].
    + rewrite Hdown. by intros [].
    + intros Hin. apply elem_of_one_shot_releases. exists m, s.
      split_and!; [done| |by unfold one_shot; rewrite Hl, Hp|done].
      by apply elem_of_map_to_list.
  - intros Hp. rewrite Hp, andb_false_r in *. split; [done|]. by rewrite Hdown.
  - intros Hl. by rewrite Hl in *.
Qed.

Lemma mb_cancel_repeat_frame key_code self :
  MutterBoard.engine (MutterBoard._cancel_repeat key_code self) = MutterBoard.engine self ∧
  MutterBoard.modifiers (MutterBoard._cancel_repeat key_code self)
    = MutterBoard.modifiers self.
Proof.
  unfold MutterBoard._cancel_repeat.
  destruct (MutterBoard.repeat_states self !! key_code) as [st|]; [|done].
  cbv zeta. unfold MutterBoard.source_remove_if.
  destruct (delay_source st) as [d|], (repeat_source st) as [r|];
    repeat (destruct (_ =? 0)); done.
Qed.

Lemma mb_update_shift_labels_eq self :
  (∀ k, k ∈ SHIFT_KEYS → is_Some (MutterBoard.modifiers self !! k)) →
  ∃ b, MutterBoard._update_shift_labels self = Some (MutterBoard.set_shift_labels b self).
Proof.
  intros Hreg. unfold MutterBoard._update_shift_labels. rewrite elements_SHIFT_KEYS. simpl.
  destruct (Hreg KEY_RIGHTSHIFT) as [sr ->]; [by apply elem_of_SHIFT_KEYS; right|].
  destruct (Hreg KEY_LEFTSHIFT) as [sl ->]; [by apply elem_of_SHIFT_KEYS; left|].
  simpl. destruct (_ || _); simpl; [eauto|]. destruct (_ || _); simpl; eauto.
Qed.

(** The release of a button that is no modifier, in [mutterboard.py]. *)
Lemma mb_one_shot_latches_released (key_code : Z) (now : Q)
    (self : MutterBoard.MutterBoard) :
  key_code ∉ MODIFIER_KEYS →
  (∀ k, k ∈ SHIFT_KEYS → is_Some (MutterBoard.modifiers self !! k)) →
  ∃ self' events,
    MutterBoard.on_button_release key_code now self = Some self' ∧
    device (MutterBoard.engine self') = device (MutterBoard.engine self) ++ events ∧
    ∀ m s,
      m ∈ MODIFIER_KEYS →
      MutterBoard.modifiers self !! m = Some s →
      (latched s = true → pressed s = false →
       MutterBoard.modifiers self' !! m = Some (set_latched false s) ∧
       (m ∉ down_keys (MutterBoard.engine self')) ∧
       (m ∈ down_keys (MutterBoard.engine self) → (m, 0) ∈ events)) ∧
      (pressed s = true →
       MutterBoard.modifiers self' !! m = Some s ∧
       (m ∈ down_keys (MutterBoard.engine self) →
        m ∈ down_keys (MutterBoard.engine self'))) ∧
      (latched s = false → MutterBoard.modifiers self' !! m = Some s).
Proof.
  intros Hmod Hreg. unfold MutterBoard.on_button_release. cbv zeta.
  rewrite (bool_decide_eq_false_2 _ Hmod).
  set (s0 := MutterBoard._paint_pressed key_code false
               (MutterBoard.set_active_keys _ self)).
  destruct (mb_cancel_repeat_frame key_code s0) as [He1 Hm1].
  set (s1 := MutterBoard._cancel_repeat key_code s0) in *.
  rewrite mb_release_one_shot_modifiers_eq. cbv zeta. mb_proj.
  rewrite He1, Hm1. unfold s0. mb_proj.
  set (e := set_key_state key_code false (MutterBoard.engine self)).
  destruct (one_shot_components (MutterBoard.modifiers self) e) as [Hdev Hout].
  cbv zeta in Hdev, Hout.
  set (l := map_to_list (MutterBoard.modifiers self)) in *.
  match goal with
  | |- ∃ self' events, MutterBoard._update_shift_labels ?s = _ ∧ _ =>
      destruct (mb_update_shift_labels_eq s) as [b ->]
  end.
  { intros k Hk. mb_proj. destruct (Hreg k Hk) as [st Hst].
    destruct (Hout k st Hst) as (H1 & H2 & H3).
    destruct (latched st) eqn:Hl; [|rewrite H3; eauto].
    destruct (pressed st) eqn:Hp; [destruct (H2 eq_refl) as [-> _]; eauto|].
    destruct (H1 eq_refl eq_refl) as [-> _]. eauto. }
  eexists _, (key_event key_code false (MutterBoard.engine self)
              ++ one_shot_releases l (down_keys e)).
  split; [reflexivity|]. mb_proj. split.
  { rewrite Hdev. unfold e. by rewrite set_key_state_device, <- app_assoc. }
  intros m s Hm Hs. destruct (Hout m s Hs) as (H1 & H2 & H3).
  assert (m ∈ down_keys e ↔ m ∈ down_keys (MutterBoard.engine self)) as Hd.
  { unfold e. rewrite set_key_state_down_keys. set_solver. }
  split_and!.
  - intros Hl Hp. destruct (H1 Hl Hp) as (? & ? & Hev). split_and!; [done..|].
    intros Hin. apply elem_of_app. right. apply Hev. by apply Hd.
  - intros Hp. destruct (H2 Hp) as [? Hk]. split; [done|].
    intros Hin. apply Hk. by apply Hd.
  - done.
Qed.


(** The end of a contact on a regular key or on space, in [qingboard.py]. *)
Lemma qb_one_shot_latches_released (touch_id event_time : Z) (now : Q)
    (self : QingBoard) (state : TouchState) :
  touch_states self !! touch_id = Some state →
  key_code state ≠ KEY_CAPSLOCK →
  key_code state ∉ MODIFIER_KEYS →
  shifts_registered self →
  ∃ self' events,
    _on_input_end touch_id event_time now self = Some self' ∧
    device (engine self') = device (engine self) ++ events ∧
    ∀ m s,
      modifiers self !! m = Some s →
      (latched s = true → pressed s = false →
       modifiers self' !! m = Some (set_latched false s) ∧
       (m ∉ down_keys (engine self')) ∧
       (m ∈ down_keys (engine self) → (m, 0) ∈ events)) ∧
      (pressed s = true →
       modifiers self' !! m = Some s ∧
       (m ∈ down_keys (engine self) → m ∈ down_keys (engine self'))) ∧
      (latched s = false → modifiers self' !! m = Some s).
Proof.
  intros E Hcaps Hmod Hreg.
  rewrite (_on_input_end_eq _ _ _ state) by done. cbv zeta.
  rewrite (bool_decide_eq_false_2 _ Hcaps), (bool_decide_eq_false_2 _ Hmod).
  destruct (contact_removed_frame touch_id state self)
    as (_ & Hm1 & He1 & _).
  set (s1 := contact_removed touch_id state self) in *.
  case_bool_decide as Hspace.
  - destruct (_finish_space_tracking_frame touch_id s1) as (Hdev & Hd & Hm & _).
    set (s2 := _finish_space_tracking touch_id s1) in *.
    assert (shifts_registered (_release_one_shot_modifiers s2)) as Hreg3.
    { apply shifts_registered_release_one_shot. intros k Hk. rewrite Hm, Hm1.
      by apply Hreg. }
    destruct (_update_shift_labels_eq _ Hreg3) as [b ->]. simpl.
    set (self' := _update_visual _ _ _).
    assert (modifiers self' = modifiers (_release_one_shot_modifiers s2) ∧
            engine self' = engine (_release_one_shot_modifiers s2)) as [Hm' He'].
    { unfold self'. by rewrite _update_visual_eq. }
    destruct (one_shot_release_outcome self s2 self' (space_tap touch_id s1))
      as (events & ? & ?); try done; try congruence.
    by exists self', events.
  - set (s2 := _cancel_repeat touch_id s1) in *.
    assert (modifiers s2 = modifiers self ∧ engine s2 = engine self) as [Hm He].
    { unfold s2. rewrite _cancel_repeat_eq. by proj. }
    assert (shifts_registered (_release_one_shot_modifiers s2)) as Hreg3.
    { apply shifts_registered_release_one_shot. intros k Hk. rewrite Hm.
      by apply Hreg. }
    destruct (_update_shift_labels_eq _ Hreg3) as [b ->]. simpl.
    set (self' := if _ =? 0 then _ else _).
    assert (modifiers self' = modifiers (_release_one_shot_modifiers s2) ∧
            engine self' = engine (_release_one_shot_modifiers s2)) as [Hm' He'].
    { unfold self'. destruct (_ =? 0); by rewrite ?_update_visual_eq. }
    destruct (one_shot_release_outcome self s2 self' []) as (events & ? & ?);
      rewrite ?app_nil_r; try done; try congruence.
    by exists self', events.
Qed.

(** C5, amended. In [qingboard.py], when a contact on a regular key or on
    space ends, completing its press-release cycle, every modifier that is
    latched and not held loses its latch and is released on the engine (a
    release event is sent if the key was down, and the key is not down
    afterwards), while every modifier that is held keeps its entry, latch
    included, and stays down; unlatched modifiers are left alone.  The end of
    a contact on CapsLock sends nothing and leaves the registry as it is.  In
    [mutterboard.py] the release of every button that is no modifier,
    CapsLock included, treats the modifiers in the first way, after the
    release of the key itself. *)
Theorem one_shot_latches_released :
  (∀ (touch_id event_time : Z) (now : Q) (self : QingBoard) (state : TouchState),
     touch_states self !! touch_id = Some state →
     key_code state ∉ MODIFIER_KEYS →
     shifts_registered self →
     ∃ self' events,
       _on_input_end touch_id event_time now self = Some self' ∧
       device (engine self') = device (engine self) ++ events ∧
       (key_code state = KEY_CAPSLOCK →
        events = [] ∧ modifiers self' = modifiers self) ∧
       (key_code state ≠ KEY_CAPSLOCK →
        ∀ m s,
          modifiers self !! m = Some s →
          (latched s = true → pressed s = false →
           modifiers self' !! m = Some (set_latched false s) ∧
           (m ∉ down_keys (engine self')) ∧
           (m ∈ down_keys (engine self) → (m, 0) ∈ events)) ∧
          (pressed s = true →
           modifiers self' !! m = Some s ∧
           (m ∈ down_keys (engine self) → m ∈ down_keys (engine self'))) ∧
          (latched s = false → modifiers self' !! m = Some s)))
  ∧
  (∀ (key_code : Z) (now : Q) (self : MutterBoard.MutterBoard),
     key_code ∉ MODIFIER_KEYS →
     (∀ k, k ∈ SHIFT_KEYS → is_Some (MutterBoard.modifiers self !! k)) →
     ∃ self' events,
       MutterBoard.on_button_release key_code now self = Some self' ∧
       device (MutterBoard.engine self') = device (MutterBoard.engine self) ++ events ∧
       ∀ m s,
         m ∈ MODIFIER_KEYS →
         MutterBoard.modifiers self !! m = Some s →
         (latched s = true → pressed s = false →
          MutterBoard.modifiers self' !! m = Some (set_latched false s) ∧
          (m ∉ down_keys (MutterBoard.engine self')) ∧
          (m ∈ down_keys (MutterBoard.engine self) → (m, 0) ∈ events)) ∧
         (pressed s = true →
          MutterBoard.modifiers self' !! m = Some s ∧
          (m ∈ down_keys (MutterBoard.engine self) →
           m ∈ down_keys (MutterBoard.engine self'))) ∧
         (latched s = false → MutterBoard.modifiers self' !! m = Some s)).
Proof.
  split.
  - intros touch_id event_time now self state E Hmod Hreg.
    destruct (decide (key_code state = KEY_CAPSLOCK)) as [Hcaps|Hcaps].
    + rewrite (_on_input_end_eq _ _ _ state) by done. cbv zeta.
      rewrite (bool_decide_eq_true_2 _ Hcaps).
      destruct (contact_removed_frame touch_id state self) as (_ & Hm1 & He1 & _).
      eexists _, []. split; [reflexivity|]. rewrite He1, app_nil_r.
      split; [done|]. split; [done|]. by intros [].
    + destruct (qb_one_shot_latches_released touch_id event_time now self state)
        as (self' & events & ? & ? & ?); try done.
      exists self', events. split_and!; done.
  - apply mb_one_shot_latches_released.
Qed.

Lemma regular_decides key :
  regular key →
  bool_decide (key = KEY_CAPSLOCK) = false ∧
  bool_decide (key ∈ MODIFIER_KEYS) = false ∧
  bool_decide (key = KEY_SPACE) = false.
Proof. intros (? & ? & ?). by rewrite !bool_decide_eq_false_2. Qed.

(** [_on_input_begin] for a contact that is not being tracked. *)
Lemma _on_input_begin_fresh touch_id x y event_time now self :
  touch_states self !! touch_id = None →
  _on_input_begin touch_id x y event_time now self =
  match _find_key_at x y self with
  | None => Some self
  | Some key =>
      let self := contact_added touch_id key now self in
      if bool_decide (key = KEY_CAPSLOCK) then
        Some (_flash_regular_key key
                (_update_caps_indicator
                   (engine_tap_key KEY_CAPSLOCK
                      (set_capslock_on (negb (capslock_on self)) self))))
      else if bool_decide (key ∈ MODIFIER_KEYS) then
        self ← _on_modifier_press_touch touch_id key self;
        _update_shift_labels self
      else if bool_decide (key = KEY_SPACE) then
        Some (_update_visual key true
                (_begin_space_tracking touch_id (mark_used_in_combo self)))
      else
        let self := _start_repeat touch_id key
                      (engine_tap_key key
                         (_stop_all_other_repeats key touch_id
                            (mark_used_in_combo self))) in
        Some (if count_of key self =? 1 then _update_visual key true self else self)
  end.
Proof.
  intros E. unfold _on_input_begin.
  rewrite bool_decide_eq_false_2 by (by apply not_elem_of_dom).
  cbn [mbind option_bind]. unfold _find_key_at. proj. done.
Qed.


Lemma taps_1 key : taps 1 key = [(key, 1); (key, 0)].
Proof. reflexivity. Qed.

Lemma begun_regular_frame touch_id key now self :
  regular key →
  let self' := begun_regular touch_id key now self in
  touch_states self'
    = <[touch_id := {| key_code := key; press_time := now |}]> (touch_states self) ∧
  key_press_count self' = <[key := count_of key self + 1]> (key_press_count self) ∧
  key_widgets self'
    = (if count_of key self + 1 =? 1
       then alter (add_class "pressed") key (key_widgets self)
       else key_widgets self) ∧
  device (engine self') = device (engine self) ++ taps 1 key ∧
  down_keys (engine self') = down_keys (engine self) ∧
  modifiers self'
    = (λ s, if pressed s then set_used_in_combo true s else s) <$> modifiers self ∧
  key_rects self' = key_rects self ∧
  space_tracking self' = space_tracking self ∧
  last_shift_tap_at self' = last_shift_tap_at self.
Proof.
  intros Hreg. cbv zeta. unfold begun_regular. cbv zeta.
  set (s4 := _start_repeat _ _ _).
  assert (touch_states s4
            = <[touch_id := {| key_code := key; press_time := now |}]>
                (touch_states self) ∧
          key_press_count s4
            = <[key := count_of key self + 1]> (key_press_count self) ∧
          key_widgets s4 = key_widgets self ∧
          device (engine s4) = device (engine self) ++ taps 1 key ∧
          down_keys (engine s4) = down_keys (engine self) ∧
          modifiers s4
            = (λ s, if pressed s then set_used_in_combo true s else s)
                <$> modifiers self ∧
          key_rects s4 = key_rects self ∧
          space_tracking s4 = space_tracking self ∧
          last_shift_tap_at s4 = last_shift_tap_at self) as Hs4.
  { unfold s4. rewrite _start_repeat_eq by done. cbv zeta. rewrite _cancel_repeat_eq.
    destruct (_stop_all_other_repeats_frame key touch_id
                (mark_used_in_combo (contact_added touch_id key now self)))
      as (rs & g & ->).
    unfold contact_added, mark_used_in_combo. proj. by rewrite taps_1. }
  destruct Hs4 as (Ht & Hc & Hw & Hdev & Hdown & Hm & Hr & Hsp & Hl).
  assert (count_of key s4 = count_of key self + 1) as ->.
  { unfold count_of at 1. by rewrite Hc, lookup_insert_eq. }
  destruct (count_of key self + 1 =? 1); rewrite ?_update_visual_eq; proj;
    rewrite ?Hw; done.
Qed.

Lemma painted_lookup m active w k :
  k ∉ MODIFIER_KEYS → painted m active w !! k = w !! k.
Proof.
  intros Hk. unfold painted. case_decide; [|done].
  rewrite lookup_alter_ne; [done|]. by intros ->.
Qed.

Lemma widgets_after_lookup l w k :
  k ∉ MODIFIER_KEYS → widgets_after l w !! k = w !! k.
Proof.
  intros Hk. revert w. induction l as [|[m st] l IH]; intros w; [done|].
  unfold widgets_after in *. simpl. rewrite IH.
  destruct (one_shot st); [by apply painted_lookup | done].
Qed.

Lemma release_one_shot_frame self :
  let self' := _release_one_shot_modifiers self in
  touch_states self' = touch_states self ∧
  repeat_states self' = repeat_states self ∧
  glib self' = glib self ∧
  space_tracking self' = space_tracking self ∧
  key_press_count self' = key_press_count self ∧
  key_rects self' = key_rects self ∧
  last_shift_tap_at self' = last_shift_tap_at self ∧
  (∀ k, k ∉ MODIFIER_KEYS → key_widgets self' !! k = key_widgets self !! k).
Proof.
  cbv zeta. rewrite _release_one_shot_modifiers_eq. cbv zeta. proj.
  split_and!; try done. intros k Hk. by apply widgets_after_lookup.
Qed.


Lemma add_class_elem c (style : gset string) : c ∈ add_class c style.
Proof. unfold add_class. set_solver. Qed.

Lemma remove_class_not_elem c (style : gset string) : c ∉ remove_class c style.
Proof. unfold remove_class. set_solver. Qed.



(** ** Examples of the contact properties *)

Lemma KEY_A_regular : regular KEY_A.
Proof.
  split_and!; [done| |done].
  intros H. apply (bool_decide_pack _) in H. by vm_compute in H.
Qed.

Lemma KEY_CAPSLOCK_not_modifier : KEY_CAPSLOCK ∉ MODIFIER_KEYS.
Proof. intros H. apply (bool_decide_pack _) in H. by vm_compute in H. Qed.

Lemma one_shot_latches_released_witness :
  ∃ self' (events : list (Z * Z)),
    _on_input_end 2 1600 (16 # 10) latched_shift_and_a = Some self' ∧
    modifiers self' !! KEY_LEFTSHIFT = Some ModifierState_default ∧
    (KEY_LEFTSHIFT, 0) ∈ events.
Proof.
  destruct one_shot_latches_released as [Hqb _].
  destruct (Hqb 2 1600 (16 # 10)%Q latched_shift_and_a
              {| key_code := KEY_A; press_time := 15 # 10 |})
    as (self' & events & Hend & _ & _ & Hmods).
  - by vm_compute.
  - by destruct KEY_A_regular as (_ & ? & _).
  - by eapply shifts_registered_lookup; vm_compute.
  - destruct (Hmods ltac:(done) KEY_LEFTSHIFT
                {| pressed := false; latched := true; used_in_combo := false |})
      as (Hlatched & _).
    + by vm_compute.
    + destruct (Hlatched eq_refl eq_refl) as (Hm & _ & Hev).
      exists self', events. split; [exact Hend|]. split; [exact Hm|].
      apply Hev. apply (bool_decide_unpack _). by vm_compute.
Defined.

(** C5 as stated fails in [qingboard.py] in two ways.  For the key CapsLock,
    which is neither a modifier nor space: its press-release cycle leaves a
    latched, unheld Shift latched and sends no release.  And for a latched
    modifier that is not down: Left Shift, force-released by the press of
    Right Shift while touch 1 held it, is latched by the end of touch 1
    without being pressed on the device; the end of the contact on A clears
    its latch and sends nothing. *)
Lemma capslock_cycle_keeps_latch :
  ((key_code <$> touch_states latched_shift_and_caps !! 2) = Some KEY_CAPSLOCK ∧
   modifiers latched_shift_and_caps !! KEY_LEFTSHIFT
     = Some {| pressed := false; latched := true; used_in_combo := false |} ∧
   (self' ← _on_input_end 2 1600 (16 # 10) latched_shift_and_caps;
    modifiers self' !! KEY_LEFTSHIFT)
     = Some {| pressed := false; latched := true; used_in_combo := false |} ∧
   (device ∘ engine <$> _on_input_end 2 1600 (16 # 10) latched_shift_and_caps)
     = Some (device (engine latched_shift_and_caps))) ∧
  (run isqrt latched_not_down_inputs started = Some latched_not_down ∧
   (key_code <$> touch_states latched_not_down !! 3) = Some KEY_A ∧
   modifiers latched_not_down !! KEY_LEFTSHIFT
     = Some {| pressed := false; latched := true; used_in_combo := false |} ∧
   bool_decide (KEY_LEFTSHIFT ∈ down_keys (engine latched_not_down)) = false ∧
   (self' ← _on_input_end 3 1600 (16 # 10) latched_not_down;
    modifiers self' !! KEY_LEFTSHIFT)
     = Some {| pressed := false; latched := false; used_in_combo := false |} ∧
   (device ∘ engine <$> _on_input_end 3 1600 (16 # 10) latched_not_down)
     = Some (device (engine latched_not_down))).
Proof. split_and!; vm_compute; reflexivity. Qed.

(** In [mutterboard.py] the release of CapsLock does release a latched
    Shift. *)
Lemma mb_capslock_releases_latch :
  (MutterBoard.modifiers mb_latched_shift_and_caps !! KEY_LEFTSHIFT)
    = Some {| pressed := false; latched := true; used_in_combo := false |} ∧
  (self' ← MutterBoard.on_button_release KEY_CAPSLOCK (16 # 10)
             mb_latched_shift_and_caps;
   MutterBoard.modifiers self' !! KEY_LEFTSHIFT)
    = Some {| pressed := false; latched := false; used_in_combo := false |} ∧
  (device ∘ MutterBoard.engine
     <$> MutterBoard.on_button_release KEY_CAPSLOCK (16 # 10) mb_latched_shift_and_caps)
    = Some [(KEY_LEFTSHIFT, 1); (KEY_CAPSLOCK, 1); (KEY_CAPSLOCK, 0); (KEY_LEFTSHIFT, 0)].
Proof. split_and!; vm_compute; reflexivity. Qed.

(** ** Space: the long-press timer and the cursor-mode indicator *)

Lemma KEY_SPACE_not_modifier : KEY_SPACE ∉ MODIFIER_KEYS.
Proof. intros H. apply (bool_decide_pack _) in H. by vm_compute in H. Qed.

Lemma remove_class_other c c' (style : gset string) :
  c ≠ c' → c ∈ style → c ∈ remove_class c' style.
Proof. unfold remove_class. set_solver. Qed.

(** C7. What the end of a space contact does: the handler returns; the device
    receives one space tap if the contact was not in cursor mode and none if
    it was, followed by the releases of the one-shot modifiers.  But no GLib
    source is removed, so a long-press timer that has not fired stays pending
    ([_finish_space_tracking] pops the tracking record before
    [_cancel_space_long_press] looks it up), and the label of the space key
    keeps the class [cursor-mode] if it had it
    ([_set_space_cursor_visual] is never called with [False]). *)
Theorem space_release_keeps_timer_and_indicator (touch_id event_time : Z) (now : Q)
    (self : QingBoard) (state : TouchState) :
  touch_states self !! touch_id = Some state →
  key_code state = KEY_SPACE →
  shifts_registered self →
  ∃ self',
    _on_input_end touch_id event_time now self = Some self' ∧
    glib self' = glib self ∧
    (has_class "cursor-mode" KEY_SPACE self →
     has_class "cursor-mode" KEY_SPACE self') ∧
    device (engine self')
      = device (engine self) ++ space_tap touch_id self
        ++ one_shot_releases (map_to_list (modifiers self))
                             (down_keys (engine self)).
Proof.
  intros E Hkey Hsh.
  rewrite (_on_input_end_eq _ _ _ state) by done. cbv zeta. rewrite Hkey.
  rewrite (bool_decide_eq_false_2 (KEY_SPACE = KEY_CAPSLOCK)) by done.
  rewrite (bool_decide_eq_false_2 _ KEY_SPACE_not_modifier).
  rewrite (bool_decide_eq_true_2 (KEY_SPACE = KEY_SPACE)) by done.
  destruct (contact_removed_frame touch_id state self)
    as (_ & Hm1 & He1 & _ & Hg1 & Hsp1 & Hw1 & _).
  set (s1 := contact_removed touch_id state self) in *.
  destruct (_finish_space_tracking_frame touch_id s1)
    as (Hdev2 & Hd2 & Hm2 & _ & _ & Hg2 & Hw2 & _).
  set (s2 := _finish_space_tracking touch_id s1) in *.
  destruct (release_one_shot_frame s2) as (_ & _ & Hg3 & _ & _ & _ & _ & Hw3).
  pose proof (release_one_shot_device s2) as Hdev3.
  assert (shifts_registered (_release_one_shot_modifiers s2)) as Hsh3.
  { apply shifts_registered_release_one_shot. intros k Hk. rewrite Hm2, Hm1.
    by apply Hsh. }
  set (s3 := _release_one_shot_modifiers s2) in *.
  destruct (_update_shift_labels_eq _ Hsh3) as [b ->].
  cbn [mbind option_bind]. rewrite _update_visual_eq.
  eexists. split; [reflexivity|]. proj. split_and!.
  - congruence.
  - intros (style & Hstyle & Hin). exists (remove_class "pressed" style).
    unfold has_class; proj. split.
    + rewrite lookup_alter_eq, (Hw3 _ KEY_SPACE_not_modifier), Hw2, Hw1, Hstyle. done.
    + by apply remove_class_other.
  - rewrite Hdev3, Hdev2, Hm2, Hm1, Hd2, He1, <- app_assoc.
    unfold space_tap. by rewrite Hsp1.
Qed.

Lemma space_release_keeps_timer_and_indicator_witness :
  ∃ self',
    _on_input_end MOUSE_TOUCH_ID 1050 (105 # 100) space_held = Some self' ∧
    sources (glib self') !! 1
      = Some {| interval_ms := 300;
                callback := cb_enter_space_cursor_mode MOUSE_TOUCH_ID |}.
Proof.
  destruct (space_release_keeps_timer_and_indicator MOUSE_TOUCH_ID 1050 (105 # 100)
              space_held {| key_code := KEY_SPACE; press_time := 1 |})
    as (self' & Hend & Hglib & _).
  - by vm_compute.
  - reflexivity.
  - by eapply shifts_registered_lookup; vm_compute.
  - exists self'. split; [exact Hend|]. rewrite Hglib. by vm_compute.
Defined.

(** Two short clicks on space type one space only: the timer of the first
    click fires during the second and puts it into cursor mode. *)
Lemma stale_long_press_timer_swallows_second_space :
  (device ∘ engine <$> run isqrt space_double_click started)
    = Some (taps 1 KEY_SPACE).
Proof. vm_compute. reflexivity. Qed.

(** After a long press of space has ended, no contact is left and nothing
    was typed, yet the space label still shows the cursor mode. *)
Lemma cursor_mode_indicator_survives_release :
  (device ∘ engine <$> run isqrt space_long_press started) = Some [] ∧
  (has_class_b "cursor-mode" KEY_SPACE <$> run isqrt space_long_press started)
    = Some true ∧
  (dom ∘ touch_states <$> run isqrt space_long_press started) = Some ∅.
Proof. split_and!; vm_compute; reflexivity. Qed.

(** ** The handlers keep the bookkeeping consistent *)

Lemma timers_ok_no_record t state self :
  timers_ok self →
  touch_states self !! t = Some state → ¬ regular (key_code state) →
  repeat_states self !! t = None.
Proof.
  intros H E Hn. destruct (repeat_states self !! t) as [r|] eqn:Er; [|done].
  destruct (repeat_regular self H t) as (state' & E' & Hreg); [eauto|].
  rewrite E in E'. injection E' as <-. by destruct Hn.
Qed.

Lemma timers_ok_fresh_touch t self :
  timers_ok self → touch_states self !! t = None → repeat_states self !! t = None.
Proof.
  intros H E. destruct (repeat_states self !! t) as [r|] eqn:Er; [|done].
  destruct (repeat_regular self H t) as (state' & E' & _); [eauto|]. congruence.
Qed.

Lemma cancelled_glib_none t self :
  repeat_states self !! t = None → cancelled_glib t self = glib self.
Proof. intros E. unfold cancelled_glib. by rewrite E. Qed.

(** A contact leaves, its repeat record and timers with it. *)
Lemma timers_ok_delete_touch t self self' :
  timers_ok self →
  touch_states self' = delete t (touch_states self) →
  repeat_states self' = delete t (repeat_states self) →
  glib self' = cancelled_glib t self →
  timers_ok self'.
Proof.
  intros H Ht Hr Hg.
  apply (timers_ok_ext
           (set_touch_states (delete t (touch_states self)) (_cancel_repeat t self)));
    [by rewrite Ht| by rewrite Hr, _cancel_repeat_eq | by rewrite Hg, _cancel_repeat_eq|].
  pose proof (timers_ok_cancel_repeat t self H) as [H1 H2 H3 H4 H5].
  split; proj; try done.
  intros t' Hsome. destruct (H5 t' Hsome) as (state & E & Hreg).
  exists state. split; [|done].
  rewrite _cancel_repeat_eq in Hsome, E. proj in Hsome. proj in E.
  destruct Hsome as [r Hsome]. apply lookup_delete_Some in Hsome as [Hne _].
  by rewrite lookup_delete_ne.
Qed.

(** A contact that holds no regular key leaves. *)
Lemma timers_ok_delete_idle_touch t state self self' :
  timers_ok self →
  touch_states self !! t = Some state → ¬ regular (key_code state) →
  touch_states self' = delete t (touch_states self) →
  repeat_states self' = repeat_states self →
  glib self' = glib self →
  timers_ok self'.
Proof.
  intros H E Hn Ht Hr Hg.
  pose proof (timers_ok_no_record t state self H E Hn) as Hnone.
  apply (timers_ok_delete_touch t self); [done..| |].
  - by rewrite delete_id.
  - by rewrite cancelled_glib_none.
Qed.

Lemma mods_ok_update_shift_labels self :
  mods_ok self →
  ∃ b, _update_shift_labels self = Some (set_shift_labels b self).
Proof. intros H. by apply _update_shift_labels_eq, mods_ok_shifts_registered. Qed.

Lemma not_regular_capslock : ¬ regular KEY_CAPSLOCK.
Proof. by intros [? _]. Qed.

Lemma not_regular_modifier key : key ∈ MODIFIER_KEYS → ¬ regular key.
Proof. by intros ? (_ & ? & _). Qed.

Lemma not_regular_space : ¬ regular KEY_SPACE.
Proof. by intros (_ & _ & ?). Qed.

Lemma _on_input_end_ok t et now state self :
  timers_ok self → mods_ok self →
  touch_states self !! t = Some state →
  ∃ self', _on_input_end t et now self = Some self' ∧
    timers_ok self' ∧ mods_ok self' ∧
    touch_states self' = delete t (touch_states self).
Proof.
  intros Ht Hm E. rewrite (_on_input_end_eq _ _ _ state) by done. cbv zeta.
  destruct (contact_removed_frame t state self)
    as (Hts1 & Hm1 & He1 & Hr1 & Hg1 & _ & _ & _).
  assert (mods_ok (contact_removed t state self)) as Hmods1.
  { apply (mods_ok_ext self); [done|by rewrite He1|done]. }
  set (s1 := contact_removed t state self) in *.
  case_bool_decide as Hcaps.
  { exists s1. split_and!; try done.
    apply (timers_ok_delete_idle_touch t state self); try done.
    rewrite Hcaps. apply not_regular_capslock. }
  case_bool_decide as Hmod.
  { assert (timers_ok s1) as Ht1.
    { apply (timers_ok_delete_idle_touch t state self); try done.
      by apply not_regular_modifier. }
    unfold _on_modifier_release_touch. destruct (negb _).
    - destruct (mods_ok_release_global (key_code state) now s1)
        as (s' & Es & Hms & Hts & Hrs & Hgs); [done..|].
      exists s'. split_and!; try done.
      + by apply (timers_ok_ext s1).
      + congruence.
    - exists s1. by split_and!. }
  case_bool_decide as Hsp.
  { destruct (_finish_space_tracking_frame t s1)
      as (_ & Hd2 & Hm2 & Hts2 & Hr2 & Hg2 & _).
    assert (mods_ok (_finish_space_tracking t s1)) as Hmods2.
    { by apply (mods_ok_ext s1). }
    set (s2 := _finish_space_tracking t s1) in *.
    destruct (release_one_shot_frame s2) as (Hts3 & Hr3 & Hg3 & _).
    pose proof (mods_ok_release_one_shot s2 Hmods2) as Hmods3.
    set (s3 := _release_one_shot_modifiers s2) in *.
    destruct (mods_ok_update_shift_labels s3 Hmods3) as [b ->].
    cbn [mbind option_bind]. rewrite _update_visual_eq.
    eexists. split; [reflexivity|]. split_and!.
    - apply (timers_ok_delete_idle_touch t state self); try done; proj.
      + rewrite Hsp. apply not_regular_space.
      + congruence.
      + congruence.
      + congruence.
    - by apply (mods_ok_ext s3).
    - proj. congruence. }
  assert (mods_ok (_cancel_repeat t s1)) as Hmods2.
  { apply (mods_ok_ext s1); [by rewrite _cancel_repeat_eq..|done]. }
  assert (touch_states (_cancel_repeat t s1) = touch_states s1 ∧
          repeat_states (_cancel_repeat t s1) = delete t (repeat_states s1) ∧
          glib (_cancel_repeat t s1) = cancelled_glib t self) as (Hts2 & Hr2 & Hg2).
  { rewrite _cancel_repeat_eq. proj. split_and!; try done.
    unfold cancelled_glib. by rewrite Hr1, Hg1. }
  set (s2 := _cancel_repeat t s1) in *.
  destruct (release_one_shot_frame s2) as (Hts3 & Hr3 & Hg3 & _).
  pose proof (mods_ok_release_one_shot s2 Hmods2) as Hmods3.
  set (s3 := _release_one_shot_modifiers s2) in *.
  destruct (mods_ok_update_shift_labels s3 Hmods3) as [b ->].
  cbn [mbind option_bind].
  eexists. split; [reflexivity|].
  assert (∀ s', touch_states s' = touch_states s3 → repeat_states s' = repeat_states s3 →
            glib s' = glib s3 → modifiers s' = modifiers s3 →
            down_keys (engine s') = down_keys (engine s3) →
            timers_ok s' ∧ mods_ok s' ∧ touch_states s' = delete t (touch_states self))
    as Hfin.
  { intros s' H1 H2 H3 H4 H5. split_and!.
    - apply (timers_ok_delete_touch t self); [done|congruence..].
    - by apply (mods_ok_ext s3).
    - congruence. }
  destruct (_ =? 0); [rewrite _update_visual_eq|]; by apply Hfin.
Qed.

Lemma timers_ok_contact_added t key now self :
  timers_ok self → touch_states self !! t = None →
  timers_ok (contact_added t key now self).
Proof.
  intros H E. pose proof H as [H1 H2 H3 H4 H5].
  unfold contact_added. split; proj; try done.
  intros t' Hsome. destruct (H5 t' Hsome) as (state & E' & Hreg).
  exists state. split; [|done].
  rewrite lookup_insert_ne; [done|]. congruence.
Qed.

Lemma mods_ok_contact_added t key now self :
  mods_ok self → mods_ok (contact_added t key now self).
Proof. by apply mods_ok_ext. Qed.

Lemma _flash_regular_key_eq key self :
  _flash_regular_key key self =
  set_glib (timeout_add 110 (cb_flash_clear key) (glib self)).2
           (_update_visual key true self).
Proof. unfold _flash_regular_key. by rewrite _update_visual_eq. Qed.

Lemma timers_ok_flash_regular_key key self :
  timers_ok self → timers_ok (_flash_regular_key key self).
Proof.
  intros H. rewrite _flash_regular_key_eq.
  apply (timers_ok_ext (set_glib (timeout_add 110 (cb_flash_clear key) (glib self)).2 self));
    [by rewrite _update_visual_eq..|].
  apply timers_ok_timeout_add; [|done]. by intros t k [?|?].
Qed.

Lemma mods_ok_mark_used_in_combo self :
  mods_ok self → mods_ok (mark_used_in_combo self).
Proof.
  intros [H1 H2]. unfold mark_used_in_combo. split; proj.
  - intros k Hk. rewrite lookup_fmap. destruct (H1 k Hk) as [s ->]. by eexists.
  - intros k st Hk E Hp. rewrite lookup_fmap in E.
    destruct (modifiers self !! k) as [s0|] eqn:E0; [|done].
    injection E as <-. apply (H2 k s0); [done..|].
    destruct (pressed s0) eqn:Hp0; [done|]. cbv iota in Hp. congruence.
Qed.

Lemma timers_ok_cancel_space_long_press t self :
  timers_ok self → timers_ok (_cancel_space_long_press t self).
Proof.
  intros H. unfold _cancel_space_long_press.
  destruct (space_tracking self !! t) as [tr|]; [|done].
  destruct (long_press_source tr) as [id|]; [|done].
  apply (timers_ok_ext (glib_source_remove id self)); [done..|].
  by apply timers_ok_source_remove.
Qed.

Lemma _cancel_space_long_press_frame t self :
  touch_states (_cancel_space_long_press t self) = touch_states self ∧
  repeat_states (_cancel_space_long_press t self) = repeat_states self ∧
  modifiers (_cancel_space_long_press t self) = modifiers self ∧
  engine (_cancel_space_long_press t self) = engine self ∧
  key_rects (_cancel_space_long_press t self) = key_rects self.
Proof.
  unfold _cancel_space_long_press.
  destruct (space_tracking self !! t) as [tr|]; [|done].
  by destruct (long_press_source tr) as [id|].
Qed.

Lemma _begin_space_tracking_eq t self :
  _begin_space_tracking t self =
  let s := _cancel_space_long_press t self in
  set_space_tracking
    (<[t := set_long_press_source (Some (next_source_id (glib s)))
              SpaceTrackingState_default]> (space_tracking s))
    (set_glib (timeout_add (space_long_press_ms s) (cb_enter_space_cursor_mode t)
                           (glib s)).2 s).
Proof. reflexivity. Qed.

Lemma timers_ok_begin_space_tracking t self :
  timers_ok self → timers_ok (_begin_space_tracking t self).
Proof.
  intros H. rewrite _begin_space_tracking_eq. cbv zeta.
  pose proof (timers_ok_cancel_space_long_press t self H) as H'.
  set (s := _cancel_space_long_press t self) in *.
  apply (timers_ok_ext
           (set_glib (timeout_add (space_long_press_ms s)
                        (cb_enter_space_cursor_mode t) (glib s)).2 s)); [done..|].
  apply timers_ok_timeout_add; [|done]. by intros t' k [?|?].
Qed.

Lemma mods_ok_begin_space_tracking t self :
  mods_ok self → mods_ok (_begin_space_tracking t self).
Proof.
  intros H. rewrite _begin_space_tracking_eq. cbv zeta.
  destruct (_cancel_space_long_press_frame t self) as (_ & _ & Hm & He & _).
  apply (mods_ok_ext self); proj; [done| by rewrite He | done].
Qed.

Lemma mark_used_in_combo_timers self :
  timers_ok self → timers_ok (mark_used_in_combo self).
Proof. by apply timers_ok_ext. Qed.

(** A fresh contact on a regular key: afterwards the only repeat timer is
    its own. *)
Lemma begun_regular_timers t key now self :
  timers_ok self → touch_states self !! t = None → regular key →
  timers_ok (begun_regular t key now self) ∧
  ∀ id src t' k,
    sources (glib (begun_regular t key now self)) !! id = Some src →
    repeats (callback src) t' k → t' = t ∧ k = key.
Proof.
  intros H E Hreg. unfold begun_regular. cbv zeta.
  pose proof (timers_ok_contact_added t key now self H E) as H0.
  assert (touch_states (contact_added t key now self) !! t
          = Some {| key_code := key; press_time := now |}) as Ets.
  { unfold contact_added. proj. apply lookup_insert_eq. }
  set (s0 := contact_added t key now self) in *.
  pose proof (mark_used_in_combo_timers s0 H0) as Hm.
  assert (touch_states (mark_used_in_combo s0) = touch_states s0) as Etm by done.
  set (sm := mark_used_in_combo s0) in *.
  pose proof (timers_ok_stop_all_other_repeats key t sm Hm) as Hs.
  destruct (_stop_all_other_repeats_frame key t sm) as (rs & g & Efr).
  assert (touch_states (_stop_all_other_repeats key t sm) = touch_states sm) as Ets'.
  { by rewrite Efr. }
  assert (∀ t', is_Some (repeat_states (_stop_all_other_repeats key t sm) !! t') → t' = t)
    as Honly.
  { intros t' Hsome. destruct (decide (t' = t)) as [|Hne]; [done|]. exfalso.
    destruct (repeat_regular _ Hs t' Hsome) as (st & Est & _ & Hnm & Hns).
    rewrite Ets' in Est.
    rewrite (_stop_all_other_repeats_lookup key t sm t' st) in Hsome by done.
    by destruct Hsome. }
  clear Efr. set (ss := _stop_all_other_repeats key t sm) in *.
  destruct (timers_ok_start_repeat t key (engine_tap_key key ss)
              {| key_code := key; press_time := now |}) as [Hok Hsrc]; try done.
  { proj. congruence. }
  { by apply (timers_ok_ext ss). }
  set (sr := _start_repeat t key (engine_tap_key key ss)) in *.
  destruct (_ =? 1); [rewrite _update_visual_eq|]; [|done].
  split; [by apply (timers_ok_ext sr)|]. proj. apply Hsrc.
Qed.

Lemma begun_regular_mods t key now self :
  regular key → mods_ok self → mods_ok (begun_regular t key now self).
Proof.
  intros Hreg H. destruct (begun_regular_frame t key now self Hreg)
    as (_ & _ & _ & _ & Hd & Hm & _).
  pose proof (mods_ok_mark_used_in_combo self H) as H'.
  apply (mods_ok_ext (mark_used_in_combo self)); done.
Qed.

(** [_on_input_begin] for a contact that is not active. *)
Lemma _on_input_begin_fresh_ok t x y et now self :
  timers_ok self → mods_ok self → touch_states self !! t = None →
  ∃ self', _on_input_begin t x y et now self = Some self' ∧
    timers_ok self' ∧ mods_ok self'.
Proof.
  intros Ht Hm E. rewrite _on_input_begin_fresh by done.
  destruct (_find_key_at x y self) as [key|]; [|by exists self].
  cbv zeta.
  pose proof (timers_ok_contact_added t key now self Ht E) as Ht0.
  pose proof (mods_ok_contact_added t key now self Hm) as Hm0.
  case_bool_decide as Hcaps.
  { eexists. split; [reflexivity|]. split.
    - apply timers_ok_flash_regular_key.
      by apply (timers_ok_ext (contact_added t key now self)).
    - rewrite _flash_regular_key_eq, _update_visual_eq.
      by apply (mods_ok_ext (contact_added t key now self)). }
  case_bool_decide as Hmod.
  { set (s0 := contact_added t key now self) in *.
    unfold _on_modifier_press_touch.
    destruct (mods_ok_press_global key s0 Hm0 Hmod) as (st & Est & Epr & Hmp).
    rewrite Est. cbn [mbind option_bind].
    destruct (pressed_global_timers key st s0) as (Hts & Hrs & Hgs).
    destruct (negb (pressed st)).
    - rewrite Epr. cbn [mbind option_bind].
      destruct (mods_ok_update_shift_labels _ Hmp) as [b ->].
      eexists. split; [reflexivity|]. split.
      + by apply (timers_ok_ext s0).
      + by apply (mods_ok_ext (pressed_global key st s0)).
    - cbn [mbind option_bind].
      destruct (mods_ok_update_shift_labels _ Hm0) as [b ->].
      eexists. split; [reflexivity|]. split.
      + by apply (timers_ok_ext s0).
      + by apply (mods_ok_ext s0). }
  case_bool_decide as Hsp.
  { eexists. split; [reflexivity|]. rewrite _update_visual_eq.
    set (s0 := contact_added t key now self) in *. split.
    - apply (timers_ok_ext (_begin_space_tracking t (mark_used_in_combo s0)));
        [done..|].
      by apply timers_ok_begin_space_tracking, mark_used_in_combo_timers.
    - apply (mods_ok_ext (_begin_space_tracking t (mark_used_in_combo s0)));
        [done..|].
      by apply mods_ok_begin_space_tracking, mods_ok_mark_used_in_combo. }
  assert (regular key) as Hreg by done.
  eexists. split; [reflexivity|].
  change (timers_ok (begun_regular t key now self)
          ∧ mods_ok (begun_regular t key now self)).
  split; [by apply begun_regular_timers | by apply begun_regular_mods].
Qed.

(** [_on_input_begin] for an active contact ends it first. *)
Lemma _on_input_begin_active t x y et now state self s1 :
  touch_states self !! t = Some state →
  _on_input_end t et now self = Some s1 →
  touch_states s1 !! t = None →
  _on_input_begin t x y et now self = _on_input_begin t x y et now s1.
Proof.
  intros E Eend E1. unfold _on_input_begin.
  rewrite (bool_decide_eq_true_2 (t ∈ dom (touch_states self)));
    [|apply elem_of_dom; eauto].
  rewrite Eend.
  rewrite (bool_decide_eq_false_2 (t ∈ dom (touch_states s1)));
    [|by apply not_elem_of_dom].
  reflexivity.
Qed.

Lemma _on_input_begin_ok t x y et now self :
  timers_ok self → mods_ok self →
  ∃ self', _on_input_begin t x y et now self = Some self' ∧
    timers_ok self' ∧ mods_ok self'.
Proof.
  intros Ht Hm. destruct (touch_states self !! t) as [state|] eqn:E.
  - destruct (_on_input_end_ok t et now state self Ht Hm E)
      as (s1 & Eend & Ht1 & Hm1 & Hts1).
    assert (touch_states s1 !! t = None) as E1.
    { rewrite Hts1. apply lookup_delete_eq. }
    rewrite (_on_input_begin_active t x y et now state self s1) by done.
    by apply _on_input_begin_fresh_ok.
  - by apply _on_input_begin_fresh_ok.
Qed.

Lemma _emit_cursor_moves_down_keys tracking T e tracking' e' :
  _emit_cursor_moves tracking T e = Some (tracking', e') →
  down_keys e' = down_keys e.
Proof.
  unfold _emit_cursor_moves. destruct (Qeq_bool T 0); [done|].
  destruct (Qle_bool _ _); destruct (0 <? _); intros [= <- <-];
    by rewrite ?tap_times_down_keys.
Qed.

Section EventsOk.
Variable pow_half : Q → Q.

Lemma space_motion_sample_down_keys tracking x y et e tracking' e' :
  space_motion_sample pow_half tracking x y et e = Some (tracking', e') →
  down_keys e' = down_keys e.
Proof.
  unfold space_motion_sample. destruct (Qeq_bool _ 0); [by intros [= <- <-]|].
  cbv zeta. apply _emit_cursor_moves_down_keys.
Qed.

Lemma _on_input_update_ok t x y et self self' :
  timers_ok self → mods_ok self →
  _on_input_update pow_half t x y et self = Some self' →
  timers_ok self' ∧ mods_ok self'.
Proof.
  intros Ht Hm. unfold _on_input_update.
  destruct (touch_states self !! t) as [state|]; [|by intros [= <-]].
  case_bool_decide; [|by intros [= <-]].
  unfold _on_space_motion_touch.
  destruct (space_tracking self !! t) as [tr|]; [|by intros [= <-]].
  destruct (negb (cursor_mode tr)); [by intros [= <-]|].
  destruct (space_motion_sample pow_half tr x y et (engine self))
    as [[tr' e']|] eqn:Es; [|done].
  cbn [mbind option_bind]. intros [= <-].
  apply space_motion_sample_down_keys in Es. split.
  - by apply (timers_ok_ext self).
  - by apply (mods_ok_ext self).
Qed.

Lemma on_window_event_ok event now self b self' :
  timers_ok self → mods_ok self →
  on_window_event pow_half event now self = Some (b, self') →
  timers_ok self' ∧ mods_ok self'.
Proof.
  intros Ht Hm. unfold on_window_event.
  assert (∀ t x y,
            (match _find_key_at x y self with
             | None => Some (false, self)
             | Some _ =>
                 self ← _on_input_begin t x y (event_time event) now self;
                 self ← _update_shift_labels self;
                 Some (true, self)
             end) = Some (b, self') → timers_ok self' ∧ mods_ok self') as Hbegin.
  { intros t x y. destruct (_find_key_at x y self); [|by intros [= <- <-]].
    destruct (_on_input_begin_ok t x y (event_time event) now self Ht Hm)
      as (s1 & -> & Ht1 & Hm1).
    cbn [mbind option_bind].
    destruct (mods_ok_update_shift_labels s1 Hm1) as [b' ->].
    cbn [mbind option_bind]. intros [= <- <-]. split.
    - by apply (timers_ok_ext s1).
    - by apply (mods_ok_ext s1). }
  assert (∀ t,
            (if bool_decide (t ∈ dom (touch_states self)) then
               self ← _on_input_end t (event_time event) now self;
               self ← _update_shift_labels self;
               Some (true, self)
             else Some (false, self)) = Some (b, self') →
            timers_ok self' ∧ mods_ok self') as Hend.
  { intros t. case_bool_decide as Hin; [|by intros [= <- <-]].
    apply elem_of_dom in Hin as [state E].
    destruct (_on_input_end_ok t (event_time event) now state self Ht Hm E)
      as (s1 & -> & Ht1 & Hm1 & _).
    cbn [mbind option_bind].
    destruct (mods_ok_update_shift_labels s1 Hm1) as [b' ->].
    cbn [mbind option_bind]. intros [= <- <-]. split.
    - by apply (timers_ok_ext s1).
    - by apply (mods_ok_ext s1). }
  assert (∀ t x y,
            (if bool_decide (t ∈ dom (touch_states self)) then
               self ← _on_input_update pow_half t x y (event_time event) self;
               Some (true, self)
             else Some (false, self)) = Some (b, self') →
            timers_ok self' ∧ mods_ok self') as Hupd.
  { intros t x y. case_bool_decide as Hin; [|by intros [= <- <-]].
    destruct (_on_input_update pow_half t x y (event_time event) self) as [s1|] eqn:E1;
      [|done].
    cbn [mbind option_bind]. intros [= <- <-].
    by apply (_on_input_update_ok t x y (event_time event) self). }
  destruct (event_type event); try (by intros [= <- <-]);
    destruct (event_coords event) as [[x y]|]; try (by intros [= <- <-]);
    first [apply Hbegin | apply Hend | apply Hupd].
Qed.

End EventsOk.

Lemma owns_unique state id1 id2 : owns state id1 → owns state id2 → id1 = id2.
Proof. intros [[? ?]|[? ?]] [[? ?]|[? ?]]; congruence. Qed.

Lemma mods_ok_source_remove id self :
  mods_ok self → mods_ok (glib_source_remove id self).
Proof. by apply mods_ok_ext. Qed.

(** The delay of a repeat has elapsed: the record of the contact moves from
    the delay source, which GLib then destroys, to the new tick source. *)
Lemma timers_ok_repeat_delay_done id src t k state self :
  timers_ok self →
  sources (glib self) !! id = Some src →
  callback src = cb_repeat_delay_done t k →
  repeat_states self !! t = Some state →
  timers_ok
    (glib_source_remove id
       (set_repeat_states
          (<[t := {| delay_source := None;
                     repeat_source := Some (next_source_id (glib self)) |}]>
             (repeat_states self))
          (set_glib (timeout_add 70 (cb_repeat_tick t k) (glib self)).2 self))).
Proof.
  intros [H1 H2 H3 H4 H5] Hsrc Hcb Hst.
  assert (owns state id) as Hown.
  { destruct (H2 id src t k Hsrc) as (st & E & Hown); [left; done|]. congruence. }
  split; proj; simpl.
  - intros t1 t2 [s1 E1] [s2 E2].
    assert (∀ t' s', <[t:={| delay_source := None;
                             repeat_source := Some (next_source_id (glib self)) |}]>
                       (repeat_states self) !! t' = Some s' → t' = t) as Hall.
    { intros t' s' [[<- _]|[_ E']]%lookup_insert_Some; [done|].
      apply H1; eauto. }
    rewrite (Hall _ _ E1), (Hall _ _ E2). done.
  - intros id0 src0 t0 k0 Hsrc0 Hrep.
    apply lookup_delete_Some in Hsrc0 as [Hne Hsrc0].
    apply lookup_insert_Some in Hsrc0 as [[<- <-]|[Hne' Hsrc0]].
    + destruct Hrep as [Hrep|Hrep]; simpl in Hrep; [done|].
      injection Hrep as <- <-. rewrite lookup_insert_eq.
      eexists. split; [done|]. by right.
    + exfalso. destruct (H2 id0 src0 t0 k0 Hsrc0 Hrep) as (st0 & E0 & Hown0).
      assert (t0 = t) as -> by (apply H1; eauto).
      rewrite Hst in E0. injection E0 as <-.
      apply Hne. by apply (owns_unique state).
  - intros id0 [src0 Hsrc0].
    apply lookup_delete_Some in Hsrc0 as [Hne Hsrc0].
    apply lookup_insert_Some in Hsrc0 as [[<- <-]|[Hne' Hsrc0]]; [lia|].
    destruct (H3 id0); [eauto|]. lia.
  - lia.
  - intros t' [s' E']. apply lookup_insert_Some in E' as [[<- _]|[_ E']];
      apply H5; eauto.
Qed.

Lemma dispatch_ok id self :
  timers_ok self → mods_ok self →
  timers_ok (dispatch id self) ∧ mods_ok (dispatch id self).
Proof.
  intros Ht Hm. unfold dispatch.
  destruct (sources (glib self) !! id) as [src|] eqn:Hsrc; [|done].
  unfold run_callback. destruct (callback src) as [t k|t k|t|k] eqn:Hcb.
  - unfold _repeat_delay_done.
    destruct (touch_lost t k self);
      [split; [by apply timers_ok_source_remove | by apply mods_ok_source_remove]|].
    destruct (repeat_states self !! t) as [state|] eqn:Hst;
      [|split; [by apply timers_ok_source_remove | by apply mods_ok_source_remove]].
    cbn [timeout_add]. split.
    + by apply (timers_ok_repeat_delay_done id src t k state).
    + by apply (mods_ok_ext self).
  - unfold _repeat_tick. destruct (touch_lost t k self).
    + split.
      * by apply timers_ok_source_remove, timers_ok_cancel_repeat.
      * apply (mods_ok_ext self); [by rewrite _cancel_repeat_eq..|done].
    + split; [by apply (timers_ok_ext self) | by apply (mods_ok_ext self)].
  - unfold _enter_space_cursor_mode.
    destruct (touch_lost t KEY_SPACE self);
      [split; [by apply timers_ok_source_remove | by apply mods_ok_source_remove]|].
    destruct (space_tracking self !! t) as [tr|];
      [|split; [by apply timers_ok_source_remove | by apply mods_ok_source_remove]].
    rewrite _set_space_cursor_visual_eq. split.
    + apply (timers_ok_ext (glib_source_remove id self)); [done..|].
      by apply timers_ok_source_remove.
    + by apply (mods_ok_ext self).
  - rewrite _update_visual_eq. split.
    + apply (timers_ok_ext (glib_source_remove id self)); [done..|].
      by apply timers_ok_source_remove.
    + by apply (mods_ok_ext self).
Qed.

Lemma _update_key_rects_ok geometry self :
  timers_ok self → mods_ok self →
  timers_ok (_update_key_rects geometry self) ∧
  mods_ok (_update_key_rects geometry self).
Proof.
  intros Ht Hm. split; [by apply (timers_ok_ext self) | by apply (mods_ok_ext self)].
Qed.

Lemma init_ok enabled shortcut capslock :
  timers_ok (init enabled shortcut capslock) ∧
  mods_ok (init enabled shortcut capslock).
Proof.
  split; split; unfold init; proj.
  - by intros t1 t2 [s1 E1].
  - by intros id src t k E.
  - by intros id [src E].
  - done.
  - by intros t [s E].
  - intros k Hk. exists ModifierState_default. by apply lookup_gset_to_gmap_Some.
  - intros k st _ [_ <-]%lookup_gset_to_gmap_Some. done.
Qed.

Section ReachableOk.
Variable pow_half : Q → Q.

Lemma handle_ok i self self' :
  timers_ok self → mods_ok self →
  handle pow_half i self = Some self' →
  timers_ok self' ∧ mods_ok self'.
Proof.
  intros Ht Hm. destruct i as [event now|id|geometry]; cbn [handle].
  - destruct (on_window_event pow_half event now self) as [[b s1]|] eqn:E; [|done].
    intros [= <-]. by apply (on_window_event_ok pow_half event now self b).
  - intros [= <-]. by apply dispatch_ok.
  - intros [= <-]. by apply _update_key_rects_ok.
Qed.

(** Every state the program reaches has consistent bookkeeping. *)
Lemma reachable_ok self :
  reachable pow_half self → timers_ok self ∧ mods_ok self.
Proof.
  induction 1 as [enabled shortcut capslock|self i self' _ [Ht Hm] Hstep].
  - apply init_ok.
  - by apply (handle_ok i self).
Qed.

Lemma run_reachable inputs self self' :
  reachable pow_half self → run pow_half inputs self = Some self' →
  reachable pow_half self'.
Proof.
  revert self. induction inputs as [|i inputs IH]; intros self Hr; cbn [run].
  - by intros [= <-].
  - destruct (handle pow_half i self) as [s1|] eqn:E; [|done].
    cbn [mbind option_bind]. apply IH. by eapply reachable_step.
Qed.

End ReachableOk.

Lemma reachable_started : reachable isqrt started.
Proof.
  apply (reachable_step isqrt (init true [KEY_LEFTSHIFT; KEY_SPACE] false)
           (SizeAllocate example_geometry)); [apply reachable_init | done].
Qed.

(** ** The key rectangles are only written by [_update_key_rects] *)




(** ** Repeat timers: one at a time *)





Lemma reachable_a_held : reachable isqrt a_held.
Proof.
  apply (run_reachable isqrt [WindowEvent (touch TOUCH_BEGIN 1 KEY_A 1000) 1] started);
    [apply reachable_started|]. vm_compute. reflexivity.
Qed.



(** ** Opposite modifiers *)

(** C1, amended. In every state the program reaches, the press of a
    modifier key returns.  For a Shift key: if the other Shift key is held,
    it is reset (not held, not latched, not used in a combo) and is no longer
    down, and the device receives its release before the press of the pressed
    key (which is sent unless that key is already down).  For a key of the
    Ctrl, Alt or Super/Meta pairs: the entry of every other modifier, so that
    of the other key of its pair, is left as it is, no key is released, and
    the device receives at most the press of the key itself. *)
Theorem shift_press_releases_opposite (pow_half : Q → Q) (key_code : Z)
    (self : QingBoard) :
  reachable pow_half self →
  key_code ∈ MODIFIER_KEYS →
  ∃ self',
    _on_modifier_press_global key_code self = Some self' ∧
    (key_code ∈ SHIFT_KEYS →
     ∀ state,
       modifiers self !! opposite key_code = Some state → pressed state = true →
       modifiers self' !! opposite key_code = Some ModifierState_default ∧
       (opposite key_code ∉ down_keys (engine self')) ∧
       device (engine self')
         = device (engine self)
           ++ (opposite key_code, 0)
              :: (if bool_decide (key_code ∈ down_keys (engine self)) then []
                  else [(key_code, 1)])) ∧
    (key_code ∉ SHIFT_KEYS →
     (∀ k, k ≠ key_code → modifiers self' !! k = modifiers self !! k) ∧
     down_keys (engine self') = down_keys (engine self) ∪ {[ key_code ]} ∧
     device (engine self')
       = device (engine self)
         ++ (if bool_decide (key_code ∈ down_keys (engine self)) then []
             else [(key_code, 1)])).
Proof.
  intros Hreach Hmod.
  destruct (reachable_ok pow_half self Hreach) as [_ Hm].
  destruct (mods_ok_press_global key_code self Hm Hmod) as (st & Est & Epress & _).
  exists (pressed_global key_code st self). split; [done|]. split.
  - intros Hshift state Eopp Hheld.
    destruct (opposite_shift key_code Hshift) as [Hopp Hne].
    pose proof (shift_held_down self Hm _ _ Hopp Eopp Hheld) as Hdown.
    unfold pressed_global. cbv zeta. rewrite (decide_True _ _ Hshift).
    unfold force_released. proj. split_and!.
    + apply lookup_insert_eq.
    + rewrite !set_key_state_down_keys. set_solver.
    + rewrite !set_key_state_device, <- app_assoc. f_equal.
      unfold key_event at 1. rewrite (bool_decide_eq_true_2 _ Hdown).
      unfold key_event. rewrite set_key_state_down_keys.
      assert (bool_decide (key_code ∈ down_keys (engine self) ∖ {[opposite key_code]})
              = bool_decide (key_code ∈ down_keys (engine self))) as ->.
      { apply bool_decide_ext. set_solver. }
      reflexivity.
  - intros Hshift.
    unfold pressed_global. cbv zeta. rewrite (decide_False _ _ Hshift).
    proj. split_and!.
    + intros k Hk. by rewrite lookup_insert_ne.
    + by rewrite set_key_state_down_keys.
    + rewrite set_key_state_device. unfold key_event. by case_bool_decide.
Qed.

Lemma reachable_shift_held : reachable isqrt shift_held.
Proof.
  apply (run_reachable isqrt [WindowEvent (touch TOUCH_BEGIN 1 KEY_LEFTSHIFT 1000) 1]
           started); [apply reachable_started|]. vm_compute. reflexivity.
Qed.

Lemma shift_press_releases_opposite_witness :
  ∃ self',
    _on_modifier_press_global KEY_RIGHTSHIFT shift_held = Some self' ∧
    modifiers self' !! KEY_LEFTSHIFT = Some ModifierState_default ∧
    device (engine self')
      = [(KEY_LEFTSHIFT, 1); (KEY_LEFTSHIFT, 0); (KEY_RIGHTSHIFT, 1)].
Proof.
  destruct (shift_press_releases_opposite isqrt KEY_RIGHTSHIFT shift_held)
    as (self' & Epress & Hshift & _).
  - apply reachable_shift_held.
  - apply SHIFT_KEYS_modifiers, RIGHTSHIFT_shift.
  - destruct (Hshift RIGHTSHIFT_shift
                {| pressed := true; latched := false; used_in_combo := false |})
      as (Emods & _ & Edev).
    + by vm_compute.
    + reflexivity.
    + exists self'. split; [exact Epress|]. split; [exact Emods|].
      rewrite Edev. by vm_compute.
Defined.

(** C1 as stated fails for the Ctrl pair: with Right Ctrl held, the press of
    Left Ctrl leaves Right Ctrl held and sends no release for it. *)
Lemma ctrl_press_keeps_opposite_ctrl_held :
  (pressed <$> modifiers right_ctrl_held !! KEY_RIGHTCTRL) = Some true ∧
  (self' ← _on_modifier_press_global KEY_LEFTCTRL right_ctrl_held;
   pressed <$> modifiers self' !! KEY_RIGHTCTRL) = Some true ∧
  (device ∘ engine <$> _on_modifier_press_global KEY_LEFTCTRL right_ctrl_held)
    = Some [(KEY_RIGHTCTRL, 1); (KEY_LEFTCTRL, 1)].
Proof. split_and!; vm_compute; reflexivity. Qed.

(** ** Shortcut emission *)

(** X1. After [_emit_shortcut] the keys that are down are those that were
    down before, except the modifier members of the combo: every modifier of
    the combo ends released, also one that was down before the shortcut, and
    no other key changes. *)
Theorem emit_shortcut_down_keys (combo : list Z) (e : KeyboardEngine) :
  down_keys (_emit_shortcut combo e)
  = down_keys e ∖ list_to_set (combo_mods combo).
Proof.
  apply set_eq. intros k. rewrite _emit_shortcut_down_keys.
  rewrite elem_of_difference, elem_of_list_to_set.
  unfold combo_mods. rewrite list_elem_of_filter. tauto.
Qed.

(** X2. The events of [_emit_shortcut] for a combo whose modifier members
    are pairwise distinct: a press for each modifier member that is not
    already down, in combo order; then a tap (press, release) of each
    non-modifier member in order, or of each modifier member when the combo
    has no other key; then a release of every modifier member, in reverse
    order. *)
Theorem emit_shortcut_events (combo : list Z) (e : KeyboardEngine) :
  NoDup (combo_mods combo) →
  device (_emit_shortcut combo e)
  = device e
    ++ ((λ m, (m, 1)) <$> filter (λ m, m ∉ down_keys e) (combo_mods combo))
    ++ (combo_taps combo ≫= taps 1)
    ++ ((λ m, (m, 0)) <$> reverse (combo_mods combo)).
Proof.
  intros Hnd. rewrite _emit_shortcut_eq.
  rewrite release_all_device.
  - by rewrite tap_all_device, press_all_device, <- !app_assoc.
  - by rewrite reverse_Permutation.
  - intros k Hk%elem_of_reverse.
    rewrite tap_all_down_keys, press_all_down_keys. set_solver.
Qed.

Lemma emit_shortcut_events_witness :
  device (_emit_shortcut [KEY_LEFTCTRL; KEY_LEFTALT; KEY_A]
            {| device := []; down_keys := {[ KEY_LEFTCTRL ]} |})
  = [(KEY_LEFTALT, 1); (KEY_A, 1); (KEY_A, 0); (KEY_LEFTALT, 0); (KEY_LEFTCTRL, 0)].
Proof.
  rewrite (emit_shortcut_events [KEY_LEFTCTRL; KEY_LEFTALT; KEY_A]).
  - by vm_compute.
  - by vm_compute; repeat constructor; set_solver.
Defined.

(** ** No handler raises *)

Lemma step_threshold_of_nonzero speed : Qeq_bool (step_threshold_of speed) 0 = false.
Proof. apply Qeq_bool_false_pos, step_threshold_pos. Qed.

Lemma _emit_cursor_moves_total tracking T e :
  Qeq_bool T 0 = false → is_Some (_emit_cursor_moves tracking T e).
Proof.
  intros E. unfold _emit_cursor_moves. rewrite E.
  destruct (Qle_bool _ _); destruct (0 <? _); eauto.
Qed.

Section Total.
Variable pow_half : Q → Q.

Lemma _on_input_update_total t x y et self :
  is_Some (_on_input_update pow_half t x y et self).
Proof.
  unfold _on_input_update. destruct (touch_states self !! t); [|eauto].
  case_bool_decide; [|eauto]. unfold _on_space_motion_touch.
  destruct (space_tracking self !! t) as [tr|]; [|eauto].
  destruct (negb (cursor_mode tr)); [eauto|].
  unfold space_motion_sample. destruct (Qeq_bool _ 0); [eauto|]. cbv zeta.
  match goal with
  | |- context [_emit_cursor_moves ?tr1 ?T ?e] =>
      destruct (_emit_cursor_moves_total tr1 T e) as [[tr' e'] ->];
        [apply step_threshold_of_nonzero|]
  end.
  eauto.
Qed.

Lemma on_window_event_total event now self :
  timers_ok self → mods_ok self →
  is_Some (on_window_event pow_half event now self).
Proof.
  intros Ht Hm. unfold on_window_event.
  assert (∀ t x y,
            is_Some (match _find_key_at x y self with
             | None => Some (false, self)
             | Some _ =>
                 self ← _on_input_begin t x y (event_time event) now self;
                 self ← _update_shift_labels self;
                 Some (true, self)
             end)) as Hbegin.
  { intros t x y. destruct (_find_key_at x y self); [|eauto].
    destruct (_on_input_begin_ok t x y (event_time event) now self Ht Hm)
      as (s1 & -> & Ht1 & Hm1).
    cbn [mbind option_bind].
    destruct (mods_ok_update_shift_labels s1 Hm1) as [b' ->]. eauto. }
  assert (∀ t,
            is_Some (if bool_decide (t ∈ dom (touch_states self)) then
               self ← _on_input_end t (event_time event) now self;
               self ← _update_shift_labels self;
               Some (true, self)
             else Some (false, self))) as Hend.
  { intros t. case_bool_decide as Hin; [|eauto].
    apply elem_of_dom in Hin as [state E].
    destruct (_on_input_end_ok t (event_time event) now state self Ht Hm E)
      as (s1 & -> & Ht1 & Hm1 & _).
    cbn [mbind option_bind].
    destruct (mods_ok_update_shift_labels s1 Hm1) as [b' ->]. eauto. }
  assert (∀ t x y,
            is_Some (if bool_decide (t ∈ dom (touch_states self)) then
               self ← _on_input_update pow_half t x y (event_time event) self;
               Some (true, self)
             else Some (false, self))) as Hupd.
  { intros t x y. case_bool_decide as Hin; [|eauto].
    destruct (_on_input_update_total t x y (event_time event) self) as [s1 ->].
    eauto. }
  destruct (event_type event); try (by eauto);
    destruct (event_coords event) as [[x y]|]; try (by eauto);
    first [apply Hbegin | apply Hend | apply Hupd].
Qed.

(** X3. In every state the program reaches, every input (window event,
    timer, size allocation) is handled without an exception: no lookup in
    [self.modifiers] raises [KeyError] and the cursor step threshold is never
    zero. *)
Theorem handle_never_raises (i : Input) (self : QingBoard) :
  reachable pow_half self → is_Some (handle pow_half i self).
Proof.
  intros Hreach. destruct (reachable_ok pow_half self Hreach) as [Ht Hm].
  destruct i as [event now|id|geometry]; cbn [handle]; [|eauto..].
  destruct (on_window_event_total event now self Ht Hm) as [[b s'] ->]. eauto.
Qed.

End Total.

Lemma handle_never_raises_witness :
  is_Some (handle isqrt (WindowEvent (touch TOUCH_END 1 KEY_LEFTSHIFT 1200) (12 # 10))
             shift_held).
Proof. apply handle_never_raises, reachable_shift_held. Defined.

(** Outside the reachable states the handlers can raise: with the entry of
    Left Shift missing from [self.modifiers], pressing it is a [KeyError]. *)
Lemma handle_raises_without_registry :
  handle isqrt (WindowEvent (touch TOUCH_BEGIN 1 KEY_LEFTSHIFT 1000) 1)
    (set_modifiers ∅ started) = None.
Proof. vm_compute. reflexivity. Qed.

(** ** The device log *)

Lemma last_event_snoc key log k v :
  last_event key (log ++ [(k, v)])
  = if decide (k = key) then Some v else last_event key log.
Proof.
  unfold last_event. rewrite filter_app, filter_cons, filter_nil.
  change ((k, v).1) with k. case_decide.
  - by rewrite last_snoc.
  - by rewrite app_nil_r.
Qed.

Lemma last_event_app_other key log log' :
  (∀ ev, ev ∈ log' → ev.1 ≠ key) →
  last_event key (log ++ log') = last_event key log.
Proof.
  intros Hother. unfold last_event. rewrite filter_app.
  assert (filter (λ ev : Z * Z, ev.1 = key) log' = []) as ->.
  { induction log' as [|ev l IH]; [done|].
    rewrite filter_cons, decide_False; [|apply Hother; by left].
    apply IH. intros ev' Hev'. apply Hother. by right. }
  by rewrite app_nil_r.
Qed.

Lemma synced_set_key_state key k pressed e :
  synced key e → synced key (set_key_state k pressed e).
Proof.
  unfold synced. intros H.
  rewrite set_key_state_down_keys, set_key_state_device. unfold key_event.
  destruct pressed; case_bool_decide as Hk; rewrite ?app_nil_r;
    rewrite ?last_event_snoc; try case_decide; subst; set_solver.
Qed.

Lemma synced_tap_key_other key k e :
  k ≠ key → synced key e → synced key (tap_key k e).
Proof.
  unfold synced, tap_key. cbn [device down_keys]. intros Hne H.
  rewrite last_event_app_other; [done|].
  intros ev [->|[->|[]%elem_of_nil]%elem_of_cons]%elem_of_cons; done.
Qed.

Lemma synced_tap_key key k e :
  k ∉ down_keys e → synced key e → synced key (tap_key k e).
Proof.
  intros Hk H. destruct (decide (k = key)) as [->|Hne];
    [|by apply synced_tap_key_other].
  unfold synced, tap_key. cbn [device down_keys].
  change [(key, 1); (key, 0)] with ([(key, 1)] ++ [(key, 0)]).
  rewrite app_assoc, last_event_snoc, decide_True by done. split; [done|]. done.
Qed.

Lemma synced_tap_times key n k e :
  k ∉ down_keys e → synced key e → synced key (tap_times n k e).
Proof.
  intros Hk H. unfold tap_times.
  induction (Z.to_nat n) as [|m IH]; [done|]. rewrite Nat.iter_succ.
  apply synced_tap_key; [|done].
  fold (tap_times (Z.of_nat m) k e).
  change (Nat.iter m (tap_key k) e) with (Nat.iter m (tap_key k) e).
  assert (down_keys (Nat.iter m (tap_key k) e) = down_keys e) as ->; [|done].
  clear. induction m as [|m IH]; [done|]. by rewrite Nat.iter_succ.
Qed.

(** Releasing a list of keys restores the agreement for those of them that
    are down. *)
Lemma synced_release_all l e :
  (∀ k, synced k e ∨ (k ∈ l ∧ k ∈ down_keys e)) →
  ∀ k, synced k (foldl (λ e key, set_key_state key false e) e l).
Proof.
  revert e. induction l as [|k0 l IH]; intros e H k; simpl.
  - destruct (H k) as [?|[[]%elem_of_nil _]]; done.
  - apply IH. clear k. intros k.
    destruct (H k) as [Hs|[Hin Hdown]]; [left; by apply synced_set_key_state|].
    destruct (decide (k = k0)) as [->|Hne].
    + left. unfold synced.
      rewrite set_key_state_down_keys, set_key_state_device. unfold key_event.
      rewrite bool_decide_eq_true_2, last_event_snoc, decide_True by done.
      set_solver.
    + right. apply elem_of_cons in Hin as [?|Hin]; [done|].
      split; [done|]. rewrite set_key_state_down_keys. set_solver.
Qed.

Lemma synced_tap_all_other k l e :
  k ∉ l → synced k e → synced k (foldl (λ e key, tap_key key e) e l).
Proof.
  revert e. induction l as [|a l IH]; intros e Hk Hs; simpl; [done|].
  apply IH; [set_solver|]. apply synced_tap_key_other; [set_solver|done].
Qed.

Lemma synced_tap_all_up k l e :
  (∀ x, x ∈ l → x ∉ down_keys e) →
  synced k e → synced k (foldl (λ e key, tap_key key e) e l).
Proof.
  revert e. induction l as [|a l IH]; intros e Hup Hs; simpl; [done|].
  apply IH.
  - intros x Hx. cbn [tap_key down_keys]. apply Hup. by right.
  - apply synced_tap_key; [|done]. apply Hup. by left.
Qed.

Lemma synced_emit_shortcut combo e :
  (∀ k, k ∈ down_keys e → k ∈ MODIFIER_KEYS) →
  (∀ k, synced k e) → ∀ k, synced k (_emit_shortcut combo e).
Proof.
  intros Hmods Hs. rewrite _emit_shortcut_eq.
  set (e1 := foldl (λ e key, set_key_state key true e) e (combo_mods combo)).
  assert (∀ k, synced k e1) as Hs1.
  { intros k. apply (foldl_preserves (synced k)); [done|].
    intros ???. by apply synced_set_key_state. }
  assert (down_keys e1 = down_keys e ∪ list_to_set (combo_mods combo)) as Hd1
    by apply press_all_down_keys.
  assert (∀ k, k ∈ down_keys e1 → k ∈ MODIFIER_KEYS) as Hmods1.
  { intros k. rewrite Hd1, elem_of_union, elem_of_list_to_set.
    unfold combo_mods. rewrite list_elem_of_filter. intros [?|[? _]]; auto. }
  apply synced_release_all. intros k.
  unfold combo_taps.
  destruct (filter (λ code, code ∉ MODIFIER_KEYS) combo) as [|n normals] eqn:En.
  - destruct (decide (k ∈ combo_mods combo)) as [Hin|Hout].
    + right. split; [by apply elem_of_reverse|].
      rewrite tap_all_down_keys, Hd1. set_solver.
    + left. by apply synced_tap_all_other.
  - left. apply synced_tap_all_up; [|done].
    intros x Hx Hdown. rewrite <- En in Hx.
    apply list_elem_of_filter in Hx as [Hx _]. by apply Hx, Hmods1.
Qed.

(** ** The engine and the registry stay in agreement *)

Lemma engine_ok_ext self self' :
  modifiers self' = modifiers self → engine self' = engine self →
  engine_ok self → engine_ok self'.
Proof. intros Hm He [H1 H2 H3]. split; rewrite ?Hm, ?He; done. Qed.

Lemma engine_ok_down_modifier self k :
  engine_ok self → k ∈ down_keys (engine self) → k ∈ MODIFIER_KEYS.
Proof.
  intros [H1 H2 _] Hk. destruct (H2 k Hk) as (st & E & _).
  rewrite <- H1. apply elem_of_dom. eauto.
Qed.

Lemma engine_ok_registered self k :
  engine_ok self → k ∈ MODIFIER_KEYS → is_Some (modifiers self !! k).
Proof. intros [H1 _ _] Hk. apply elem_of_dom. by rewrite H1. Qed.

(** The engine changes the state of [key]. *)
Lemma engine_ok_set_key_state key b self :
  engine_ok self →
  (b = true → ∃ state, modifiers self !! key = Some state ∧ active state = true) →
  engine_ok (engine_set_key_state key b self).
Proof.
  intros [H1 H2 H3] Hb. split; proj; [done| |].
  - intros k. rewrite set_key_state_down_keys. destruct b.
    + intros [Hk| ->%elem_of_singleton]%elem_of_union; auto.
    + intros [Hk _]%elem_of_difference. auto.
  - intros k. by apply synced_set_key_state.
Qed.

(** The registry changes the entry of [key]. *)
Lemma engine_ok_update_modifier key state self :
  engine_ok self → is_Some (modifiers self !! key) →
  (key ∈ down_keys (engine self) → active state = true) →
  engine_ok (update_modifier key state self).
Proof.
  intros [H1 H2 H3] Hsome Hact. split; proj; [| |done].
  - rewrite dom_insert_L, <- H1. apply elem_of_dom in Hsome. set_solver.
  - intros k Hk. destruct (decide (k = key)) as [->|Hne].
    + rewrite lookup_insert_eq. eauto.
    + rewrite lookup_insert_ne by done. auto.
Qed.

(** The key goes up and its entry changes. *)
Lemma engine_ok_released key state self :
  engine_ok self → is_Some (modifiers self !! key) →
  engine_ok (set_engine (set_key_state key false (engine self))
               (update_modifier key state self)).
Proof.
  intros H Hsome.
  apply (engine_ok_ext
           (update_modifier key state (engine_set_key_state key false self)));
    [done..|].
  apply engine_ok_update_modifier; [by apply engine_ok_set_key_state|done|].
  proj. rewrite set_key_state_down_keys. set_solver.
Qed.

Lemma engine_ok_force_released key self :
  engine_ok self → is_Some (modifiers self !! key) →
  engine_ok (force_released key self).
Proof.
  intros H Hsome. unfold force_released.
  apply (engine_ok_ext
           (set_engine (set_key_state key false (engine self))
              (update_modifier key ModifierState_default self))); [done..|].
  by apply engine_ok_released.
Qed.

Lemma force_released_registered key self k :
  is_Some (modifiers self !! k) → is_Some (modifiers (force_released key self) !! k).
Proof.
  intros H. unfold force_released. proj.
  destruct (decide (k = key)) as [->|]; [rewrite lookup_insert_eq; eauto|].
  by rewrite lookup_insert_ne.
Qed.

Lemma engine_ok_pressed_global key state self :
  engine_ok self → key ∈ MODIFIER_KEYS →
  engine_ok (pressed_global key state self).
Proof.
  intros H Hk. unfold pressed_global. cbv zeta.
  pose proof (engine_ok_registered self key H Hk) as Hsome.
  assert (engine_ok (update_modifier key
            (set_used_in_combo false (set_pressed true state)) self)) as H1.
  { by apply engine_ok_update_modifier. }
  set (s1 := update_modifier key _ self) in *.
  assert (modifiers s1 !! key
          = Some (set_used_in_combo false (set_pressed true state))) as E1.
  { unfold s1. proj. apply lookup_insert_eq. }
  set (s2 := if decide (key ∈ SHIFT_KEYS) then force_released (opposite key) s1 else s1).
  assert (engine_ok s2 ∧
          modifiers s2 !! key
          = Some (set_used_in_combo false (set_pressed true state))) as [H2 E2].
  { unfold s2. case_decide as Hs; [|done].
    destruct (opposite_shift key Hs) as [Ho Hne]. split.
    - apply engine_ok_force_released; [done|].
      by apply engine_ok_registered, SHIFT_KEYS_modifiers.
    - unfold force_released. proj. by rewrite lookup_insert_ne. }
  apply (engine_ok_ext (engine_set_key_state key true s2)); [done..|].
  apply engine_ok_set_key_state; [done|]. intros _. eauto.
Qed.

Lemma engine_ok_toggled key state self :
  engine_ok self → is_Some (modifiers self !! key) →
  engine_ok (toggled key state self).
Proof.
  intros H Hsome.
  destruct (toggled_frame key state self) as (_ & _ & _ & _ & Hm & He).
  destruct (latched state) eqn:Hl.
  - apply (engine_ok_ext
             (set_engine (set_key_state key false (engine self))
                (update_modifier key
                   (set_latched (negb true) (set_pressed false state)) self)));
      [done..|].
    by apply engine_ok_released.
  - apply (engine_ok_ext
             (update_modifier key
                (set_latched (negb false) (set_pressed false state)) self));
      [done..|].
    by apply engine_ok_update_modifier.
Qed.

Lemma engine_ok_emit_shortcut combo self :
  engine_ok self →
  engine_ok (set_engine (_emit_shortcut combo (engine self)) self).
Proof.
  intros H. pose proof H as [H1 H2 H3]. split; proj; [done| |].
  - intros k Hk. apply _emit_shortcut_down_keys in Hk as [Hk _]. auto.
  - apply synced_emit_shortcut; [|done]. intros k. by apply engine_ok_down_modifier.
Qed.

Lemma engine_ok_handle_shift_double_tap now self self' :
  engine_ok self →
  _handle_shift_double_tap now self = Some self' → engine_ok self'.
Proof.
  intros H.
  assert (shifts_registered self) as Hreg.
  { intros k Hk. by apply engine_ok_registered, SHIFT_KEYS_modifiers. }
  rewrite _handle_shift_double_tap_eq by done. intros [= <-].
  destruct (negb _); [by apply (engine_ok_ext self)|].
  destruct (double_tap_hit now self); [|by apply (engine_ok_ext self)].
  cbv zeta.
  set (released := force_released KEY_LEFTSHIFT (force_released KEY_RIGHTSHIFT self)).
  apply (engine_ok_ext
           (set_engine (_emit_shortcut (double_shift_shortcut self) (engine released))
              released)); [done..|].
  apply engine_ok_emit_shortcut. unfold released.
  apply engine_ok_force_released.
  - apply engine_ok_force_released; [done|]. apply Hreg, RIGHTSHIFT_shift.
  - apply force_released_registered, Hreg, LEFTSHIFT_shift.
Qed.

Lemma engine_ok_release_global key now self self' :
  engine_ok self → key ∈ MODIFIER_KEYS →
  _on_modifier_release_global key now self = Some self' → engine_ok self'.
Proof.
  intros H Hk. destruct (engine_ok_registered self key H Hk) as [state E].
  destruct (used_in_combo state) eqn:Hc.
  - unfold _on_modifier_release_global. rewrite E. simpl. rewrite Hc.
    intros [= <-].
    destruct (latched state) eqn:Hl; simpl; rewrite ?_paint_modifier_eq.
    + apply (engine_ok_ext
               (update_modifier key (set_used_in_combo false (set_pressed false state))
                  self)).
      { unfold update_modifier. proj. by rewrite insert_insert_eq. }
      { done. }
      apply engine_ok_update_modifier; [done|eauto|].
      intros _. unfold active. proj. rewrite Hl. apply orb_true_r.
    + apply (engine_ok_ext
               (set_engine (set_key_state key false (engine self))
                  (update_modifier key (set_used_in_combo false (set_pressed false state))
                     self))).
      { unfold update_modifier. proj. by rewrite insert_insert_eq. }
      { done. }
      apply engine_ok_released; [done|eauto].
  - rewrite (_on_modifier_release_global_clean _ _ state) by done.
    assert (engine_ok (toggled key state self)) as Hok
      by (apply engine_ok_toggled; [done|eauto]).
    case_decide; [by apply engine_ok_handle_shift_double_tap|by intros [= <-]].
Qed.

Lemma engine_ok_release_one_shot self :
  engine_ok self → engine_ok (_release_one_shot_modifiers self).
Proof.
  intros [H1 H2 H3]. split.
  - rewrite <- H1. apply set_eq. intros k. rewrite !elem_of_dom.
    rewrite release_one_shot_modifiers. by rewrite fmap_is_Some.
  - intros k [Hk Hnot]%release_one_shot_down_keys.
    destruct (H2 k Hk) as (st & E & Hact).
    rewrite release_one_shot_modifiers, E. cbn [fmap option_fmap option_map].
    destruct (one_shot st) eqn:Hos; [|eauto].
    destruct Hnot. eauto.
  - intros k. rewrite _release_one_shot_modifiers_eq. cbv zeta. proj.
    unfold engine_after. apply (foldl_preserves (synced k)); [done|].
    intros e [k' st] He. destruct (one_shot st); [|done].
    by apply synced_set_key_state.
Qed.

Lemma engine_ok_mark_used_in_combo self :
  engine_ok self → engine_ok (mark_used_in_combo self).
Proof.
  intros [H1 H2 H3]. unfold mark_used_in_combo. split; proj; [| |done].
  - by rewrite dom_fmap_L.
  - intros k Hk. destruct (H2 k Hk) as (st & E & Hact).
    rewrite lookup_fmap, E. cbn [fmap option_fmap option_map].
    eexists. split; [done|]. by destruct (pressed st).
Qed.

Lemma engine_ok_tap_key key self :
  engine_ok self → key ∉ MODIFIER_KEYS → engine_ok (engine_tap_key key self).
Proof.
  intros H Hk. pose proof H as [H1 H2 H3]. split; proj; [done..|].
  intros k. apply synced_tap_key; [|done].
  intros Hdown. by apply Hk, (engine_ok_down_modifier self).
Qed.

Lemma engine_ok_shifts_registered self : engine_ok self → shifts_registered self.
Proof. intros H k Hk. by apply engine_ok_registered, SHIFT_KEYS_modifiers. Qed.

Lemma engine_ok_update_shift_labels self self' :
  engine_ok self → _update_shift_labels self = Some self' → engine_ok self'.
Proof.
  intros H. destruct (_update_shift_labels_eq self) as [b ->];
    [by apply engine_ok_shifts_registered|].
  intros [= <-]. by apply (engine_ok_ext self).
Qed.

Lemma engine_ok_finish_space_tracking t self :
  engine_ok self → engine_ok (_finish_space_tracking t self).
Proof.
  intros H. rewrite _finish_space_tracking_eq.
  destruct (space_tracking self !! t) as [tr|];
    [|apply engine_ok_tap_key; [done|apply KEY_SPACE_not_modifier]].
  cbv zeta. destruct (negb (cursor_mode tr)).
  - apply (engine_ok_ext (engine_tap_key KEY_SPACE self)); [done..|].
    apply engine_ok_tap_key; [done|apply KEY_SPACE_not_modifier].
  - by apply (engine_ok_ext self).
Qed.

Lemma engine_ok_on_input_end t et now self self' :
  engine_ok self →
  _on_input_end t et now self = Some self' → engine_ok self'.
Proof.
  intros H. destruct (touch_states self !! t) as [state|] eqn:E;
    [|unfold _on_input_end; rewrite E; by intros [= <-]].
  rewrite (_on_input_end_eq _ _ _ state) by done. cbv zeta.
  destruct (contact_removed_frame t state self)
    as (_ & Hm1 & He1 & _).
  assert (engine_ok (contact_removed t state self)) as H1
    by by apply (engine_ok_ext self).
  set (s1 := contact_removed t state self) in *.
  case_bool_decide as Hcaps; [by intros [= <-]|].
  case_bool_decide as Hmod.
  { unfold _on_modifier_release_touch. destruct (negb _); [|by intros [= <-]].
    by apply engine_ok_release_global. }
  assert (∀ s2 s', engine_ok s2 →
            (self ← _update_shift_labels (_release_one_shot_modifiers s2);
             Some (s' self)) = Some self' →
            (∀ s, modifiers (s' s) = modifiers s ∧ engine (s' s) = engine s) →
            engine_ok self') as Hrest.
  { intros s2 s' H2 Heq Hfr.
    pose proof (engine_ok_release_one_shot s2 H2) as H3.
    destruct (_update_shift_labels (_release_one_shot_modifiers s2)) as [s4|] eqn:E4;
      [|done].
    cbn [mbind option_bind] in Heq. injection Heq as <-.
    destruct (Hfr s4) as [? ?].
    apply (engine_ok_ext s4); [done..|].
    by apply (engine_ok_update_shift_labels (_release_one_shot_modifiers s2)). }
  case_bool_decide as Hsp.
  { intros Heq.
    apply (Hrest (_finish_space_tracking t s1) (_update_visual (key_code state) false));
      [by apply engine_ok_finish_space_tracking|done|].
    intros s. by rewrite _update_visual_eq. }
  intros Heq.
  apply (Hrest (_cancel_repeat t s1)
           (λ s, if (if 0 <? count_of (key_code state) self
                     then count_of (key_code state) self - 1 else 0) =? 0
                 then _update_visual (key_code state) false s else s)).
  - apply (engine_ok_ext s1); [by rewrite _cancel_repeat_eq..|done].
  - done.
  - intros s. destruct (_ =? 0); [by rewrite _update_visual_eq|done].
Qed.

Lemma engine_eq (e e' : KeyboardEngine) :
  device e = device e' → down_keys e = down_keys e' → e = e'.
Proof. destruct e, e'. simpl. by intros -> ->. Qed.

Lemma regular_not_modifier key : regular key → key ∉ MODIFIER_KEYS.
Proof. by intros (_ & ? & _). Qed.

Lemma engine_ok_begun_regular t key now self :
  regular key → engine_ok self → engine_ok (begun_regular t key now self).
Proof.
  intros Hreg H.
  destruct (begun_regular_frame t key now self Hreg)
    as (_ & _ & _ & Hdev & Hd & Hm & _).
  apply (engine_ok_ext (engine_tap_key key (mark_used_in_combo self))).
  - by rewrite Hm.
  - apply engine_eq; [by rewrite Hdev|by rewrite Hd].
  - apply engine_ok_tap_key; [|by apply regular_not_modifier].
    by apply engine_ok_mark_used_in_combo.
Qed.

Lemma _begin_space_tracking_registry t self :
  modifiers (_begin_space_tracking t self) = modifiers self ∧
  engine (_begin_space_tracking t self) = engine self.
Proof.
  rewrite _begin_space_tracking_eq. cbv zeta. proj.
  destruct (_cancel_space_long_press_frame t self) as (_ & _ & Hm & He & _). done.
Qed.

Lemma engine_ok_on_input_begin_fresh t x y et now self self' :
  engine_ok self → touch_states self !! t = None →
  _on_input_begin t x y et now self = Some self' → engine_ok self'.
Proof.
  intros H E. rewrite _on_input_begin_fresh by done.
  destruct (_find_key_at x y self) as [key|]; [|by intros [= <-]].
  cbv zeta.
  assert (engine_ok (contact_added t key now self)) as H0
    by by apply (engine_ok_ext self).
  set (s0 := contact_added t key now self) in *.
  case_bool_decide as Hcaps.
  { intros [= <-]. rewrite _flash_regular_key_eq, _update_visual_eq.
    apply (engine_ok_ext (engine_tap_key KEY_CAPSLOCK s0)); [done..|].
    apply engine_ok_tap_key; [done|apply KEY_CAPSLOCK_not_modifier]. }
  case_bool_decide as Hmod.
  { unfold _on_modifier_press_touch.
    destruct (engine_ok_registered s0 key H0 Hmod) as [st Est].
    rewrite Est. cbn [mbind option_bind].
    destruct (negb (pressed st)).
    - rewrite (_on_modifier_press_global_eq key st)
        by (done || by apply engine_ok_shifts_registered).
      cbn [mbind option_bind]. apply engine_ok_update_shift_labels.
      by apply engine_ok_pressed_global.
    - cbn [mbind option_bind]. by apply engine_ok_update_shift_labels. }
  case_bool_decide as Hsp.
  { intros [= <-]. rewrite _update_visual_eq.
    destruct (_begin_space_tracking_registry t (mark_used_in_combo s0)) as [Hm He].
    apply (engine_ok_ext (mark_used_in_combo s0)); [done..|].
    by apply engine_ok_mark_used_in_combo. }
  intros [= <-].
  change (engine_ok (begun_regular t key now self)).
  by apply engine_ok_begun_regular.
Qed.

Lemma engine_ok_on_input_begin t x y et now self self' :
  timers_ok self → mods_ok self → engine_ok self →
  _on_input_begin t x y et now self = Some self' → engine_ok self'.
Proof.
  intros Ht Hm H. destruct (touch_states self !! t) as [state|] eqn:E.
  - destruct (_on_input_end_ok t et now state self Ht Hm E)
      as (s1 & Eend & Ht1 & Hm1 & Hts1).
    assert (touch_states s1 !! t = None) as E1.
    { rewrite Hts1. apply lookup_delete_eq. }
    rewrite (_on_input_begin_active t x y et now state self s1) by done.
    apply engine_ok_on_input_begin_fresh; [|done].
    by apply (engine_ok_on_input_end t et now self).
  - by apply engine_ok_on_input_begin_fresh.
Qed.

Lemma arrow_not_modifier k :
  k = KEY_LEFT ∨ k = KEY_RIGHT ∨ k = KEY_UP ∨ k = KEY_DOWN → k ∉ MODIFIER_KEYS.
Proof.
  intros Hk H. apply (bool_decide_pack _) in H.
  destruct Hk as [->|[->|[->| ->]]]; by vm_compute in H.
Qed.

Lemma engine_ok_tap_times n key self :
  engine_ok self → key ∉ MODIFIER_KEYS →
  engine_ok (set_engine (tap_times n key (engine self)) self).
Proof.
  intros H Hk. pose proof H as [H1 H2 H3]. split; proj; [done| |].
  - intros k. rewrite tap_times_down_keys. auto.
  - intros k. apply synced_tap_times; [|done].
    intros Hdown. by apply Hk, (engine_ok_down_modifier self).
Qed.

Lemma engine_ok_emit_cursor_moves tracking T self tracking' e' :
  engine_ok self →
  _emit_cursor_moves tracking T (engine self) = Some (tracking', e') →
  engine_ok (set_engine e' self).
Proof.
  intros H. unfold _emit_cursor_moves. destruct (Qeq_bool T 0); [done|].
  destruct (Qle_bool _ _); destruct (0 <? _); intros [= <- <-];
    try (by apply (engine_ok_ext self));
    apply engine_ok_tap_times; try done; apply arrow_not_modifier;
    destruct (Qltb _ _); auto.
Qed.

Section EngineOk.
Variable pow_half : Q → Q.

Lemma engine_ok_on_input_update t x y et self self' :
  engine_ok self →
  _on_input_update pow_half t x y et self = Some self' → engine_ok self'.
Proof.
  intros H. unfold _on_input_update.
  destruct (touch_states self !! t) as [state|]; [|by intros [= <-]].
  case_bool_decide; [|by intros [= <-]].
  unfold _on_space_motion_touch.
  destruct (space_tracking self !! t) as [tr|]; [|by intros [= <-]].
  destruct (negb (cursor_mode tr)); [by intros [= <-]|].
  destruct (space_motion_sample pow_half tr x y et (engine self))
    as [[tr' e']|] eqn:Es; [|done].
  cbn [mbind option_bind]. intros [= <-].
  apply (engine_ok_ext (set_engine e' self)); [done..|].
  revert Es. unfold space_motion_sample.
  destruct (Qeq_bool _ 0); [intros [= <- <-]; by apply (engine_ok_ext self)|].
  cbv zeta. by apply engine_ok_emit_cursor_moves.
Qed.

Lemma engine_ok_on_window_event event now self b self' :
  timers_ok self → mods_ok self → engine_ok self →
  on_window_event pow_half event now self = Some (b, self') → engine_ok self'.
Proof.
  intros Ht Hm H. unfold on_window_event.
  assert (∀ t x y,
            (match _find_key_at x y self with
             | None => Some (false, self)
             | Some _ =>
                 self ← _on_input_begin t x y (event_time event) now self;
                 self ← _update_shift_labels self;
                 Some (true, self)
             end) = Some (b, self') → engine_ok self') as Hbegin.
  { intros t x y. destruct (_find_key_at x y self); [|by intros [= <- <-]].
    destruct (_on_input_begin t x y (event_time event) now self) as [s1|] eqn:E1;
      [|done].
    cbn [mbind option_bind].
    destruct (_update_shift_labels s1) as [s2|] eqn:E2; [|done].
    cbn [mbind option_bind]. intros [= <- <-].
    apply (engine_ok_update_shift_labels s1); [|done].
    by apply (engine_ok_on_input_begin t x y (event_time event) now self). }
  assert (∀ t,
            (if bool_decide (t ∈ dom (touch_states self)) then
               self ← _on_input_end t (event_time event) now self;
               self ← _update_shift_labels self;
               Some (true, self)
             else Some (false, self)) = Some (b, self') → engine_ok self') as Hend.
  { intros t. case_bool_decide as Hin; [|by intros [= <- <-]].
    destruct (_on_input_end t (event_time event) now self) as [s1|] eqn:E1; [|done].
    cbn [mbind option_bind].
    destruct (_update_shift_labels s1) as [s2|] eqn:E2; [|done].
    cbn [mbind option_bind]. intros [= <- <-].
    apply (engine_ok_update_shift_labels s1); [|done].
    by apply (engine_ok_on_input_end t (event_time event) now self). }
  assert (∀ t x y,
            (if bool_decide (t ∈ dom (touch_states self)) then
               self ← _on_input_update pow_half t x y (event_time event) self;
               Some (true, self)
             else Some (false, self)) = Some (b, self') → engine_ok self') as Hupd.
  { intros t x y. case_bool_decide as Hin; [|by intros [= <- <-]].
    destruct (_on_input_update pow_half t x y (event_time event) self) as [s1|] eqn:E1;
      [|done].
    cbn [mbind option_bind]. intros [= <- <-].
    by apply (engine_ok_on_input_update t x y (event_time event) self). }
  destruct (event_type event); try (by intros [= <- <-]);
    destruct (event_coords event) as [[x y]|]; try (by intros [= <- <-]);
    first [apply Hbegin | apply Hend | apply Hupd].
Qed.

End EngineOk.

(** A pending tick whose contact still holds the key taps a regular key. *)
Lemma tick_key_regular id src t k self :
  timers_ok self →
  sources (glib self) !! id = Some src → callback src = cb_repeat_tick t k →
  touch_lost t k self = false → regular k.
Proof.
  intros Ht Hsrc Hcb Hlost.
  destruct (repeat_owned self Ht id src t k Hsrc) as (st & Est & _);
    [right; done|].
  destruct (repeat_regular self Ht t) as (ts & Ets & Hreg); [eauto|].
  unfold touch_lost in Hlost. rewrite Ets in Hlost.
  apply negb_false_iff, bool_decide_eq_true in Hlost. by rewrite <- Hlost.
Qed.

Lemma engine_ok_dispatch id self :
  timers_ok self → engine_ok self → engine_ok (dispatch id self).
Proof.
  intros Ht H. unfold dispatch.
  destruct (sources (glib self) !! id) as [src|] eqn:Hsrc; [|done].
  unfold run_callback. destruct (callback src) as [t k|t k|t|k] eqn:Hcb.
  - unfold _repeat_delay_done.
    destruct (touch_lost t k self); [by apply (engine_ok_ext self)|].
    destruct (repeat_states self !! t) as [state|];
      [|by apply (engine_ok_ext self)].
    cbn [timeout_add]. by apply (engine_ok_ext self).
  - unfold _repeat_tick. destruct (touch_lost t k self) eqn:Hlost.
    + apply (engine_ok_ext self); [by rewrite _cancel_repeat_eq..|done].
    + apply engine_ok_tap_key; [done|].
      by apply regular_not_modifier, (tick_key_regular id src t k self).
  - unfold _enter_space_cursor_mode.
    destruct (touch_lost t KEY_SPACE self); [by apply (engine_ok_ext self)|].
    destruct (space_tracking self !! t) as [tr|];
      [|by apply (engine_ok_ext self)].
    rewrite _set_space_cursor_visual_eq. by apply (engine_ok_ext self).
  - rewrite _update_visual_eq. by apply (engine_ok_ext self).
Qed.

Lemma engine_ok_init enabled shortcut capslock :
  engine_ok (init enabled shortcut capslock).
Proof.
  split; unfold init; proj.
  - apply dom_gset_to_gmap.
  - by intros k Hk.
  - intros k. unfold synced. cbn [device down_keys]. split; [by intros Hk|done].
Qed.

Section ReachableEngine.
Variable pow_half : Q → Q.

(** Every state the program reaches has the engine, the device log and the
    registry in agreement. *)
Lemma reachable_engine_ok self : reachable pow_half self → engine_ok self.
Proof.
  induction 1 as [enabled shortcut capslock|self i self' Hreach IH Hstep].
  - apply engine_ok_init.
  - destruct (reachable_ok pow_half self Hreach) as [Ht Hm].
    destruct i as [event now|id|geometry]; cbn [handle] in Hstep.
    + destruct (on_window_event pow_half event now self) as [[b s1]|] eqn:E; [|done].
      injection Hstep as <-.
      by apply (engine_ok_on_window_event pow_half event now self b).
    + injection Hstep as <-. by apply engine_ok_dispatch.
    + injection Hstep as <-. by apply (engine_ok_ext self).
Qed.

(** X4. In every state the program reaches, [down_keys] agrees with what
    the device was sent: a key is in [down_keys] exactly when the last event
    emitted for it is a press. *)
Theorem down_keys_agree_with_device (self : QingBoard) (k : Z) :
  reachable pow_half self →
  (k ∈ down_keys (engine self) ↔ last_event k (device (engine self)) = Some 1).
Proof. intros Hreach. apply (device_synced self (reachable_engine_ok self Hreach)). Qed.

(** X5. No stuck keys: in every state the program reaches, a key whose last
    device event is a press is a modifier key that is held or latched in the
    registry.  In particular no regular key, space, CapsLock or arrow key is
    ever left pressed on the device. *)
Theorem no_stuck_keys (self : QingBoard) (k : Z) :
  reachable pow_half self →
  last_event k (device (engine self)) = Some 1 →
  k ∈ MODIFIER_KEYS ∧
  ∃ state, modifiers self !! k = Some state ∧
           (pressed state = true ∨ latched state = true).
Proof.
  intros Hreach Hlast. pose proof (reachable_engine_ok self Hreach) as H.
  apply (device_synced self H) in Hlast.
  split; [by apply (engine_ok_down_modifier self)|].
  destruct (down_active self H k Hlast) as (st & E & Hact).
  exists st. split; [done|]. by apply orb_true_iff.
Qed.

End ReachableEngine.

(** ** What the modifier operations leave alone *)

Lemma modifier_frame_refl self : modifier_frame self self.
Proof. by split. Qed.

Lemma modifier_frame_trans s1 s2 s3 :
  modifier_frame s1 s2 → modifier_frame s2 s3 → modifier_frame s1 s3.
Proof.
  intros [A1 A2 A3 A4 A5 A6 A7 A8 A9 A10] [B1 B2 B3 B4 B5 B6 B7 B8 B9 B10].
  split; try congruence.
  intros k Hk. rewrite B10 by done. auto.
Qed.

Lemma painted_dom key active w : dom (painted key active w) = dom w.
Proof. unfold painted. case_decide; [apply dom_alter_L|done]. Qed.

(** A state that agrees with [self] except on the registry, the engine, the tap
    time, the shift labels and painted modifier labels. *)
Lemma modifier_frame_intro self self' :
  touch_states self' = touch_states self → key_rects self' = key_rects self →
  space_tracking self' = space_tracking self →
  repeat_states self' = repeat_states self →
  key_press_count self' = key_press_count self → glib self' = glib self →
  capslock_on self' = capslock_on self → caps_indicator self' = caps_indicator self →
  (key_widgets self' = key_widgets self
   ∨ ∃ key active, key_widgets self' = painted key active (key_widgets self)) →
  modifier_frame self self'.
Proof.
  intros ???????? Hw. split; try done.
  - destruct Hw as [->|(key & a & ->)]; [done|apply painted_dom].
  - intros k Hk. destruct Hw as [->|(key & a & ->)]; [done|by apply painted_lookup].
Qed.

Lemma modifier_frame_force_released key self :
  modifier_frame self (force_released key self).
Proof. unfold force_released. apply modifier_frame_intro; proj; eauto. Qed.

Lemma modifier_frame_pressed_global key state self :
  modifier_frame self (pressed_global key state self).
Proof.
  unfold pressed_global. cbv zeta.
  set (s1 := update_modifier key _ self).
  assert (modifier_frame self s1) as H1 by by apply modifier_frame_intro; eauto.
  set (s2 := if decide (key ∈ SHIFT_KEYS) then force_released (opposite key) s1 else s1).
  assert (modifier_frame self s2) as H2.
  { unfold s2. case_decide; [|done].
    eapply modifier_frame_trans; [done|apply modifier_frame_force_released]. }
  eapply modifier_frame_trans; [exact H2|].
  apply modifier_frame_intro; proj; eauto.
Qed.

Lemma modifier_frame_toggled key state self :
  modifier_frame self (toggled key state self).
Proof.
  unfold toggled. destruct (latched state); rewrite _paint_modifier_eq;
    apply modifier_frame_intro; proj; eauto.
Qed.

Lemma modifier_frame_handle_shift_double_tap now self self' :
  shifts_registered self →
  _handle_shift_double_tap now self = Some self' → modifier_frame self self'.
Proof.
  intros Hreg. rewrite _handle_shift_double_tap_eq by done. intros [= <-].
  destruct (negb _); [by apply modifier_frame_intro; eauto|].
  destruct (double_tap_hit now self); [|by apply modifier_frame_intro; eauto].
  cbv zeta.
  set (released := force_released KEY_LEFTSHIFT (force_released KEY_RIGHTSHIFT self)).
  assert (modifier_frame self released) as H.
  { eapply modifier_frame_trans; apply modifier_frame_force_released. }
  eapply modifier_frame_trans; [exact H|].
  apply modifier_frame_intro; proj; eauto.
Qed.

Lemma modifier_frame_release_global key now self self' :
  shifts_registered self →
  _on_modifier_release_global key now self = Some self' → modifier_frame self self'.
Proof.
  intros Hreg. destruct (modifiers self !! key) as [state|] eqn:E;
    [|unfold _on_modifier_release_global; by rewrite E].
  destruct (used_in_combo state) eqn:Hc.
  - unfold _on_modifier_release_global. rewrite E. simpl. rewrite Hc.
    intros [= <-].
    destruct (latched state); simpl; rewrite ?_paint_modifier_eq;
      apply modifier_frame_intro; proj; eauto.
  - rewrite (_on_modifier_release_global_clean _ _ state) by done.
    pose proof (modifier_frame_toggled key state self) as Ht.
    case_decide; [|by intros [= <-]].
    intros Hd. eapply modifier_frame_trans; [exact Ht|].
    apply (modifier_frame_handle_shift_double_tap now); [|done].
    by apply shifts_registered_toggled.
Qed.

Lemma widgets_after_dom l w : dom (widgets_after l w) = dom w.
Proof.
  unfold widgets_after. revert w. induction l as [|[k st] l IH]; intros w; simpl;
    [done|].
  rewrite IH. destruct (one_shot st); [apply painted_dom|done].
Qed.

Lemma modifier_frame_release_one_shot self :
  modifier_frame self (_release_one_shot_modifiers self).
Proof.
  destruct (release_one_shot_frame self) as (? & ? & ? & ? & ? & ? & _ & Hw).
  split; try done; rewrite _release_one_shot_modifiers_eq; cbv zeta; proj;
    try done.
  apply widgets_after_dom.
Qed.

Lemma modifier_frame_mark_used_in_combo self :
  modifier_frame self (mark_used_in_combo self).
Proof. by split. Qed.

Lemma modifier_frame_update_shift_labels self self' :
  _update_shift_labels self = Some self' → modifier_frame self self'.
Proof.
  unfold _update_shift_labels.
  destruct (any_active _ _); [|done]. cbn [mbind option_bind]. by intros [= <-].
Qed.

(** ** Frames of the contact handlers *)

Lemma _update_visual_other key pressed self k :
  k ≠ key → key_widgets (_update_visual key pressed self) !! k = key_widgets self !! k.
Proof. intros Hne. rewrite _update_visual_eq. proj. by rewrite lookup_alter_ne. Qed.

Lemma _update_visual_dom key pressed self :
  dom (key_widgets (_update_visual key pressed self)) = dom (key_widgets self).
Proof. rewrite _update_visual_eq. proj. apply dom_alter_L. Qed.

Lemma contact_removed_caps t state self :
  capslock_on (contact_removed t state self) = capslock_on self ∧
  caps_indicator (contact_removed t state self) = caps_indicator self.
Proof. unfold contact_removed. cbv zeta. by destruct (0 <? _). Qed.

(** What [_on_input_end] changes for a contact on [state]'s key, apart from
    the registry and the engine. *)
Lemma _on_input_end_frame t et now state self self' :
  mods_ok self →
  touch_states self !! t = Some state →
  _on_input_end t et now self = Some self' →
  touch_states self' = delete t (touch_states self) ∧
  key_press_count self' = key_press_count (contact_removed t state self) ∧
  key_rects self' = key_rects self ∧
  capslock_on self' = capslock_on self ∧
  caps_indicator self' = caps_indicator self ∧
  (glib self' = glib self ∨ glib self' = cancelled_glib t self) ∧
  dom (key_widgets self') = dom (key_widgets self) ∧
  (∀ k, k ∉ MODIFIER_KEYS → k ≠ key_code state →
     key_widgets self' !! k = key_widgets self !! k) ∧
  (key_code state ∉ MODIFIER_KEYS →
   key_widgets self' !! key_code state
   = if bool_decide (key_code state = KEY_CAPSLOCK) then
       key_widgets self !! key_code state
     else if bool_decide (key_code state = KEY_SPACE)
             || (count_of (key_code state) self <=? 1) then
       remove_class "pressed" <$> key_widgets self !! key_code state
     else key_widgets self !! key_code state).
Proof.
  intros Hm E. rewrite (_on_input_end_eq _ _ _ state) by done. cbv zeta.
  destruct (contact_removed_frame t state self)
    as (Hts1 & Hm1 & He1 & Hr1 & Hg1 & Hsp1 & Hw1 & Hk1).
  destruct (contact_removed_caps t state self) as [Hc1 Hi1].
  assert (mods_ok (contact_removed t state self)) as Hmods1.
  { apply (mods_ok_ext self); [done|by rewrite He1|done]. }
  set (s1 := contact_removed t state self) in *.
  case_bool_decide as Hcaps.
  { intros [= <-]. split_and!; try done; [by left|congruence..]. }
  case_bool_decide as Hmod.
  { unfold _on_modifier_release_touch. intros Hrel.
    assert (modifier_frame s1 self') as [Fts Fkr Fsp Frs Fkc Fg Fco Fci Fwd Fw].
    { revert Hrel. destruct (negb _); [|intros [= <-]; apply modifier_frame_refl].
      apply modifier_frame_release_global. by apply mods_ok_shifts_registered. }
    split_and!; try congruence; try (left; congruence); try done.
    intros k Hk _. rewrite Fw by done. by rewrite Hw1. }
  assert (∀ s2 s' (upd : bool),
            mods_ok s2 →
            touch_states s2 = touch_states s1 → key_press_count s2 = key_press_count s1 →
            key_rects s2 = key_rects s1 → capslock_on s2 = capslock_on s1 →
            caps_indicator s2 = caps_indicator s1 →
            (glib s2 = glib self ∨ glib s2 = cancelled_glib t self) →
            key_widgets s2 = key_widgets s1 →
            (self ← _update_shift_labels (_release_one_shot_modifiers s2);
             Some (s' self)) = Some self' →
            (∀ s, s' s = if upd then _update_visual (key_code state) false s else s) →
            touch_states self' = delete t (touch_states self) ∧
            key_press_count self' = key_press_count s1 ∧
            key_rects self' = key_rects self ∧
            capslock_on self' = capslock_on self ∧
            caps_indicator self' = caps_indicator self ∧
            (glib self' = glib self ∨ glib self' = cancelled_glib t self) ∧
            dom (key_widgets self') = dom (key_widgets self) ∧
            (∀ k, k ∉ MODIFIER_KEYS → k ≠ key_code state →
               key_widgets self' !! k = key_widgets self !! k) ∧
            key_widgets self' !! key_code state
            = if upd then remove_class "pressed" <$> key_widgets self !! key_code state
              else key_widgets self !! key_code state) as Hrest.
  { intros s2 s' upd Hm2 Ets Ekc Ekr Eco Eci Hg Ew Heq Hs'.
    pose proof (modifier_frame_release_one_shot s2) as [Fts Fkr Fsp Frs Fkc Fg Fco Fci Fwd Fw].
    pose proof (mods_ok_release_one_shot s2 Hm2) as Hm3.
    set (s3 := _release_one_shot_modifiers s2) in *.
    destruct (mods_ok_update_shift_labels s3 Hm3) as [b Eb]. rewrite Eb in Heq.
    cbn [mbind option_bind] in Heq. injection Heq as <-. rewrite Hs'.
    assert (∀ k, k ∉ MODIFIER_KEYS →
              key_widgets (set_shift_labels b s3) !! k = key_widgets self !! k) as Hw3.
    { intros k Hk. proj. rewrite Fw by done. by rewrite Ew, Hw1. }
    assert (dom (key_widgets (set_shift_labels b s3)) = dom (key_widgets self)) as Hd3.
    { proj. by rewrite Fwd, Ew, Hw1. }
    destruct upd.
    - rewrite _update_visual_eq. proj. split_and!; try congruence;
        try (destruct Hg as [Hg|Hg]; [left|right]; congruence).
      + by rewrite dom_alter_L.
      + intros k Hk Hne. rewrite lookup_alter_ne by done. by apply Hw3.
      + rewrite lookup_alter_eq. f_equal. by apply Hw3.
    - proj. split_and!; try congruence;
        try (destruct Hg as [Hg|Hg]; [left|right]; congruence).
      + intros k Hk Hne. by apply Hw3.
      + by apply Hw3. }
  case_bool_decide as Hsp.
  { intros Heq.
    destruct (_finish_space_tracking_frame t s1)
      as (_ & Hd2 & Hm2 & Hts2 & Hr2 & Hg2 & Hw2 & Hc2 & Hk2 & _).
    destruct (Hrest (_finish_space_tracking t s1) (_update_visual (key_code state) false)
                true) as (? & ? & ? & ? & ? & ? & ? & ? & ?); try done.
    - by apply (mods_ok_ext s1).
    - rewrite _finish_space_tracking_eq. destruct (space_tracking s1 !! t); [|done].
      cbv zeta. by destruct (negb _).
    - rewrite _finish_space_tracking_eq. destruct (space_tracking s1 !! t); [|done].
      cbv zeta. by destruct (negb _).
    - left. congruence. }
  intros Heq.
  destruct (Hrest (_cancel_repeat t s1)
              (λ s, if (if 0 <? count_of (key_code state) self
                        then count_of (key_code state) self - 1 else 0) =? 0
                    then _update_visual (key_code state) false s else s)
              (count_of (key_code state) self <=? 1))
    as (? & ? & ? & ? & ? & ? & ? & ? & ?); try done;
    try (by rewrite _cancel_repeat_eq).
  - apply (mods_ok_ext s1); [by rewrite _cancel_repeat_eq..|done].
  - right. rewrite _cancel_repeat_eq. proj. unfold cancelled_glib.
    by rewrite Hr1, Hg1.
  - intros s.
    assert (((if 0 <? count_of (key_code state) self
              then count_of (key_code state) self - 1 else 0) =? 0)
            = (count_of (key_code state) self <=? 1)) as ->; [|done].
    destruct (0 <? _) eqn:E0; [apply Z.ltb_lt in E0|apply Z.ltb_ge in E0].
    + destruct (_ <=? 1) eqn:E1; [apply Z.leb_le in E1|apply Z.leb_gt in E1]; lia.
    + symmetry. apply Z.leb_le. lia.
Qed.

Lemma timeout_add_sources interval f g id src :
  sources (timeout_add interval f g).2 !! id = Some src →
  sources g !! id = Some src ∨ (id = next_source_id g ∧ callback src = f).
Proof.
  cbn [timeout_add snd sources].
  intros [[<- <-]|[_ ?]]%lookup_insert_Some; [right|left]; done.
Qed.

Lemma _cancel_space_long_press_sources t self id src :
  sources (glib (_cancel_space_long_press t self)) !! id = Some src →
  sources (glib self) !! id = Some src.
Proof.
  unfold _cancel_space_long_press.
  destruct (space_tracking self !! t) as [tr|]; [|done].
  destruct (long_press_source tr) as [id'|]; [|done]. proj. cbn [source_remove sources].
  by intros [_ ?]%lookup_delete_Some.
Qed.

Lemma _stop_all_other_repeats_sources key t self id src :
  sources (glib (_stop_all_other_repeats key t self)) !! id = Some src →
  sources (glib self) !! id = Some src.
Proof.
  unfold _stop_all_other_repeats.
  apply (foldl_preserves
           (λ s, sources (glib s) !! id = Some src → sources (glib self) !! id = Some src));
    [done|].
  intros s [tid st] IH. destruct (_ && _); [|done].
  rewrite _cancel_repeat_eq. proj. intros H. by apply IH, (cancelled_glib_sources tid).
Qed.

Lemma begun_regular_sources t key now self id src :
  regular key →
  sources (glib (begun_regular t key now self)) !! id = Some src →
  sources (glib self) !! id = Some src ∨ callback src = cb_repeat_delay_done t key.
Proof.
  intros Hreg. unfold begun_regular. cbv zeta.
  rewrite _start_repeat_eq by done. cbv zeta.
  set (s := engine_tap_key key _).
  assert (sources (glib (set_repeat_states
            (<[t:={| delay_source := Some (next_source_id (glib (_cancel_repeat t s)));
                     repeat_source := None |}]> (repeat_states (_cancel_repeat t s)))
            (set_glib (timeout_add 420 (cb_repeat_delay_done t key)
                         (glib (_cancel_repeat t s))).2 (_cancel_repeat t s)))) !! id
          = Some src →
          sources (glib self) !! id = Some src
          ∨ callback src = cb_repeat_delay_done t key) as H.
  { proj. intros [H|[_ H]]%timeout_add_sources; [left|by right].
    rewrite _cancel_repeat_eq in H. proj in H.
    apply cancelled_glib_sources in H. unfold s in H. proj in H.
    by apply _stop_all_other_repeats_sources in H. }
  destruct (_ =? 1); [rewrite _update_visual_eq|]; apply H.
Qed.

Lemma begun_regular_caps t key now self :
  regular key →
  capslock_on (begun_regular t key now self) = capslock_on self ∧
  caps_indicator (begun_regular t key now self) = caps_indicator self.
Proof.
  intros Hreg. unfold begun_regular. cbv zeta.
  rewrite _start_repeat_eq by done. cbv zeta.
  destruct (_stop_all_other_repeats_frame key t
              (mark_used_in_combo (contact_added t key now self))) as (rs & g & ->).
  by destruct (_ =? 1); rewrite ?_update_visual_eq, _cancel_repeat_eq.
Qed.

(** What [_on_input_begin] changes for a fresh contact that lands on [key],
    apart from the registry and the engine. *)
Lemma _on_input_begin_frame t x y et now key self self' :
  mods_ok self →
  touch_states self !! t = None →
  _find_key_at x y self = Some key →
  _on_input_begin t x y et now self = Some self' →
  touch_states self'
    = <[t := {| key_code := key; press_time := now |}]> (touch_states self) ∧
  key_press_count self' = <[key := count_of key self + 1]> (key_press_count self) ∧
  key_rects self' = key_rects self ∧
  capslock_on self'
    = (if bool_decide (key = KEY_CAPSLOCK) then negb (capslock_on self)
       else capslock_on self) ∧
  caps_indicator self'
    = (if bool_decide (key = KEY_CAPSLOCK) then negb (capslock_on self)
       else caps_indicator self) ∧
  (∀ id src, sources (glib self') !! id = Some src →
     sources (glib self) !! id = Some src
     ∨ (key = KEY_CAPSLOCK ∧ callback src = cb_flash_clear KEY_CAPSLOCK)
     ∨ (key = KEY_SPACE ∧ callback src = cb_enter_space_cursor_mode t)
     ∨ (regular key ∧ callback src = cb_repeat_delay_done t key)) ∧
  dom (key_widgets self') = dom (key_widgets self) ∧
  (∀ k, k ∉ MODIFIER_KEYS → k ≠ key →
     key_widgets self' !! k = key_widgets self !! k) ∧
  (key ∉ MODIFIER_KEYS →
   key_widgets self' !! key
   = if bool_decide (regular key) && negb (count_of key self + 1 =? 1)
     then key_widgets self !! key
     else add_class "pressed" <$> key_widgets self !! key).
Proof.
  intros Hm E Hfind. rewrite _on_input_begin_fresh by done. rewrite Hfind. cbv zeta.
  pose proof (mods_ok_contact_added t key now self Hm) as Hm0.
  set (s0 := contact_added t key now self) in *.
  case_bool_decide as Hcaps.
  { intros [= <-]. rewrite _flash_regular_key_eq, _update_visual_eq. proj.
    split_and!; try done.
    - intros id src [H|[_ H]]%timeout_add_sources; [by left|right; left].
      split; [done|by rewrite <- Hcaps].
    - apply dom_alter_L.
    - intros k _ Hne. by rewrite lookup_alter_ne.
    - intros _. rewrite lookup_alter_eq.
      rewrite (bool_decide_eq_false_2 (regular key)); [done|].
      rewrite Hcaps. apply not_regular_capslock. }
  case_bool_decide as Hmod.
  { intros Hpress.
    assert (modifier_frame s0 self') as [Fts Fkr Fsp Frs Fkc Fg Fco Fci Fwd Fw].
    { revert Hpress. unfold _on_modifier_press_touch.
      destruct (mods_ok_press_global key s0 Hm0 Hmod) as (st & Est & Epr & Hmp).
      rewrite Est. cbn [mbind option_bind]. destruct (negb (pressed st)).
      - rewrite Epr. cbn [mbind option_bind]. intros Hl.
        eapply modifier_frame_trans; [apply modifier_frame_pressed_global|].
        by apply modifier_frame_update_shift_labels.
      - cbn [mbind option_bind]. apply modifier_frame_update_shift_labels. }
    split_and!; try done; try congruence.
    - intros id src Hsrc. left. by rewrite Fg in Hsrc.
    - intros k Hk _. by rewrite Fw. }
  case_bool_decide as Hsp.
  { intros [= <-]. rewrite _update_visual_eq, _begin_space_tracking_eq. cbv zeta.
    destruct (_cancel_space_long_press_frame t (mark_used_in_combo s0))
      as (Hts & _ & _ & _ & Hkr).
    assert (key_press_count (_cancel_space_long_press t (mark_used_in_combo s0))
            = key_press_count s0 ∧
            capslock_on (_cancel_space_long_press t (mark_used_in_combo s0))
            = capslock_on s0 ∧
            caps_indicator (_cancel_space_long_press t (mark_used_in_combo s0))
            = caps_indicator s0 ∧
            key_widgets (_cancel_space_long_press t (mark_used_in_combo s0))
            = key_widgets s0) as (Hkc & Hco & Hci & Hw).
    { unfold _cancel_space_long_press.
      destruct (space_tracking _ !! t) as [tr|]; [|done].
      by destruct (long_press_source tr). }
    proj. rewrite Hts, Hkc, Hkr, Hco, Hci, Hw. split_and!; try done.
    - intros id src [H|[_ H]]%timeout_add_sources.
      + left. by apply _cancel_space_long_press_sources in H.
      + right; right; left. done.
    - apply dom_alter_L.
    - intros k _ Hne. by rewrite lookup_alter_ne.
    - intros _. rewrite lookup_alter_eq.
      rewrite (bool_decide_eq_false_2 (regular key)); [done|].
      rewrite Hsp. apply not_regular_space. }
  assert (regular key) as Hreg by done.
  intros Hb. change (Some (begun_regular t key now self) = Some self') in Hb.
  injection Hb as <-.
  destruct (begun_regular_frame t key now self Hreg)
    as (Hts & Hkc & Hw & _ & _ & _ & Hkr & _).
  destruct (begun_regular_caps t key now self Hreg) as [Hco Hci].
  split_and!; try done.
  - intros id src H. apply begun_regular_sources in H; [|done].
    destruct H as [H|H]; [by left|]. right; right; right. done.
  - rewrite Hw. destruct (_ =? 1); [apply dom_alter_L|done].
  - intros k _ Hne. rewrite Hw. destruct (_ =? 1); [by rewrite lookup_alter_ne|done].
  - intros _. rewrite Hw, (bool_decide_eq_true_2 (regular key)) by done.
    destruct (_ =? 1); [apply lookup_alter_eq|done].
Qed.

(** ** The bookkeeping of contacts stays consistent *)

Lemma holders_lookup key self t state :
  holders key self !! t = Some state
  ↔ touch_states self !! t = Some state ∧ key_code state = key.
Proof. unfold holders. by rewrite map_lookup_filter_Some. Qed.

Lemma holders_insert key k t now ts self self' :
  touch_states self = ts →
  touch_states self' = <[t := {| key_code := key; press_time := now |}]> ts →
  ts !! t = None →
  holders k self'
  = if decide (key = k)
    then <[t := {| key_code := key; press_time := now |}]> (holders k self)
    else holders k self.
Proof.
  intros <- E' Hfresh. unfold holders. rewrite E', map_filter_insert.
  cbn [snd key_code]. case_decide; [done|].
  by rewrite delete_id.
Qed.

Lemma holders_delete k t self self' :
  touch_states self' = delete t (touch_states self) →
  holders k self' = delete t (holders k self).
Proof. intros E'. unfold holders. by rewrite E', map_filter_delete. Qed.

Lemma holders_nonempty key self :
  holders key self ≠ ∅
  ↔ ∃ t state, touch_states self !! t = Some state ∧ key_code state = key.
Proof.
  rewrite <- map_size_non_empty_iff, map_size_ne_0_lookup. split.
  - intros (t & st & H%holders_lookup). eauto.
  - intros (t & st & H). exists t, st. by apply holders_lookup.
Qed.

Lemma find_rect_elem rects x y k :
  find_rect rects x y = Some k → ∃ rect, (k, rect) ∈ rects.
Proof.
  induction rects as [|[k' r] rects IH]; [done|]. simpl.
  destruct (_ && _).
  - intros [= <-]. exists r. by left.
  - intros (rect & H)%IH. exists rect. by right.
Qed.

Lemma contacts_ok_ext self self' :
  touch_states self' = touch_states self →
  key_press_count self' = key_press_count self →
  glib self' = glib self →
  key_rects self' = key_rects self →
  key_widgets self' = key_widgets self →
  contacts_ok self → contacts_ok self'.
Proof.
  intros Ht Hc Hg Hr Hw [H1 H2 H3 H4 H5 H6].
  split; unfold holders, count_of in *; rewrite ?Ht, ?Hc, ?Hg, ?Hr, ?Hw; done.
Qed.

Lemma is_Some_dom_eq {A} (m m' : gmap Z A) k :
  dom m' = dom m → is_Some (m !! k) → is_Some (m' !! k).
Proof. intros Hd. rewrite <- !elem_of_dom. by rewrite Hd. Qed.

Lemma contacts_ok_on_input_end t et now state self self' :
  timers_ok self → mods_ok self → contacts_ok self →
  touch_states self !! t = Some state →
  _on_input_end t et now self = Some self' →
  contacts_ok self'.
Proof.
  intros Ht Hm [H1 H2 H3 H4 H5 H6] E Hend.
  destruct (_on_input_end_ok t et now state self Ht Hm E)
    as (s' & Hend' & Ht' & _ & _).
  rewrite Hend in Hend'. injection Hend' as <-.
  destruct (_on_input_end_frame t et now state self self' Hm E Hend)
    as (Hts & Hkc & Hkr & _ & _ & Hg & Hdom & Hwo & Hwk).
  assert (∀ id src, sources (glib self') !! id = Some src →
            sources (glib self) !! id = Some src) as Hsub.
  { intros id src. destruct Hg as [-> | ->]; [done|apply cancelled_glib_sources]. }
  assert (holders (key_code state) self !! t = Some state) as Hin
    by by apply holders_lookup.
  split.
  - intros k. unfold count_of. rewrite Hkc. unfold contact_removed. cbv zeta.
    rewrite (holders_delete k t self self') by done. fold (count_of k self).
    destruct (decide (k = key_code state)) as [->|Hne].
    + assert (size (holders (key_code state) self) ≠ 0%nat) as Hsz.
      { apply map_size_ne_0_lookup. eauto. }
      pose proof (H1 (key_code state)) as Hc.
      rewrite map_size_delete_Some by eauto.
      unfold count_of in *. proj.
      destruct (0 <? _) eqn:E0; [|apply Z.ltb_ge in E0; lia]. proj.
      rewrite lookup_insert_eq.
      change (default 0 (key_press_count self !! key_code state) - 1
              = Z.of_nat (Init.Nat.pred (size (holders (key_code state) self)))).
      lia.
    + rewrite (delete_id (holders k self)).
      2:{ destruct (holders k self !! t) as [st|] eqn:Eh; [|done].
          apply holders_lookup in Eh as [Eh1 Eh2]. congruence. }
      rewrite <- H1. unfold count_of. proj.
      destruct (0 <? _); proj; [|done]. by rewrite lookup_insert_ne.
  - intros id src t' k Hsrc Hrep.
    destruct (H2 id src t' k (Hsub _ _ Hsrc) Hrep) as (st & Est & Hk).
    exists st. split; [|done]. rewrite Hts.
    destruct (decide (t' = t)) as [->|Hne]; [|by rewrite lookup_delete_ne].
    exfalso.
    destruct (repeat_owned self' Ht' id src t k Hsrc Hrep) as (r & Er & _).
    destruct (repeat_regular self' Ht' t) as (st' & Est' & _); [eauto|].
    rewrite Hts, lookup_delete_eq in Est'. done.
  - intros id src k Hsrc Hcb. apply (H3 id src k); [by apply Hsub|done].
  - intros k rect Hin'. rewrite Hkr in Hin'.
    eapply is_Some_dom_eq; [done|]. by eapply H4.
  - intros t' st. rewrite Hts. intros [_ Hst]%lookup_delete_Some.
    eapply is_Some_dom_eq; [done|]. by eapply H5.
  - intros k style Hreg Hstyle.
    rewrite (holders_delete k t self self') by done.
    destruct (decide (k = key_code state)) as [->|Hne].
    + rewrite Hwk in Hstyle by by apply regular_not_modifier.
      destruct (regular_decides _ Hreg) as (Ec & _ & Es).
      rewrite Ec, Es in Hstyle. cbn [orb] in Hstyle.
      rewrite <- map_size_non_empty_iff, map_size_delete_Some by eauto.
      destruct (key_widgets self !! key_code state) as [style0|] eqn:E0;
        [|by destruct (_ <=? 1)].
      specialize (H6 _ style0 Hreg E0). specialize (H1 (key_code state)).
      assert (size (holders (key_code state) self) ≠ 0%nat) as Hsz.
      { apply map_size_ne_0_lookup. eauto. }
      destruct (_ <=? 1) eqn:E1; [apply Z.leb_le in E1|apply Z.leb_gt in E1];
        cbn [fmap option_fmap option_map] in Hstyle; injection Hstyle as <-.
      * split; [by intros ?%remove_class_not_elem|]. lia.
      * split; [lia|]. intros _. apply H6. by apply map_size_non_empty_iff.
    + rewrite Hwo in Hstyle by (by apply regular_not_modifier || done).
      rewrite delete_id; [by apply H6|].
      destruct (holders k self !! t) as [st|] eqn:Eh; [|done].
      apply holders_lookup in Eh as [Eh1 Eh2]. congruence.
Qed.

Lemma contacts_ok_on_input_begin_fresh t x y et now self self' :
  mods_ok self → contacts_ok self →
  touch_states self !! t = None →
  _on_input_begin t x y et now self = Some self' →
  contacts_ok self'.
Proof.
  intros Hm H E Hbegin.
  destruct (_find_key_at x y self) as [key|] eqn:Hfind.
  2:{ rewrite _on_input_begin_fresh, Hfind in Hbegin by done. by injection Hbegin as <-. }
  destruct (_on_input_begin_frame t x y et now key self self' Hm E Hfind Hbegin)
    as (Hts & Hkc & Hkr & _ & _ & Hsrc & Hdom & Hwo & Hwk).
  destruct H as [H1 H2 H3 H4 H5 H6].
  assert (∀ k, holders k self'
               = if decide (key = k)
                 then <[t := {| key_code := key; press_time := now |}]> (holders k self)
                 else holders k self) as Hh.
  { intros k. by apply (holders_insert key k t now (touch_states self)). }
  assert (∀ k, holders k self !! t = None) as Hfresh.
  { intros k. destruct (holders k self !! t) as [st|] eqn:Eh; [|done].
    apply holders_lookup in Eh as [Eh _]. congruence. }
  split.
  - intros k. rewrite Hh. unfold count_of. rewrite Hkc.
    destruct (decide (key = k)) as [->|Hne].
    + rewrite lookup_insert_eq, map_size_insert_None by done.
      change (count_of k self + 1 = Z.of_nat (S (size (holders k self)))).
      rewrite H1. lia.
    + rewrite lookup_insert_ne by done. apply H1.
  - intros id src t' k Hs Hrep.
    destruct (Hsrc id src Hs) as [Hold|[[_ Hcb]|[[_ Hcb]|[_ Hcb]]]].
    + destruct (H2 id src t' k Hold Hrep) as (st & Est & Hk).
      exists st. split; [|done]. rewrite Hts, lookup_insert_ne; [done|congruence].
    + rewrite Hcb in Hrep. by destruct Hrep.
    + rewrite Hcb in Hrep. by destruct Hrep.
    + rewrite Hcb in Hrep. destruct Hrep as [Hrep|Hrep]; [|done].
      injection Hrep as <- <-. rewrite Hts, lookup_insert_eq. eauto.
  - intros id src k Hs Hcb.
    destruct (Hsrc id src Hs) as [Hold|[[_ Hcb']|[[_ Hcb']|[_ Hcb']]]];
      [by apply (H3 id src k)|congruence..].
  - intros k rect Hin. rewrite Hkr in Hin.
    eapply is_Some_dom_eq; [done|]. by eapply H4.
  - intros t' st. rewrite Hts.
    intros [[<- <-]|[_ Hst]]%lookup_insert_Some;
      (eapply is_Some_dom_eq; [done|]); [|by eapply H5].
    cbn [key_code]. destruct (find_rect_elem _ _ _ _ Hfind) as [rect Hin].
    by eapply H4.
  - intros k style Hreg Hstyle. rewrite Hh.
    destruct (decide (key = k)) as [->|Hne].
    + rewrite Hwk in Hstyle by by apply regular_not_modifier.
      rewrite (bool_decide_eq_true_2 (regular k)) in Hstyle by done.
      cbn [andb] in Hstyle.
      assert (<[t:={| key_code := k; press_time := now |}]> (holders k self) ≠ ∅)
        as Hne by apply insert_non_empty.
      destruct (key_widgets self !! k) as [style0|] eqn:E0;
        [|by destruct (negb _)].
      specialize (H6 _ style0 Hreg E0). specialize (H1 k).
      destruct (_ =? 1) eqn:E1; [apply Z.eqb_eq in E1|apply Z.eqb_neq in E1];
        cbn [negb fmap option_fmap option_map] in Hstyle; injection Hstyle as <-.
      * split; [done|]. intros _. apply add_class_elem.
      * split; [done|]. intros _. apply H6, map_size_non_empty_iff. lia.
    + rewrite Hwo in Hstyle by (by apply regular_not_modifier || done).
      by apply H6.
Qed.

Lemma contacts_ok_on_input_begin t x y et now self self' :
  timers_ok self → mods_ok self → contacts_ok self →
  _on_input_begin t x y et now self = Some self' → contacts_ok self'.
Proof.
  intros Ht Hm H. destruct (touch_states self !! t) as [state|] eqn:E.
  - destruct (_on_input_end_ok t et now state self Ht Hm E)
      as (s1 & Eend & Ht1 & Hm1 & Hts1).
    assert (touch_states s1 !! t = None) as E1.
    { rewrite Hts1. apply lookup_delete_eq. }
    rewrite (_on_input_begin_active t x y et now state self s1) by done.
    apply contacts_ok_on_input_begin_fresh; [done| |done].
    by apply (contacts_ok_on_input_end t et now state self).
  - by apply contacts_ok_on_input_begin_fresh.
Qed.

Lemma contacts_ok_update_shift_labels self self' :
  contacts_ok self → _update_shift_labels self = Some self' → contacts_ok self'.
Proof.
  intros H. unfold _update_shift_labels.
  destruct (any_active _ _); [|done]. cbn [mbind option_bind]. intros [= <-].
  by apply (contacts_ok_ext self).
Qed.

(** Changing the styles of labels that are not regular keys, and dropping
    sources. *)
Lemma contacts_ok_restyle self g w :
  contacts_ok self →
  (∀ id src, sources g !! id = Some src → sources (glib self) !! id = Some src) →
  dom w = dom (key_widgets self) →
  (∀ k, regular k → w !! k = key_widgets self !! k) →
  contacts_ok (set_key_widgets w (set_glib g self)).
Proof.
  intros [H1 H2 H3 H4 H5 H6] Hg Hd Hw. split; unfold holders, count_of; proj.
  - apply H1.
  - intros id src t k Hs. apply (H2 id src t k). by apply Hg.
  - intros id src k Hs. apply (H3 id src k). by apply Hg.
  - intros k rect Hin. eapply is_Some_dom_eq; [done|]. by eapply H4.
  - intros t st Hst. eapply is_Some_dom_eq; [done|]. by eapply H5.
  - intros k style Hreg. rewrite Hw by done. by apply H6.
Qed.

Lemma source_remove_sources id g id' src :
  sources (source_remove id g) !! id' = Some src → sources g !! id' = Some src.
Proof. cbn [source_remove sources]. by intros [_ ?]%lookup_delete_Some. Qed.

Lemma contacts_ok_source_remove id self :
  contacts_ok self → contacts_ok (glib_source_remove id self).
Proof.
  intros H.
  apply (contacts_ok_ext
           (set_key_widgets (key_widgets self)
              (set_glib (source_remove id (glib self)) self))); [done..|].
  apply contacts_ok_restyle; [done| |done..]. apply source_remove_sources.
Qed.

Lemma contacts_ok_dispatch id self :
  contacts_ok self → contacts_ok (dispatch id self).
Proof.
  intros H. unfold dispatch.
  destruct (sources (glib self) !! id) as [src|] eqn:Hsrc; [|done].
  unfold run_callback. destruct (callback src) as [t k|t k|t|k] eqn:Hcb.
  - unfold _repeat_delay_done.
    destruct (touch_lost t k self); [by apply contacts_ok_source_remove|].
    destruct (repeat_states self !! t) as [state|];
      [|by apply contacts_ok_source_remove].
    cbn [timeout_add]. pose proof H as [H1 H2 H3 H4 H5 H6].
    split; unfold holders, count_of; proj; try done.
    + intros id0 src0 t0 k0 Hs%source_remove_sources Hrep.
      cbn [sources] in Hs. apply lookup_insert_Some in Hs as [[_ <-]|[_ Hs]];
        [|by eapply H2].
      destruct Hrep as [Hrep|Hrep]; [done|]. cbn [callback] in Hrep.
      injection Hrep as <- <-. apply (H2 id src t k Hsrc). left. done.
    + intros id0 src0 k0 Hs%source_remove_sources Hcb0.
      cbn [sources] in Hs. apply lookup_insert_Some in Hs as [[_ <-]|[_ Hs]];
        [done|by eapply H3].
  - unfold _repeat_tick. destruct (touch_lost t k self).
    + apply contacts_ok_source_remove.
      rewrite _cancel_repeat_eq.
      apply (contacts_ok_ext
               (set_key_widgets (key_widgets self)
                  (set_glib (cancelled_glib t self) self))); [done..|].
      apply contacts_ok_restyle; [done| |done..]. apply cancelled_glib_sources.
    + by apply (contacts_ok_ext self).
  - unfold _enter_space_cursor_mode.
    destruct (touch_lost t KEY_SPACE self); [by apply contacts_ok_source_remove|].
    destruct (space_tracking self !! t) as [tr|];
      [|by apply contacts_ok_source_remove].
    rewrite _set_space_cursor_visual_eq.
    apply (contacts_ok_ext
             (set_key_widgets (alter (add_class "cursor-mode") KEY_SPACE (key_widgets self))
                (set_glib (source_remove id (glib self)) self)));
      [reflexivity..|].
    apply contacts_ok_restyle; [done|apply source_remove_sources|apply dom_alter_L|].
    intros k' (_ & _ & Hne). by rewrite lookup_alter_ne.
  - rewrite _update_visual_eq.
    apply (contacts_ok_ext
             (set_key_widgets (alter (remove_class "pressed") k (key_widgets self))
                (set_glib (source_remove id (glib self)) self)));
      [reflexivity..|].
    apply contacts_ok_restyle; [done|apply source_remove_sources|apply dom_alter_L|].
    intros k' (Hne & _ & _).
    rewrite (flash_key self H id src k Hsrc Hcb). by rewrite lookup_alter_ne.
Qed.

Lemma contacts_ok_update_key_rects geometry self :
  contacts_ok self → contacts_ok (_update_key_rects geometry self).
Proof.
  intros [H1 H2 H3 H4 H5 H6]. unfold _update_key_rects.
  split; unfold holders, count_of; proj; try done.
  intros k rect (kw & Hin & Hg)%list_elem_of_omap. destruct kw as [k' w].
  destruct (geometry k'); [|done]. cbn [fmap option_fmap option_map] in Hg.
  injection Hg as <- <-. apply elem_of_map_to_list in Hin. eauto.
Qed.

Lemma contacts_ok_init enabled shortcut capslock :
  contacts_ok (init enabled shortcut capslock).
Proof.
  split; unfold init, holders, count_of; proj.
  - intros k. by rewrite lookup_empty, map_filter_empty, map_size_empty.
  - by intros id src t k E.
  - by intros id src k E.
  - by intros k rect []%elem_of_nil.
  - by intros t st E.
  - intros k style Hreg Hstyle. rewrite map_filter_empty.
    apply elem_of_list_to_map_2 in Hstyle.
    apply list_elem_of_fmap in Hstyle as (k' & Heq & _). injection Heq as -> ->.
    split; [|done]. by intros ?%elem_of_singleton.
Qed.

Section ContactsOk.
Variable pow_half : Q → Q.

Lemma contacts_ok_on_input_update t x y et self self' :
  contacts_ok self →
  _on_input_update pow_half t x y et self = Some self' → contacts_ok self'.
Proof.
  intros H. unfold _on_input_update.
  destruct (touch_states self !! t) as [state|]; [|by intros [= <-]].
  case_bool_decide; [|by intros [= <-]].
  unfold _on_space_motion_touch.
  destruct (space_tracking self !! t) as [tr|]; [|by intros [= <-]].
  destruct (negb (cursor_mode tr)); [by intros [= <-]|].
  destruct (space_motion_sample pow_half tr x y et (engine self))
    as [[tr' e']|] eqn:Es; [|done].
  cbn [mbind option_bind]. intros [= <-]. by apply (contacts_ok_ext self).
Qed.

Lemma contacts_ok_on_window_event event now self b self' :
  timers_ok self → mods_ok self → contacts_ok self →
  on_window_event pow_half event now self = Some (b, self') → contacts_ok self'.
Proof.
  intros Ht Hm H. unfold on_window_event.
  assert (∀ t x y,
            (match _find_key_at x y self with
             | None => Some (false, self)
             | Some _ =>
                 self ← _on_input_begin t x y (event_time event) now self;
                 self ← _update_shift_labels self;
                 Some (true, self)
             end) = Some (b, self') → contacts_ok self') as Hbegin.
  { intros t x y. destruct (_find_key_at x y self); [|by intros [= <- <-]].
    destruct (_on_input_begin t x y (event_time event) now self) as [s1|] eqn:E1;
      [|done].
    cbn [mbind option_bind].
    destruct (_update_shift_labels s1) as [s2|] eqn:E2; [|done].
    cbn [mbind option_bind]. intros [= <- <-].
    apply (contacts_ok_update_shift_labels s1); [|done].
    by apply (contacts_ok_on_input_begin t x y (event_time event) now self). }
  assert (∀ t,
            (if bool_decide (t ∈ dom (touch_states self)) then
               self ← _on_input_end t (event_time event) now self;
               self ← _update_shift_labels self;
               Some (true, self)
             else Some (false, self)) = Some (b, self') → contacts_ok self') as Hend.
  { intros t. case_bool_decide as Hin; [|by intros [= <- <-]].
    apply elem_of_dom in Hin as [state Est].
    destruct (_on_input_end t (event_time event) now self) as [s1|] eqn:E1; [|done].
    cbn [mbind option_bind].
    destruct (_update_shift_labels s1) as [s2|] eqn:E2; [|done].
    cbn [mbind option_bind]. intros [= <- <-].
    apply (contacts_ok_update_shift_labels s1); [|done].
    by apply (contacts_ok_on_input_end t (event_time event) now state self). }
  assert (∀ t x y,
            (if bool_decide (t ∈ dom (touch_states self)) then
               self ← _on_input_update pow_half t x y (event_time event) self;
               Some (true, self)
             else Some (false, self)) = Some (b, self') → contacts_ok self') as Hupd.
  { intros t x y. case_bool_decide as Hin; [|by intros [= <- <-]].
    destruct (_on_input_update pow_half t x y (event_time event) self) as [s1|] eqn:E1;
      [|done].
    cbn [mbind option_bind]. intros [= <- <-].
    by apply (contacts_ok_on_input_update t x y (event_time event) self). }
  destruct (event_type event); try (by intros [= <- <-]);
    destruct (event_coords event) as [[x y]|]; try (by intros [= <- <-]);
    first [apply Hbegin | apply Hend | apply Hupd].
Qed.

(** Every state the program reaches has consistent contact bookkeeping. *)
Lemma reachable_contacts_ok self : reachable pow_half self → contacts_ok self.
Proof.
  induction 1 as [enabled shortcut capslock|self i self' Hreach IH Hstep].
  - apply contacts_ok_init.
  - destruct (reachable_ok pow_half self Hreach) as [Ht Hm].
    destruct i as [event now|id|geometry]; cbn [handle] in Hstep.
    + destruct (on_window_event pow_half event now self) as [[b s1]|] eqn:E; [|done].
      injection Hstep as <-.
      by apply (contacts_ok_on_window_event event now self b).
    + injection Hstep as <-. by apply contacts_ok_dispatch.
    + injection Hstep as <-. by apply contacts_ok_update_key_rects.
Qed.

End ContactsOk.

(** ** Consequences for counters, labels and repeat timers *)

Lemma touch_lost_false t k self state :
  touch_states self !! t = Some state → key_code state = k →
  touch_lost t k self = false.
Proof.
  intros E Hk. unfold touch_lost. rewrite E.
  by rewrite bool_decide_eq_true_2.
Qed.

Lemma dispatch_tick id src t k self state :
  sources (glib self) !! id = Some src → callback src = cb_repeat_tick t k →
  touch_states self !! t = Some state → key_code state = k →
  dispatch id self = engine_tap_key k self.
Proof.
  intros Hsrc Hcb E Hk. unfold dispatch. rewrite Hsrc.
  unfold run_callback. rewrite Hcb. unfold _repeat_tick.
  by rewrite (touch_lost_false t k self state).
Qed.

Section Consequences.
Variable pow_half : Q → Q.

(** X6. In every state the program reaches, the press counter of a key
    ([key_press_count.get(key, 0)]) is the number of contacts that hold the
    key. *)
Theorem press_count_counts_contacts (self : QingBoard) (k : Z) :
  reachable pow_half self →
  count_of k self = Z.of_nat (size (holders k self)).
Proof. intros Hreach. apply (count_holders self (reachable_contacts_ok pow_half self Hreach)). Qed.

(** X7. In every state the program reaches, the label of a regular key has
    the class [pressed] exactly while some contact holds the key. *)
Theorem regular_key_pressed_while_held (self : QingBoard) (k : Z) :
  reachable pow_half self → regular k →
  (has_class "pressed" k self
   ↔ ∃ t state, touch_states self !! t = Some state ∧ key_code state = k).
Proof.
  intros Hreach Hreg.
  pose proof (reachable_contacts_ok pow_half self Hreach) as H.
  rewrite <- holders_nonempty. split.
  - intros (style & Hstyle & Hin). by apply (regular_pressed self H k style).
  - intros Hne. pose proof Hne as (t & st & Est & Hk)%holders_nonempty.
    destruct (contact_widgets self H t st Est) as [style Hstyle].
    rewrite Hk in Hstyle. exists style. split; [done|].
    by apply (regular_pressed self H k style).
Qed.

(** X8. No ghost repeat: in every state the program reaches, a pending
    repeat timer (delay or tick) belongs to a contact that is active and holds
    exactly the key the timer re-taps, and that key is regular. *)
Theorem repeat_timer_has_live_contact (self : QingBoard) (id : Z) (src : Source)
    (t k : Z) :
  reachable pow_half self →
  sources (glib self) !! id = Some src →
  repeats (callback src) t k →
  regular k ∧
  ∃ state, touch_states self !! t = Some state ∧ key_code state = k.
Proof.
  intros Hreach Hsrc Hrep.
  pose proof (reachable_contacts_ok pow_half self Hreach) as H.
  destruct (reachable_ok pow_half self Hreach) as [Ht _].
  destruct (repeat_key self H id src t k Hsrc Hrep) as (st & Est & Hk).
  split; [|eauto].
  destruct (repeat_owned self Ht id src t k Hsrc Hrep) as (r & Er & _).
  destruct (repeat_regular self Ht t) as (st' & Est' & Hreg); [eauto|].
  rewrite Est in Est'. injection Est' as <-. by rewrite <- Hk.
Qed.

(** X9. In a reachable state with a pending tick timer for key [k], [n]
    firings of the timer in a row tap [k] exactly [n] times, change nothing
    but the engine, and leave the timer pending. *)
Theorem repeat_ticks_tap (self : QingBoard) (id : Z) (src : Source) (t k : Z)
    (n : nat) :
  reachable pow_half self →
  sources (glib self) !! id = Some src →
  callback src = cb_repeat_tick t k →
  ∃ self',
    run pow_half (replicate n (Timeout id)) self = Some self' ∧
    self' = set_engine (tap_times (Z.of_nat n) k (engine self)) self ∧
    device (engine self') = device (engine self) ++ taps (Z.of_nat n) k ∧
    sources (glib self') !! id = Some src.
Proof.
  intros Hreach Hsrc Hcb.
  pose proof (reachable_contacts_ok pow_half self Hreach) as H.
  destruct (repeat_key self H id src t k Hsrc) as (st & Est & Hk);
    [right; done|].
  eexists. split; [|split; [reflexivity|split; [apply tap_times_device|done]]].
  clear Hreach H. unfold tap_times. rewrite Nat2Z.id.
  revert self Hsrc Est. induction n as [|n IH]; intros self Hsrc Est.
  - change (Some self = Some (set_engine (engine self) self)).
    by rewrite set_engine_id.
  - cbn [replicate run handle]. cbn [mbind option_bind].
    rewrite (dispatch_tick id src t k self st) by done.
    rewrite (IH (engine_tap_key k self)) by done. proj.
    by rewrite Nat.iter_succ_r.
Qed.

(** X10. In a reachable state, when the delay timer of a repeat fires it is
    destroyed, nothing is sent to the device, a 70 ms tick timer for the same
    contact and key is registered under the next source id, and the contact's
    repeat record points to it. *)
Theorem repeat_delay_starts_ticks (self : QingBoard) (id : Z) (src : Source)
    (t k : Z) :
  reachable pow_half self →
  sources (glib self) !! id = Some src →
  callback src = cb_repeat_delay_done t k →
  engine (dispatch id self) = engine self ∧
  sources (glib (dispatch id self)) !! id = None ∧
  sources (glib (dispatch id self)) !! next_source_id (glib self)
    = Some {| interval_ms := 70; callback := cb_repeat_tick t k |} ∧
  repeat_states (dispatch id self) !! t
    = Some {| delay_source := None;
              repeat_source := Some (next_source_id (glib self)) |}.
Proof.
  intros Hreach Hsrc Hcb.
  pose proof (reachable_contacts_ok pow_half self Hreach) as H.
  destruct (reachable_ok pow_half self Hreach) as [Ht _].
  destruct (repeat_key self H id src t k Hsrc) as (st & Est & Hk);
    [left; done|].
  destruct (repeat_owned self Ht id src t k Hsrc) as (r & Er & _); [left; done|].
  destruct (ids_fresh self Ht id) as [_ Hlt]; [eauto|].
  unfold dispatch. rewrite Hsrc. unfold run_callback. rewrite Hcb.
  unfold _repeat_delay_done. rewrite (touch_lost_false t k self st), Er by done.
  cbn [timeout_add]. proj. cbn [source_remove sources]. split_and!.
  - done.
  - apply lookup_delete_eq.
  - rewrite lookup_delete_ne by lia. apply lookup_insert_eq.
  - apply lookup_insert_eq.
Qed.

End Consequences.

Lemma press_count_counts_contacts_witness :
  count_of KEY_A a_held = Z.of_nat (size (holders KEY_A a_held)).
Proof. apply (press_count_counts_contacts isqrt), reachable_a_held. Defined.

Lemma regular_key_pressed_while_held_witness :
  has_class "pressed" KEY_A a_held
  ↔ ∃ t state, touch_states a_held !! t = Some state ∧ key_code state = KEY_A.
Proof.
  apply (regular_key_pressed_while_held isqrt);
    [apply reachable_a_held|apply KEY_A_regular].
Defined.

Lemma repeat_timer_has_live_contact_witness :
  regular KEY_A ∧
  ∃ state, touch_states a_held !! 1 = Some state ∧ key_code state = KEY_A.
Proof.
  apply (repeat_timer_has_live_contact isqrt a_held 1
           {| interval_ms := 420; callback := cb_repeat_delay_done 1 KEY_A |}).
  - apply reachable_a_held.
  - by vm_compute.
  - by left.
Defined.

Lemma reachable_a_repeating : reachable isqrt a_repeating.
Proof.
  apply (run_reachable isqrt
           [WindowEvent (touch TOUCH_BEGIN 1 KEY_A 1000) 1; Timeout 1] started);
    [apply reachable_started|]. vm_compute. reflexivity.
Qed.

Lemma repeat_ticks_tap_witness :
  ∃ self',
    run isqrt (replicate 3 (Timeout 2)) a_repeating = Some self' ∧
    device (engine self') = taps 4 KEY_A.
Proof.
  destruct (repeat_ticks_tap isqrt a_repeating 2
              {| interval_ms := 70; callback := cb_repeat_tick 1 KEY_A |} 1 KEY_A 3)
    as (self' & Hrun & _ & Hdev & _).
  - apply reachable_a_repeating.
  - by vm_compute.
  - reflexivity.
  - exists self'. split; [exact Hrun|]. rewrite Hdev. by vm_compute.
Defined.

Lemma repeat_delay_starts_ticks_witness :
  sources (glib (dispatch 1 a_held)) !! 1 = None ∧
  sources (glib (dispatch 1 a_held)) !! 2
    = Some {| interval_ms := 70; callback := cb_repeat_tick 1 KEY_A |}.
Proof.
  destruct (repeat_delay_starts_ticks isqrt a_held 1
              {| interval_ms := 420; callback := cb_repeat_delay_done 1 KEY_A |}
              1 KEY_A) as (_ & Hgone & Hnew & _).
  - apply reachable_a_held.
  - by vm_compute.
  - reflexivity.
  - split; [exact Hgone|exact Hnew].
Defined.

(** ** The labels follow the state *)

Lemma dispatch_labels id self :
  modifiers (dispatch id self) = modifiers self ∧
  shift_labels (dispatch id self) = shift_labels self ∧
  capslock_on (dispatch id self) = capslock_on self ∧
  caps_indicator (dispatch id self) = caps_indicator self.
Proof.
  unfold dispatch. destruct (sources (glib self) !! id) as [src|]; [|done].
  unfold run_callback. destruct (callback src) as [t k|t k|t|k].
  - unfold _repeat_delay_done. destruct (touch_lost t k self); [done|].
    by destruct (repeat_states self !! t).
  - unfold _repeat_tick. destruct (touch_lost t k self); [|done].
    by rewrite _cancel_repeat_eq.
  - unfold _enter_space_cursor_mode. destruct (touch_lost t KEY_SPACE self); [done|].
    destruct (space_tracking self !! t); [|done].
    by rewrite _set_space_cursor_visual_eq.
  - by rewrite _update_visual_eq.
Qed.

Lemma _update_shift_labels_ok self self' :
  _update_shift_labels self = Some self' →
  any_active (elements SHIFT_KEYS) (modifiers self') = Some (shift_labels self') ∧
  capslock_on self' = capslock_on self ∧ caps_indicator self' = caps_indicator self.
Proof.
  unfold _update_shift_labels.
  destruct (any_active _ _) as [b|] eqn:E; [|done].
  cbn [mbind option_bind]. by intros [= <-].
Qed.

Lemma caps_on_input_begin t x y et now self self' :
  timers_ok self → mods_ok self →
  caps_indicator self = capslock_on self →
  _on_input_begin t x y et now self = Some self' →
  caps_indicator self' = capslock_on self'.
Proof.
  intros Ht Hm Hc.
  assert (∀ s, mods_ok s → touch_states s !! t = None →
            caps_indicator s = capslock_on s →
            _on_input_begin t x y et now s = Some self' →
            caps_indicator self' = capslock_on self') as Hfresh.
  { intros s Hms E Hcs Hb. destruct (_find_key_at x y s) as [key|] eqn:Hfind.
    - destruct (_on_input_begin_frame t x y et now key s self' Hms E Hfind Hb)
        as (_ & _ & _ & -> & -> & _). by case_bool_decide.
    - rewrite _on_input_begin_fresh, Hfind in Hb by done. by injection Hb as <-. }
  destruct (touch_states self !! t) as [state|] eqn:E; [|by apply Hfresh].
  destruct (_on_input_end_ok t et now state self Ht Hm E)
    as (s1 & Eend & Ht1 & Hm1 & Hts1).
  assert (touch_states s1 !! t = None) as E1.
  { rewrite Hts1. apply lookup_delete_eq. }
  rewrite (_on_input_begin_active t x y et now state self s1) by done.
  apply Hfresh; [done..|].
  destruct (_on_input_end_frame t et now state self s1 Hm E Eend)
    as (_ & _ & _ & -> & -> & _). done.
Qed.

Section LabelsOk.
Variable pow_half : Q → Q.

Lemma _on_input_update_labels t x y et self self' :
  _on_input_update pow_half t x y et self = Some self' →
  modifiers self' = modifiers self ∧ shift_labels self' = shift_labels self ∧
  capslock_on self' = capslock_on self ∧ caps_indicator self' = caps_indicator self.
Proof.
  unfold _on_input_update.
  destruct (touch_states self !! t) as [state|]; [|by intros [= <-]].
  case_bool_decide; [|by intros [= <-]].
  unfold _on_space_motion_touch.
  destruct (space_tracking self !! t) as [tr|]; [|by intros [= <-]].
  destruct (negb (cursor_mode tr)); [by intros [= <-]|].
  destruct (space_motion_sample pow_half tr x y et (engine self))
    as [[tr' e']|] eqn:Es; [|done].
  cbn [mbind option_bind]. by intros [= <-].
Qed.

Lemma labels_ok_on_window_event event now self b self' :
  timers_ok self → mods_ok self → labels_ok self →
  on_window_event pow_half event now self = Some (b, self') → labels_ok self'.
Proof.
  intros Ht Hm [Hs Hc]. unfold on_window_event.
  assert (∀ t x y,
            (match _find_key_at x y self with
             | None => Some (false, self)
             | Some _ =>
                 self ← _on_input_begin t x y (event_time event) now self;
                 self ← _update_shift_labels self;
                 Some (true, self)
             end) = Some (b, self') → labels_ok self') as Hbegin.
  { intros t x y. destruct (_find_key_at x y self); [|by intros [= <- <-]].
    destruct (_on_input_begin t x y (event_time event) now self) as [s1|] eqn:E1;
      [|done].
    cbn [mbind option_bind].
    destruct (_update_shift_labels s1) as [s2|] eqn:E2; [|done].
    cbn [mbind option_bind]. intros [= <- <-].
    destruct (_update_shift_labels_ok s1 s2 E2) as (? & Ec2 & Ei2).
    split; [done|]. rewrite Ec2, Ei2.
    by apply (caps_on_input_begin t x y (event_time event) now self). }
  assert (∀ t,
            (if bool_decide (t ∈ dom (touch_states self)) then
               self ← _on_input_end t (event_time event) now self;
               self ← _update_shift_labels self;
               Some (true, self)
             else Some (false, self)) = Some (b, self') → labels_ok self') as Hend.
  { intros t. case_bool_decide as Hin; [|by intros [= <- <-]].
    apply elem_of_dom in Hin as [state Est].
    destruct (_on_input_end t (event_time event) now self) as [s1|] eqn:E1; [|done].
    cbn [mbind option_bind].
    destruct (_update_shift_labels s1) as [s2|] eqn:E2; [|done].
    cbn [mbind option_bind]. intros [= <- <-].
    destruct (_update_shift_labels_ok s1 s2 E2) as (? & Ec2 & Ei2).
    split; [done|]. rewrite Ec2, Ei2.
    destruct (_on_input_end_frame t (event_time event) now state self s1 Hm Est E1)
      as (_ & _ & _ & -> & -> & _). done. }
  assert (∀ t x y,
            (if bool_decide (t ∈ dom (touch_states self)) then
               self ← _on_input_update pow_half t x y (event_time event) self;
               Some (true, self)
             else Some (false, self)) = Some (b, self') → labels_ok self') as Hupd.
  { intros t x y. case_bool_decide as Hin; [|by intros [= <- <-]].
    destruct (_on_input_update pow_half t x y (event_time event) self) as [s1|] eqn:E1;
      [|done].
    cbn [mbind option_bind]. intros [= <- <-].
    destruct (_on_input_update_labels t x y (event_time event) self s1 E1)
      as (Em & El & Eo & Ei).
    split; rewrite ?Em, ?El, ?Eo, ?Ei; done. }
  destruct (event_type event); try (by intros [= <- <-]);
    destruct (event_coords event) as [[x y]|]; try (by intros [= <- <-]);
    first [apply Hbegin | apply Hend | apply Hupd].
Qed.

Lemma reachable_labels_ok self : reachable pow_half self → labels_ok self.
Proof.
  induction 1 as [enabled shortcut capslock|self i self' Hreach IH Hstep].
  - split; [|done]. unfold init. proj. rewrite elements_SHIFT_KEYS.
    assert (∀ k, k ∈ SHIFT_KEYS →
              gset_to_gmap ModifierState_default MODIFIER_KEYS !! k
              = Some ModifierState_default) as Hl.
    { intros k Hk. apply lookup_gset_to_gmap_Some.
      split; [by apply SHIFT_KEYS_modifiers|done]. }
    cbn [any_active].
    rewrite (Hl KEY_RIGHTSHIFT RIGHTSHIFT_shift), (Hl KEY_LEFTSHIFT LEFTSHIFT_shift).
    done.
  - destruct (reachable_ok pow_half self Hreach) as [Ht Hm].
    destruct i as [event now|id|geometry]; cbn [handle] in Hstep.
    + destruct (on_window_event pow_half event now self) as [[b s1]|] eqn:E; [|done].
      injection Hstep as <-.
      by apply (labels_ok_on_window_event event now self b).
    + injection Hstep as <-. destruct IH as [Hs Hc].
      destruct (dispatch_labels id self) as (Em & El & Eo & Ei).
      split; rewrite ?Em, ?El, ?Eo, ?Ei; done.
    + injection Hstep as <-. by destruct IH.
Qed.

(** X11. In every state the program reaches, the shifted symbols are shown
    exactly when some Shift key is held or latched. *)
Theorem shift_labels_follow_shift (self : QingBoard) :
  reachable pow_half self →
  (shift_labels self = true
   ↔ ∃ k state, k ∈ SHIFT_KEYS ∧ modifiers self !! k = Some state
                ∧ (pressed state = true ∨ latched state = true)).
Proof.
  intros Hreach. destruct (reachable_labels_ok self Hreach) as [Hs _].
  destruct (reachable_ok pow_half self Hreach) as [_ Hm].
  pose proof (mods_ok_shifts_registered self Hm) as Hreg.
  rewrite elements_SHIFT_KEYS in Hs. cbn [any_active] in Hs.
  destruct (Hreg KEY_RIGHTSHIFT RIGHTSHIFT_shift) as [sr Er].
  destruct (Hreg KEY_LEFTSHIFT LEFTSHIFT_shift) as [sl El].
  rewrite Er, El in Hs. cbn [mbind option_bind] in Hs.
  assert (shift_labels self = (pressed sr || latched sr) || (pressed sl || latched sl))
    as ->.
  { destruct (pressed sr || latched sr); [by injection Hs|].
    destruct (pressed sl || latched sl); by injection Hs. }
  rewrite !orb_true_iff. split.
  - intros [H|H]; [exists KEY_RIGHTSHIFT, sr|exists KEY_LEFTSHIFT, sl];
      (split; [|done]); [apply RIGHTSHIFT_shift|apply LEFTSHIFT_shift].
  - intros (k & st & [->| ->]%elem_of_SHIFT_KEYS & E & H);
      [right|left]; congruence.
Qed.

End LabelsOk.

Lemma shift_labels_follow_shift_witness :
  shift_labels shift_held = true
  ↔ ∃ k state, k ∈ SHIFT_KEYS ∧ modifiers shift_held !! k = Some state
               ∧ (pressed state = true ∨ latched state = true).
Proof. apply (shift_labels_follow_shift isqrt), reachable_shift_held. Defined.

(** ** Hit testing *)

Lemma inside_test rect x y :
  Qle_bool (inject_Z (rect_x rect)) x
  && Qle_bool x (inject_Z (rect_x rect + rect_width rect))
  && Qle_bool (inject_Z (rect_y rect)) y
  && Qle_bool y (inject_Z (rect_y rect + rect_height rect)) = true
  ↔ inside rect x y.
Proof. unfold inside. rewrite !andb_true_iff, !Qle_bool_iff. tauto. Qed.

(** X12. [_find_key_at] returns the key of the first rectangle of
    [key_rects] that contains the point, borders included, and [None] exactly
    when no rectangle contains it. *)
Theorem find_key_at_first_hit (x y : Q) (self : QingBoard) :
  match _find_key_at x y self with
  | Some key =>
      ∃ before rect rest,
        key_rects self = before ++ (key, rect) :: rest ∧
        inside rect x y ∧
        ∀ p, p ∈ before → ¬ inside p.2 x y
  | None => ∀ p, p ∈ key_rects self → ¬ inside p.2 x y
  end.
Proof.
  unfold _find_key_at. induction (key_rects self) as [|[k r] rects IH]; cbn [find_rect].
  - by intros p ?%elem_of_nil.
  - destruct (_ && _) eqn:E.
    + apply inside_test in E. exists [], r, rects. split; [done|]. split; [done|].
      by intros p ?%elem_of_nil.
    + assert (¬ inside r x y) as Hout.
      { intros H%inside_test. congruence. }
      destruct (find_rect rects x y) as [key|].
      * destruct IH as (before & rect & rest & -> & Hin & Hnot).
        exists ((k, r) :: before), rect, rest. split; [done|]. split; [done|].
        intros p [->|Hp]%elem_of_cons; [done|by apply Hnot].
      * intros p [->|Hp]%elem_of_cons; [done|by apply IH].
Qed.

(** ** A modifier under several contacts *)

Lemma still_pressed_spec t key self :
  still_pressed t key self = true
  ↔ ∃ t' state, t' ≠ t ∧ touch_states self !! t' = Some state ∧ key_code state = key.
Proof.
  unfold still_pressed. rewrite existsb_exists. split.
  - intros ([t' st] & Hin & Hb). apply list_elem_of_In, elem_of_map_to_list in Hin.
    apply andb_true_iff in Hb as [H1%bool_decide_eq_true H2%bool_decide_eq_true].
    eauto.
  - intros (t' & st & Hne & E & Hk). exists (t', st). split.
    + by apply list_elem_of_In, elem_of_map_to_list.
    + by rewrite !bool_decide_eq_true_2.
Qed.

Lemma modifier_not_capslock key : key ∈ MODIFIER_KEYS → key ≠ KEY_CAPSLOCK.
Proof. intros H ->. by apply KEY_CAPSLOCK_not_modifier. Qed.

(** X13. When a contact on a modifier key ends while another contact holds
    the same key, only the contact and the press counter change: the modifier
    is not released.  When no other contact holds the key, the end is the
    global release of the modifier. *)
Theorem shared_modifier_released_by_last_contact (t et : Z) (now : Q)
    (state : TouchState) (self : QingBoard) :
  touch_states self !! t = Some state →
  key_code state ∈ MODIFIER_KEYS →
  ((∃ t' state', t' ≠ t ∧ touch_states self !! t' = Some state'
                 ∧ key_code state' = key_code state) →
   _on_input_end t et now self = Some (contact_removed t state self)) ∧
  ((∀ t' state', t' ≠ t → touch_states self !! t' = Some state' →
                 key_code state' ≠ key_code state) →
   _on_input_end t et now self
   = _on_modifier_release_global (key_code state) now (contact_removed t state self)).
Proof.
  intros E Hmod. rewrite (_on_input_end_eq _ _ _ state) by done. cbv zeta.
  rewrite (bool_decide_eq_false_2 (key_code state = KEY_CAPSLOCK))
    by by apply modifier_not_capslock.
  rewrite (bool_decide_eq_true_2 _ Hmod). unfold _on_modifier_release_touch.
  destruct (contact_removed_frame t state self) as (Hts & _).
  split.
  - intros (t' & st' & Hne & E' & Hk).
    rewrite (proj2 (still_pressed_spec t (key_code state) _)); [done|].
    exists t', st'. rewrite Hts, lookup_delete_ne by done. done.
  - intros Hlast.
    destruct (still_pressed t (key_code state) _) eqn:Hs; [|done].
    apply still_pressed_spec in Hs as (t' & st' & Hne & E' & Hk).
    rewrite Hts, lookup_delete_ne in E' by done. by destruct (Hlast t' st').
Qed.

Lemma shared_modifier_released_by_last_contact_witness :
  _on_input_end 1 1200 (12 # 10) shift_held_twice
  = Some (contact_removed 1 {| key_code := KEY_LEFTSHIFT; press_time := 1 |}
            shift_held_twice).
Proof.
  apply (shared_modifier_released_by_last_contact 1 1200 (12 # 10)
           {| key_code := KEY_LEFTSHIFT; press_time := 1 |} shift_held_twice).
  - by vm_compute.
  - apply SHIFT_KEYS_modifiers, LEFTSHIFT_shift.
  - exists 2, {| key_code := KEY_LEFTSHIFT; press_time := 11 # 10 |}.
    split; [done|]. split; [by vm_compute|done].
Defined.

(** ** CapsLock *)








(** X14. A press and release of CapsLock by a new contact toggles
    [capslock_on], the indicator following it, sends exactly one CapsLock tap
    and registers the 110 ms flash timer; the modifier registry, the repeat
    records and the other contacts are as before: CapsLock neither marks
    combos nor releases latched modifiers. *)
Theorem capslock_tap_cycle (t : Z) (x y : Q) (et et' : Z) (now now' : Q)
    (self : QingBoard) :
  touch_states self !! t = None →
  _find_key_at x y self = Some KEY_CAPSLOCK →
  ∃ s1 s2,
    _on_input_begin t x y et now self = Some s1 ∧
    _on_input_end t et' now' s1 = Some s2 ∧
    capslock_on s2 = negb (capslock_on self) ∧
    caps_indicator s2 = negb (capslock_on self) ∧
    engine s2 = tap_key KEY_CAPSLOCK (engine self) ∧
    modifiers s2 = modifiers self ∧
    repeat_states s2 = repeat_states self ∧
    touch_states s2 = touch_states self ∧
    sources (glib s2)
    = <[next_source_id (glib self) :=
          {| interval_ms := 110; callback := cb_flash_clear KEY_CAPSLOCK |}]>
        (sources (glib self)).
Proof.
  intros E Hfind. rewrite _on_input_begin_fresh by done. rewrite Hfind. cbv zeta.
  rewrite (bool_decide_eq_true_2 (KEY_CAPSLOCK = KEY_CAPSLOCK)) by done.
  rewrite _flash_regular_key_eq, _update_visual_eq.
  match goal with |- ∃ s1 s2, Some ?a = Some s1 ∧ _ => set (s1 := a) end.
  exists s1, (contact_removed t {| key_code := KEY_CAPSLOCK; press_time := now |} s1).
  split; [reflexivity|].
  assert (touch_states s1 !! t
          = Some {| key_code := KEY_CAPSLOCK; press_time := now |}) as E1.
  { unfold s1, contact_added. proj. apply lookup_insert_eq. }
  rewrite (_on_input_end_eq _ _ _ _ s1 E1). cbv zeta. cbn [key_code].
  rewrite (bool_decide_eq_true_2 (KEY_CAPSLOCK = KEY_CAPSLOCK)) by done.
  split; [reflexivity|].
  destruct (contact_removed_frame t {| key_code := KEY_CAPSLOCK; press_time := now |} s1)
    as (Hts & Hm & He & Hr & Hg & _).
  destruct (contact_removed_caps t {| key_code := KEY_CAPSLOCK; press_time := now |} s1)
    as [Hc Hi].
  rewrite Hc, Hi, He, Hm, Hr, Hts, Hg. unfold s1, contact_added. proj.
  split_and!; try done.
  rewrite delete_insert_eq. by apply delete_id.
Qed.

Lemma capslock_tap_cycle_witness :
  ∃ s1 s2,
    _on_input_begin 1 581 1 1000 1 started = Some s1 ∧
    _on_input_end 1 1100 (11 # 10) s1 = Some s2 ∧
    capslock_on s2 = true ∧
    device (engine s2) = taps 1 KEY_CAPSLOCK.
Proof.
  destruct (capslock_tap_cycle 1 581 1 1000 1100 1 (11 # 10) started)
    as (s1 & s2 & H1 & H2 & Hc & _ & He & _).
  - by vm_compute.
  - by vm_compute.
  - exists s1, s2. split; [exact H1|]. split; [exact H2|].
    split; [exact Hc|]. rewrite He. reflexivity.
Defined.

(** ** Examples of the engine properties *)

Lemma down_keys_agree_with_device_witness :
  KEY_LEFTSHIFT ∈ down_keys (engine shift_held)
  ↔ last_event KEY_LEFTSHIFT (device (engine shift_held)) = Some 1.
Proof. apply (down_keys_agree_with_device isqrt), reachable_shift_held. Defined.

Lemma no_stuck_keys_witness :
  KEY_LEFTSHIFT ∈ MODIFIER_KEYS ∧
  ∃ state, modifiers shift_held !! KEY_LEFTSHIFT = Some state ∧
           (pressed state = true ∨ latched state = true).
Proof.
  apply (no_stuck_keys isqrt shift_held KEY_LEFTSHIFT).
  - apply reachable_shift_held.
  - by vm_compute.
Defined.
